(** * Agents of the snake environment: a shallow embedding of [agent.py]

    The development follows the classes of [agent.py]:
    - [Agent]: the coordinate conversions shared by all agents;
    - [HamiltonianCycleAgent]: cycle construction by the serpentine sweep
      and the traversal decision;
    - [DeepQLearningAgent]: masked arg-max action selection, the regression
      target of the training step and the action probabilities;
    - [PolicyGradientAgent]: the Monte-Carlo policy-gradient loss;
    - [BreadthFirstSearchAgent]: the search, the backward reconstruction and
      the move selection.

    Python integers are [Z]; [//] and [%] are [Z.div] and [Z.modulo] (both
    round towards minus infinity, as Python does).  Numpy arrays are lists,
    indexed the way numpy indexes them (a negative index counts from the
    end, an index out of range raises).  A float is a number or one of the
    special values (an infinity, NaN); the numbers are exact: rationals
    where the code only compares, adds and multiplies them, reals where it
    takes exponentials and logarithms.  The outputs that enter the
    arithmetic of the training targets and the logits of the policy
    gradient are taken as numbers. *)

From Stdlib Require Import ZArith List Lia QArith Qminmax Reals Lra.
From stdpp Require Import base list gmap.
Import ListNotations.

#[local] Open Scope Z_scope.

(** ** Outcomes of Python code *)

Inductive exn : Type :=
| AssertionError
| IndexError
| RuntimeError
| ValueError
| ZeroDivisionError.

(** A call returns a value, raises, or is still running when the fuel of a
    [while] loop of the model is used up. *)
Inductive outcome (A : Type) : Type :=
| Ok (a : A)
| Raise (e : exn)
| OutOfFuel.

Arguments Ok {A} a.
Arguments Raise {A} e.
Arguments OutOfFuel {A}.

Definition obind {A B} (m : outcome A) (k : A -> outcome B) : outcome B :=
  match m with
  | Ok a => k a
  | Raise e => Raise e
  | OutOfFuel => OutOfFuel
  end.

Notation "x <~ m ; k" := (obind m (fun x => k))
  (at level 20, m at level 100, k at level 200, only parsing).

(** ** Numpy indexing *)

(** [a[i]] for a one-dimensional array of length [length a]. *)
Definition py_index {A} (a : list A) (i : Z) : option nat :=
  if (0 <=? i) && (i <? Z.of_nat (length a)) then Some (Z.to_nat i)
  else if (- Z.of_nat (length a) <=? i) && (i <? 0)
       then Some (Z.to_nat (i + Z.of_nat (length a)))
       else None.

Definition py_get {A} (a : list A) (i : Z) : outcome A :=
  match py_index a i with
  | Some n => match a !! n with Some x => Ok x | None => Raise IndexError end
  | None => Raise IndexError
  end.

Definition py_get2 {A} (a : list (list A)) (i j : Z) : outcome A :=
  row <~ py_get a i ; py_get row j.

(** [a[i] = x] *)
Definition py_set {A} (a : list A) (i : Z) (x : A) : outcome (list A) :=
  match py_index a i with
  | Some n => Ok (<[n := x]> a)
  | None => Raise IndexError
  end.

(** [a[i][j] = x] *)
Definition py_set2 {A} (a : list (list A)) (i j : Z) (x : A)
  : outcome (list (list A)) :=
  match py_index a i with
  | Some n =>
      match a !! n with
      | Some row =>
          match py_index row j with
          | Some m => Ok (<[n := <[m := x]> row]> a)
          | None => Raise IndexError
          end
      | None => Raise IndexError
      end
  | None => Raise IndexError
  end.

Definition py_get3 {A} (a : list (list (list A))) (i j k : Z) : outcome A :=
  row <~ py_get a i ; cell <~ py_get row j ; py_get cell k.

(** A board is indexed [board[row][col][frame]]. *)
Definition board3 : Type := list (list (list Z)).

(** [board[:,:,k]] *)
Definition frame (k : nat) (board : board3) : outcome (list (list Z)) :=
  match mapM (mapM (fun cell : list Z => cell !! k)) board with
  | Some b => Ok b
  | None => Raise IndexError
  end.

(** The cell codes supplied by the caller: the dictionary [values] with its
    keys ['board'], ['snake'], ['food'] and ['head']. *)
Record values : Type := {
  v_board : Z;
  v_snake : Z;
  v_food : Z;
  v_head : Z
}.

Fixpoint py_sum (l : list Z) : Z :=
  match l with
  | [] => 0
  | x :: l' => x + py_sum l'
  end.

(** The array [a] has shape [(n, m)]. *)
Definition has_shape {A} (a : list (list A)) (n m : nat) : bool :=
  (length a =? n)%nat && forallb (fun row => (length row =? m)%nat) a.

(** ** Agent *)

Module Agent.

(** [np.arange(0, board_size**2).reshape(board_size, -1)] *)
Definition _board_grid (board_size : Z) : list (list Z) :=
  (fun r => (fun c => r * board_size + c) <$> seqZ 0 board_size)
    <$> seqZ 0 board_size.

(** [point // board_size] and [point % board_size]; the board size is
    not 0 wherever an agent exists (see [__init__] below). *)
Definition _point_to_row_col (board_size point : Z) : Z * Z :=
  (point / board_size, point mod board_size).

Definition _row_col_to_point (board_size row col : Z) : Z :=
  row * board_size + col.

(** [(self._board_grid * (board == v)).sum()] for a two-dimensional
    [board]; the product is taken element by element on arrays of the
    shape of the grid (numpy raises on other shapes, the broadcast of
    degenerate shapes apart, which the model leaves out). *)
Definition grid_where (board_size : Z) (board : list (list Z)) (v : Z)
  : outcome Z :=
  if has_shape board (Z.to_nat board_size) (Z.to_nat board_size) then
    Ok (py_sum
          (zip_with
             (fun grow brow =>
                py_sum
                  (zip_with (fun g x => if x =? v then g else 0) grow brow))
             (_board_grid board_size) board))
  else Raise ValueError.

End Agent.

(** ** HamiltonianCycleAgent *)

Module HamiltonianCycleAgent.

Record t : Type := {
  _board_size : Z;
  _n_actions : Z;
  _cycle : list Z
}.

(** One pass through the body of the [while] loop of
    [_get_cycle_square]: the new value of [sp]. *)
Definition cycle_step (bs : Z) (index : nat) (sp : Z) : Z :=
  if (index =? 0)%nat then sp
  else if (sp / bs =? 2) && (sp mod bs =? bs - 2) then
    (sp / bs - 1) * bs + sp mod bs
  else if negb (index =? 1)%nat && (sp / bs =? 1) then
    (sp / bs) * bs + (sp mod bs - 1)
  else if (sp mod bs) mod 2 =? 1 then
    let sp1 := (sp / bs + 1) * bs + sp mod bs in
    if sp1 / bs =? bs - 1
    then (sp1 / bs - 1) * bs + (sp1 mod bs + 1)
    else sp1
  else
    let sp1 := (sp / bs - 1) * bs + sp mod bs in
    if sp1 / bs =? 1
    then (sp1 / bs + 1) * bs + (sp1 mod bs + 1)
    else sp1.

(** The [while(index < self._cycle.shape[0])] loop; every pass stores
    [sp] at [index] and increments [index], so a fuel of the length of
    the array is never used up before the loop ends. *)
Fixpoint cycle_while (fuel : nat) (bs : Z) (cycle : list Z)
    (index : nat) (sp : Z) : list Z :=
  match fuel with
  | O => cycle
  | S fuel' =>
      if (index <? length cycle)%nat then
        let sp' := cycle_step bs index sp in
        cycle_while fuel' bs (<[index := sp']> cycle) (S index) sp'
      else cycle
  end.

Definition _get_cycle_square (bs : Z) : list Z :=
  let n := Z.to_nat ((bs - 2) ^ 2) in
  cycle_while n bs (replicate n 0) 0%nat (1 * bs + 1).

(** [__init__]: the assertion, then [Agent.__init__] (whose
    [reshape(board_size, -1)] of the grid raises for a size that is not
    positive; the replay buffer it creates is an external collaborator),
    then the construction of the cycle. *)
Definition __init__ (board_size n_actions : Z) : outcome t :=
  if negb (board_size mod 2 =? 0) then Raise AssertionError
  else if board_size <=? 0 then Raise ValueError
  else Ok {| _board_size := board_size;
             _n_actions := n_actions;
             _cycle := _get_cycle_square board_size |}.

(** The [while(1)] search for the position of the head in the cycle. *)
Fixpoint find_index (fuel : nat) (cycle : list Z) (cy_len curr_head index : Z)
  : outcome Z :=
  match fuel with
  | O => OutOfFuel
  | S fuel' =>
      c <~ py_get cycle index;
      if c =? curr_head then Ok index
      else find_index fuel' cycle cy_len curr_head ((index + 1) mod cy_len)
  end.

(** The chain of comparisons on [(dx, dy)] at the end of [move]. *)
Definition direction_action (dx dy : Z) : Z :=
  if (dx =? 1) && (dy =? 0) then 0
  else if (dx =? 0) && (dy =? 1) then 1
  else if (dx =? -1) && (dy =? 0) then 2
  else if (dx =? 0) && (dy =? -1) then 3
  else -1.

Definition move (fuel : nat) (self : t) (board : board3)
    (legal_moves : list Z) (vals : values) : outcome Z :=
  let bs := _board_size self in
  let cy_len := (bs - 2) ^ 2 in
  b0 <~ frame 0 board;
  curr_head <~ Agent.grid_where bs b0 (v_head vals);
  index <~ find_index fuel (_cycle self) cy_len curr_head 0;
  prev_head <~ py_get (_cycle self) ((index - 1) mod cy_len);
  next_head <~ py_get (_cycle self) ((index + 1) mod cy_len);
  cell <~ py_get3 board (prev_head / bs) (prev_head mod bs) 0;
  if cell =? 0 then
    if next_head >? curr_head then Ok 3 else Ok 1
  else
    let '(curr_head_row, curr_head_col) := Agent._point_to_row_col bs curr_head in
    let '(next_head_row, next_head_col) := Agent._point_to_row_col bs next_head in
    let dx := next_head_col - curr_head_col in
    let dy := - next_head_row + curr_head_row in
    Ok (direction_action dx dy).

(** The [for] loop of [_get_neighbors] over the four steps: a cell is kept
    when it is off the border. *)
Fixpoint neighbors_loop (bs row col : Z) (deltas : list (Z * Z))
    (neighbors : list Z) : list Z :=
  match deltas with
  | [] => neighbors
  | (delta_row, delta_col) :: deltas' =>
      let new_row := row + delta_row in
      let new_col := col + delta_col in
      if (1 <=? new_row) && (new_row <=? bs - 2)
         && (1 <=? new_col) && (new_col <=? bs - 2)
      then neighbors_loop bs row col deltas'
             (neighbors ++ [new_row * bs + new_col])
      else neighbors_loop bs row col deltas' neighbors
  end.

Definition _get_neighbors (bs point : Z) : list Z :=
  let row := point / bs in
  let col := point mod bs in
  neighbors_loop bs row col [(-1, 0); (1, 0); (0, 1); (0, -1)] [].

(** The attributes on which [_get_cycle] and [_hamil_util] work:
    [_start_point], [_cycle], [_index] and [_cycle_set]. *)
Record cycle_search : Type := {
  cs_start_point : Z;
  cs_cycle : list Z;
  cs_index : Z;
  cs_cycle_set : gset Z
}.

(** What a call of [_hamil_util] does: it returns its result and leaves the
    attributes in a state; or it raises, on an index out of the array
    ([IndexError]) or on the [remove] of an element that is not in the set
    ([KeyError]); or the recursion is deeper than the fuel, which stands
    for the recursion limit of the interpreter ([RecursionError]). *)
Inductive hamil_outcome : Type :=
| Returns (ret : bool) (st : cycle_search)
| RaisesIndexError
| RaisesKeyError
| TooDeep.

(** The [for i in neighbors] loop of [_hamil_util]; [rec] is the
    recursive call. *)
Fixpoint hamil_loop (rec : cycle_search -> hamil_outcome)
    (neighbors : list Z) (st : cycle_search) : hamil_outcome :=
  match neighbors with
  | [] => Returns false st
  | i :: neighbors' =>
      if bool_decide (i ∈ cs_cycle_set st) then hamil_loop rec neighbors' st
      else
        let index := cs_index st + 1 in
        match py_set (cs_cycle st) index i with
        | Ok cycle =>
            match rec {| cs_start_point := cs_start_point st;
                         cs_cycle := cycle;
                         cs_index := index;
                         cs_cycle_set := cs_cycle_set st ∪ {[ i ]} |} with
            | Returns true st' => Returns true st'
            | Returns false st' =>
                match py_get (cs_cycle st') (cs_index st') with
                | Ok last =>
                    if bool_decide (last ∈ cs_cycle_set st') then
                      hamil_loop rec neighbors'
                        {| cs_start_point := cs_start_point st';
                           cs_cycle := cs_cycle st';
                           cs_index := cs_index st' - 1;
                           cs_cycle_set := cs_cycle_set st' ∖ {[ last ]} |}
                    else RaisesKeyError
                | _ => RaisesIndexError
                end
            | raised => raised
            end
        | _ => RaisesIndexError
        end
  end.

(** [_hamil_util]; a recursive call works at the next index, so a fuel of
    the length of the array is never used up. *)
Fixpoint _hamil_util (fuel : nat) (bs : Z) (st : cycle_search)
  : hamil_outcome :=
  match fuel with
  | O => TooDeep
  | S fuel' =>
      match py_get (cs_cycle st) (cs_index st) with
      | Ok point =>
          let neighbors := _get_neighbors bs point in
          if cs_index st =? (bs - 2) ^ 2 - 1 then
            Returns (bool_decide (cs_start_point st ∈ neighbors)) st
          else hamil_loop (_hamil_util fuel' bs) neighbors st
      | _ => RaisesIndexError
      end
  end.

(** [_get_cycle]: the result of [_hamil_util] (the local [cycle_possible])
    and the attributes it leaves. *)
Definition _get_cycle (fuel : nat) (bs : Z) : hamil_outcome :=
  let start_point := 1 * bs + 1 in
  match py_set (replicate (Z.to_nat ((bs - 2) ^ 2)) 0) 0 start_point with
  | Ok cycle =>
      _hamil_util fuel bs {| cs_start_point := start_point;
                             cs_cycle := cycle;
                             cs_index := 0;
                             cs_cycle_set := {[ start_point ]} |}
  | _ => RaisesIndexError
  end.

End HamiltonianCycleAgent.

(** ** DeepQLearningAgent *)

(** A float: a number, an infinity or NaN. *)
Inductive ext (A : Type) : Type :=
| NegInf
| Fin (x : A)
| PosInf
| NaN.

Arguments NegInf {A}.
Arguments Fin {A} x.
Arguments PosInf {A}.
Arguments NaN {A}.

(** The test [not (y <= x)] of the scan of [np.argmax], by which [y] takes
    the place of the best value [x]; the scan stops at the first NaN, so
    nothing takes the place of a NaN. *)
Definition ext_ltb (x y : ext Q) : bool :=
  match x, y with
  | NaN, _ => false
  | _, NaN => true
  | _, NegInf => false
  | NegInf, _ => true
  | PosInf, _ => false
  | _, PosInf => true
  | Fin a, Fin b => negb (Qle_bool b a)
  end.

(** The scan of [np.argmax] over a row: the first index of a NaN, or of
    the greatest value when the row has no NaN. *)
Fixpoint argmax_from (best : ext Q) (best_i i : nat) (l : list (ext Q))
  : nat :=
  match l with
  | [] => best_i
  | x :: l' =>
      if ext_ltb best x then argmax_from x i (S i) l'
      else argmax_from best best_i (S i) l'
  end.

(** [np.argmax] of one row; numpy raises on an empty row. *)
Definition np_argmax (l : list (ext Q)) : outcome Z :=
  match l with
  | [] => Raise ValueError
  | x :: l' => Ok (Z.of_nat (argmax_from x 0 1 l'))
  end.

(** [np.max] of one row; numpy raises on an empty row. *)
Definition np_max (l : list Q) : outcome Q :=
  match l with
  | [] => Raise ValueError
  | x :: l' => Ok (fold_left Qmax l' x)
  end.

(** [np.sign] *)
Definition np_sign (x : Q) : Q :=
  match Qcompare x 0 with
  | Lt => (-1)%Q
  | Eq => 0%Q
  | Gt => 1%Q
  end.

(** [np.clip(x, lo, hi)] *)
Definition np_clip (x lo hi : R) : R := Rmin (Rmax x lo) hi.

(** The sum of a row of reals. *)
Fixpoint Rsum (l : list R) : R :=
  match l with
  | [] => 0%R
  | x :: l' => (x + Rsum l')%R
  end.

(** [row.max()]; numpy raises on an empty row. *)
Definition Rrow_max (l : list R) : outcome R :=
  match l with
  | [] => Raise ValueError
  | x :: l' => Ok (fold_left Rmax l' x)
  end.

(** The arithmetic of floats on the special values; a division by zero
    gives an infinity of the sign of the dividend, or NaN for [0 / 0]. *)
Definition ext_clip (x : ext Q) (lo hi : R) : ext R :=
  match x with
  | NaN => NaN
  | NegInf => Fin lo
  | PosInf => Fin hi
  | Fin q => Fin (np_clip (Q2R q) lo hi)
  end.

Definition ext_max (x y : ext R) : ext R :=
  match x, y with
  | NaN, _ | _, NaN => NaN
  | PosInf, _ | _, PosInf => PosInf
  | NegInf, z | z, NegInf => z
  | Fin a, Fin b => Fin (Rmax a b)
  end.

Definition ext_minus (x y : ext R) : ext R :=
  match x, y with
  | NaN, _ | _, NaN => NaN
  | PosInf, PosInf | NegInf, NegInf => NaN
  | PosInf, _ | _, NegInf => PosInf
  | NegInf, _ | _, PosInf => NegInf
  | Fin a, Fin b => Fin (a - b)%R
  end.

Definition ext_plus (x y : ext R) : ext R :=
  match x, y with
  | NaN, _ | _, NaN => NaN
  | PosInf, NegInf | NegInf, PosInf => NaN
  | PosInf, _ | _, PosInf => PosInf
  | NegInf, _ | _, NegInf => NegInf
  | Fin a, Fin b => Fin (a + b)%R
  end.

Definition ext_exp (x : ext R) : ext R :=
  match x with
  | NaN => NaN
  | NegInf => Fin 0%R
  | PosInf => PosInf
  | Fin a => Fin (exp a)
  end.

Definition ext_div (x y : ext R) : ext R :=
  match x, y with
  | NaN, _ | _, NaN => NaN
  | Fin a, Fin b =>
      if Req_dec_T b 0%R then
        if Req_dec_T a 0%R then NaN
        else if Rlt_dec 0%R a then PosInf else NegInf
      else Fin (a / b)%R
  | Fin _, _ => Fin 0%R
  | PosInf, Fin b => if Rlt_dec b 0%R then NegInf else PosInf
  | NegInf, Fin b => if Rlt_dec b 0%R then PosInf else NegInf
  | _, _ => NaN
  end.

(** The sum of a row of floats. *)
Fixpoint ext_sum (l : list (ext R)) : ext R :=
  match l with
  | [] => Fin 0%R
  | x :: l' => ext_plus x (ext_sum l')
  end.

(** [row.max()] of a row of floats: NaN when the row has a NaN. *)
Definition ext_row_max (l : list (ext R)) : outcome (ext R) :=
  match l with
  | [] => Raise ValueError
  | x :: l' => Ok (fold_left ext_max l' x)
  end.

(** The outcome of a loop body run on every element of a list. *)
Fixpoint omapM {A B} (f : A -> outcome B) (l : list A) : outcome (list B) :=
  match l with
  | [] => Ok []
  | x :: l' => y <~ f x; ys <~ omapM f l'; Ok (y :: ys)
  end.

(** One sampled transition: a row of each of the arrays that
    [self._buffer.sample] returns. *)
Record transition : Type := {
  tr_s : board3;
  tr_a : list Z;
  tr_r : Q;
  tr_next_s : board3;
  tr_done : Z;
  tr_legal_moves : list Z
}.

Module DeepQLearningAgent.

Section Network.

Variable network : Type.

Record t : Type := {
  _model : network;
  _target_net : network;
  _use_target_net : bool;
  _gamma : Q;
  _n_actions : Z
}.

Section Outputs.

(** The network is an external collaborator: [forward model board] is the
    row of [_get_model_outputs] for one board of the batch (input
    preparation, normalisation and the forward pass in evaluation mode),
    a row of floats. *)
Variable forward : network -> board3 -> list (ext Q).

Definition _get_model_outputs (board : list board3) (model : network)
  : list (list (ext Q)) :=
  map (forward model) board.

(** [np.where(legal_moves == 1, model_outputs, -np.inf)] on one row. *)
Definition where_legal_inf (legal_moves : list Z)
    (model_outputs : list (ext Q)) : list (ext Q) :=
  zip_with (fun m x => if m =? 1 then x else NegInf)
           legal_moves model_outputs.

(** The two arrays of [np.where] have the same shape (numpy raises
    otherwise, broadcasting of degenerate shapes apart). *)
Definition same_shape {A B} (a : list (list A)) (b : list (list B)) : bool :=
  (length a =? length b)%nat
  && forallb (fun p => (length (fst p) =? length (snd p))%nat) (zip a b).

Definition move (self : t) (board : list board3) (legal_moves : list (list Z))
  : outcome (list Z) :=
  let model_outputs := _get_model_outputs board (_model self) in
  if same_shape legal_moves model_outputs then
    omapM (fun p => np_argmax (where_legal_inf (fst p) (snd p)))
          (zip legal_moves model_outputs)
  else Raise ValueError.

(** [get_action_proba] on the outputs of one board. *)
Definition action_proba_row (model_outputs : list (ext Q))
  : outcome (list (ext R)) :=
  let model_outputs :=
    map (fun x => ext_clip x (-10) 10) model_outputs in
  m <~ ext_row_max model_outputs;
  let model_outputs := map (fun x => ext_minus x m) model_outputs in
  let exp_outputs := map ext_exp model_outputs in
  Ok (map (fun e => ext_div e (ext_sum exp_outputs)) exp_outputs).

Definition get_action_proba (self : t) (board : list board3)
  : outcome (list (list (ext R))) :=
  omapM action_proba_row (_get_model_outputs board (_model self)).

End Outputs.

Section Targets.

(** In [train_agent] the outputs enter sums and products: here
    [forward model board] is the row of outputs as numbers. *)
Variable forward : network -> board3 -> list Q.

(** [np.where(legal_moves == 1, next_model_outputs, -10000)] on one row. *)
Definition where_legal_sentinel (legal_moves : list Z)
    (next_model_outputs : list Q) : list Q :=
  zip_with (fun m x => if m =? 1 then x else (-10000)%Q)
           legal_moves next_model_outputs.

(** The discounted reward of one transition in [train_agent]. *)
Definition discounted_reward (self : t) (reward_clip : bool) (tr : transition)
  : outcome Q :=
  let r := if reward_clip then np_sign (tr_r tr) else tr_r tr in
  let current_model :=
    if _use_target_net self then _target_net self else _model self in
  let next_model_outputs := forward current_model (tr_next_s tr) in
  if (length (tr_legal_moves tr) =? length next_model_outputs)%nat then
    m <~ np_max (where_legal_sentinel (tr_legal_moves tr) next_model_outputs);
    Ok (r + (_gamma self * m) * (1 - inject_Z (tr_done tr)))%Q
  else Raise ValueError.

(** [(1-a)*target + a*discounted_reward] on one row. *)
Definition blend (a : list Z) (target : list Q) (discounted_reward : Q)
  : list Q :=
  zip_with
    (fun a_j t_j =>
       ((1 - inject_Z a_j) * t_j + inject_Z a_j * discounted_reward)%Q)
    a target.

(** The regression target of one transition. *)
Definition target_row (self : t) (reward_clip : bool) (tr : transition)
  : outcome (list Q) :=
  dr <~ discounted_reward self reward_clip tr;
  let target := forward (_model self) (tr_s tr) in
  if (length (tr_a tr) =? length target)%nat then
    Ok (blend (tr_a tr) target dr)
  else Raise ValueError.

(** [train_agent] up to the regression target; the loss and the optimizer
    step that follow belong to the tensor engine. *)
Definition train_agent_target (self : t) (batch : list transition)
    (reward_clip : bool) : outcome (list (list Q)) :=
  omapM (target_row self reward_clip) batch.

End Targets.

End Network.

End DeepQLearningAgent.

(** ** PolicyGradientAgent *)

(** [torch.nn.functional.log_softmax] and [softmax] along one row. *)
Definition log_softmax (logits : list R) : list R :=
  (fun x => (x - ln (Rsum (exp <$> logits)))%R) <$> logits.

Definition softmax (logits : list R) : list R :=
  (fun x => (exp x / Rsum (exp <$> logits))%R) <$> logits.

(** [.mean()] of a one-dimensional tensor. *)
Definition Rmean (l : list R) : R := (Rsum l / INR (length l))%R.

(** [.std()] of a one-dimensional tensor (with Bessel's correction). *)
Definition Rstd (l : list R) : R :=
  sqrt (Rsum ((fun x => Rsqr (x - Rmean l)) <$> l) / (INR (length l) - 1)).

Module PolicyGradientAgent.

Section Collaborators.

(** External collaborators: the network ([logits_of model state] is the
    row of [self._model(states)] for one state), the replay buffer (of
    whose sample [train_agent] keeps the states, the actions and the
    rewards) and the optimizer ([optimizer_step objective model] is the
    model after [zero_grad], [backward] on the objective and [step]). *)
Variable network : Type.
Variable logits_of : network -> board3 -> list R.
Variable buffer : Type.
Variable sample : buffer -> Z -> list board3 * list Z * list R.
Variable get_current_size : buffer -> Z.
Variable optimizer_step : (network -> outcome R) -> network -> network.

Record t : Type := {
  _model : network;
  _buffer : buffer
}.

(** [log_probs.gather(1, actions.unsqueeze(1)).squeeze(1)]: on every row
    the entry at the index of the action. *)
Definition gather (log_probs : list R) (action : Z) : outcome R :=
  if action <? 0 then Raise RuntimeError
  else match log_probs !! Z.to_nat action with
       | Some x => Ok x
       | None => Raise RuntimeError
       end.

Definition selected_log_probs_of (log_probs : list (list R))
    (actions : list Z) : outcome (list R) :=
  omapM (fun p => gather (fst p) (snd p)) (zip log_probs actions).

(** [(rewards - rewards.mean()) / (rewards.std() + 1e-8)] *)
Definition normalize (rewards : list R) : list R :=
  (fun x => ((x - Rmean rewards) / (Rstd rewards + / 100000000))%R)
    <$> rewards.

(** The loss of [train_agent] as a function of the model. *)
Definition loss_of (beta : R) (normalize_rewards : bool)
    (states : list board3) (actions : list Z) (rewards : list R)
    (model : network) : outcome R :=
  let rewards := if normalize_rewards then normalize rewards else rewards in
  let logits := logits_of model <$> states in
  let log_probs := log_softmax <$> logits in
  if negb ((length actions =? length states)%nat
           && (length rewards =? length states)%nat)
  then Raise RuntimeError
  else
    selected_log_probs <~ selected_log_probs_of log_probs actions;
    let loss := (- Rmean (zip_with Rmult selected_log_probs rewards))%R in
    if Rlt_dec 0 beta then
      let probs := softmax <$> logits in
      let entropy :=
        (- Rmean (zip_with (fun p lp => Rsum (zip_with Rmult p lp))
                           probs log_probs))%R in
      Ok (loss - beta * entropy)%R
    else Ok loss.

Definition train_agent (self : t) (batch_size : Z) (beta : R)
    (normalize_rewards : bool) : outcome (t * R) :=
  let '(states, actions, rewards) :=
    sample (_buffer self) (get_current_size (_buffer self)) in
  let objective := loss_of beta normalize_rewards states actions rewards in
  loss <~ objective (_model self);
  Ok ({| _model := optimizer_step objective (_model self);
         _buffer := _buffer self |}, loss).

End Collaborators.

End PolicyGradientAgent.

(** ** BreadthFirstSearchAgent *)

(** An entry of the array [distances]: [np.inf] or a number of steps. *)
Inductive distance : Type :=
| Inf
| Steps (d : Z).

(** [1 + d] *)
Definition distance_succ (d : distance) : distance :=
  match d with
  | Inf => Inf
  | Steps x => Steps (1 + x)
  end.

(** [d > e] *)
Definition distance_gtb (d e : distance) : bool :=
  match d, e with
  | Inf, Inf => false
  | Inf, Steps _ => true
  | Steps _, Inf => false
  | Steps x, Steps y => x >? y
  end.

(** The argument [board] of [move]: one board, or a batch of boards. *)
Inductive board_arg : Type :=
| Single (board : board3)
| Batch (boards : list board3).

Module BreadthFirstSearchAgent.

Record t : Type := {
  _board_size : Z;
  _n_actions : Z
}.

(** The [for] loop of [_get_neighbors] over the four steps. *)
Fixpoint neighbors_loop (bs row col : Z) (vals : values)
    (board : list (list Z)) (deltas : list (Z * Z)) (neighbors : list Z)
  : outcome (list Z) :=
  match deltas with
  | [] => Ok neighbors
  | (delta_row, delta_col) :: deltas' =>
      let new_row := row + delta_row in
      let new_col := col + delta_col in
      cell <~ py_get2 board new_row new_col;
      if (cell =? v_board vals) || (cell =? v_food vals)
         || (cell =? v_head vals)
      then neighbors_loop bs row col vals board deltas'
             (neighbors ++ [new_row * bs + new_col])
      else neighbors_loop bs row col vals board deltas' neighbors
  end.

Definition _get_neighbors (bs point : Z) (vals : values)
    (board : list (list Z)) : outcome (list Z) :=
  let '(row, col) := Agent._point_to_row_col bs point in
  neighbors_loop bs row col vals board [(-1, 0); (1, 0); (0, 1); (0, -1)] [].

(** The state of the search: the queue, the two arrays and the flag. *)
Record search_state : Type := {
  points_to_search : list Z;
  distances : list (list distance);
  visited : list (list Z);
  found : bool
}.

(** The [for p in n] loop of the search; it stops at the food. *)
Fixpoint visit_neighbors (bs : Z) (vals : values) (board : list (list Z))
    (curr_row curr_col : Z) (n : list Z) (st : search_state)
  : outcome search_state :=
  match n with
  | [] => Ok st
  | p :: n' =>
      let '(row, col) := Agent._point_to_row_col bs p in
      d <~ py_get2 (distances st) row col;
      d_curr <~ py_get2 (distances st) curr_row curr_col;
      dist <~ (if distance_gtb d (distance_succ d_curr)
               then py_set2 (distances st) row col (distance_succ d_curr)
               else Ok (distances st));
      cell <~ py_get2 board row col;
      if cell =? v_food vals then
        Ok {| points_to_search := points_to_search st;
              distances := dist;
              visited := visited st;
              found := true |}
      else
        v <~ py_get2 (visited st) row col;
        if v =? 0 then
          vis <~ py_set2 (visited st) curr_row curr_col 1;
          visit_neighbors bs vals board curr_row curr_col n'
            {| points_to_search := points_to_search st ++ [p];
               distances := dist;
               visited := vis;
               found := false |}
        else
          visit_neighbors bs vals board curr_row curr_col n'
            {| points_to_search := points_to_search st;
               distances := dist;
               visited := visited st;
               found := false |}
  end.

(** The [while(not found)] loop.  It returns the flag and the distances:
    the flag is false when the queue was found empty. *)
Fixpoint search (fuel : nat) (bs : Z) (vals : values) (board : list (list Z))
    (st : search_state) : outcome (bool * list (list distance)) :=
  match fuel with
  | O => OutOfFuel
  | S fuel' =>
      match points_to_search st with
      | [] => Ok (false, distances st)
      | curr_point :: queue =>
          let '(curr_row, curr_col) := Agent._point_to_row_col bs curr_point in
          let st := {| points_to_search := queue;
                       distances := distances st;
                       visited := visited st;
                       found := false |} in
          n <~ _get_neighbors bs curr_point vals board;
          match n with
          | [] => search fuel' bs vals board st
          | _ =>
              st' <~ visit_neighbors bs vals board curr_row curr_col n st;
              if found st' then Ok (true, distances st')
              else search fuel' bs vals board st'
          end
      end
  end.

(** The [for p in n] loop of the reconstruction: the first neighbour one
    step closer to the head. *)
Fixpoint closer_neighbor (bs : Z) (dist : list (list distance)) (d_curr : Z)
    (n : list Z) : outcome (option Z) :=
  match n with
  | [] => Ok None
  | p :: n' =>
      let '(row, col) := Agent._point_to_row_col bs p in
      d <~ py_get2 dist row col;
      match d with
      | Steps x =>
          if x =? d_curr - 1 then Ok (Some p)
          else closer_neighbor bs dist d_curr n'
      | Inf => closer_neighbor bs dist d_curr n'
      end
  end.

(** The [while(1)] loop that walks back from the food. *)
Fixpoint reconstruct (fuel : nat) (bs : Z) (vals : values)
    (board : list (list Z)) (dist : list (list distance))
    (curr_point : Z) (path : list Z) : outcome (list Z) :=
  match fuel with
  | O => OutOfFuel
  | S fuel' =>
      let '(curr_row, curr_col) := Agent._point_to_row_col bs curr_point in
      d <~ py_get2 dist curr_row curr_col;
      match d with
      | Inf => Ok []
      | Steps x =>
          if x =? 0 then Ok path
          else
            n <~ _get_neighbors bs curr_point vals board;
            next <~ closer_neighbor bs dist x n;
            match next with
            | Some p => reconstruct fuel' bs vals board dist p (path ++ [p])
            | None => reconstruct fuel' bs vals board dist curr_point path
            end
      end
  end.

(** The state in which the search starts. *)
Definition initial_state (bs head : Z) : outcome search_state :=
  let '(row, col) := Agent._point_to_row_col bs head in
  let n := Z.to_nat bs in
  dist <~ py_set2 (replicate n (replicate n Inf)) row col (Steps 0);
  vis <~ py_set2 (replicate n (replicate n 0)) row col 1;
  Ok {| points_to_search := [head];
        distances := dist;
        visited := vis;
        found := false |}.

(** The first half of [_get_shortest_path]: the search from the head.  It
    returns the flag [found] and the array of distances. *)
Definition search_food (fuel : nat) (self : t) (board : list (list Z))
    (vals : values) : outcome (bool * list (list distance)) :=
  let bs := _board_size self in
  head <~ Agent.grid_where bs board (v_head vals);
  st <~ initial_state bs head;
  search fuel bs vals board st.

Definition _get_shortest_path (fuel : nat) (self : t) (board : board3)
    (vals : values) : outcome (list Z) :=
  let bs := _board_size self in
  board <~ frame 0 board;
  result <~ search_food fuel self board vals;
  curr_point <~ Agent.grid_where bs board (v_food vals);
  reconstruct fuel bs vals board (snd result) curr_point [curr_point].

(** [path[-2]] *)
Definition second_to_last (path : list Z) : outcome Z := py_get path (-2).

(** The chain of comparisons on [(dx, dy)] at the end of [move]; a vector
    that matches none of them gives 0. *)
Definition direction_action (dx dy : Z) : Z :=
  if (dx =? 1) && (dy =? 0) then 0
  else if (dx =? 0) && (dy =? 1) then 1
  else if (dx =? -1) && (dy =? 0) then 2
  else if (dx =? 0) && (dy =? -1) then 3
  else 0.

(** The body of the loop of [move] for one board of the batch.  The
    previous head is computed from the frame 1 and not used. *)
Definition move_one (fuel : nat) (self : t) (board : board3) (vals : values)
  : outcome Z :=
  let bs := _board_size self in
  path <~ _get_shortest_path fuel self board vals;
  match path with
  | [] => Ok 1
  | _ =>
      next_head <~ second_to_last path;
      b0 <~ frame 0 board;
      curr_head <~ Agent.grid_where bs b0 (v_head vals);
      b1 <~ frame 1 board;
      let '(curr_head_row, curr_head_col) :=
        Agent._point_to_row_col bs curr_head in
      let '(next_head_row, next_head_col) :=
        Agent._point_to_row_col bs next_head in
      let dx := next_head_col - curr_head_col in
      let dy := - next_head_row + curr_head_row in
      Ok (direction_action dx dy)
  end.

Definition move (fuel : nat) (self : t) (board : board_arg)
    (legal_moves : list (list Z)) (vals : values) : outcome (list Z) :=
  let boards :=
    match board with
    | Single b => [b]
    | Batch bs => bs
    end in
  omapM (fun b => move_one fuel self b vals) boards.

End BreadthFirstSearchAgent.

(** * Notions of the specification *)

(** ** Cells of a board *)

(** The cell of a two-dimensional array at a row and a column. *)
Definition cell2 {A} (b : list (list A)) (r c : nat) : option A :=
  row ← b !! r; row !! c.

(** The code [v] is on the array at [(row, col)] and nowhere else. *)
Definition only_at (b : list (list Z)) (v : Z) (row col : nat) : Prop :=
  cell2 b row col = Some v /\
  forall r c, cell2 b r c = Some v -> r = row /\ c = col.

(** [only_at], decided by a scan of the array. *)
Definition only_atb (b : list (list Z)) (v : Z) (row col : nat) : bool :=
  match cell2 b row col with
  | Some x => x =? v
  | None => false
  end
  && forallb
       (fun r =>
          forallb
            (fun c =>
               match cell2 b r c with
               | Some x =>
                   negb (x =? v) || ((r =? row)%nat && (c =? col)%nat)
               | None => true
               end)
            (seq 0 (length (default [] (b !! r)))))
       (seq 0 (length b)).

(** ** The cycle *)

Section CycleNotions.

Variable bs : Z.

(** Row and column of a flat index, and the cells off the border. *)
Definition row_of (p : Z) : Z := p / bs.
Definition col_of (p : Z) : Z := p mod bs.

Definition interior (p : Z) : Prop :=
  1 <= row_of p <= bs - 2 /\ 1 <= col_of p <= bs - 2.

Definition manhattan (p q : Z) : Z :=
  Z.abs (row_of p - row_of q) + Z.abs (col_of p - col_of q).

(** The position at which the sweep reaches a cell: column 1 downwards,
    then the columns 2 to [bs - 2] between the rows 2 and [bs - 2]
    (odd columns downwards, even columns upwards), then row 1 leftwards. *)
Definition rank (p : Z) : Z :=
  let r := row_of p in
  let c := col_of p in
  if c =? 1 then r - 1
  else if r =? 1 then (bs - 2) * (bs - 2) - (c - 1)
  else (bs - 2) + (c - 2) * (bs - 3)
       + (if c mod 2 =? 1 then r - 2 else bs - 2 - r).

(** The sequence of cells the loop stores, one per pass. *)
Fixpoint sweep (n index : nat) (sp : Z) : list Z :=
  match n with
  | O => []
  | S n' =>
      let sp' := HamiltonianCycleAgent.cycle_step bs index sp in
      sp' :: sweep n' (S index) sp'
  end.

(** [swept i p l]: the cells of [l] are interior, reached at the
    positions [i], [i + 1], ..., each one step away from the cell
    before it, the first one from [p]. *)
Fixpoint swept (i : nat) (p : Z) (l : list Z) : Prop :=
  match l with
  | [] => True
  | q :: l' =>
      interior q /\ rank q = Z.of_nat i /\ manhattan p q = 1
      /\ swept (S i) q l'
  end.

(** The cell at which the sweep starts. *)
Definition start_point : Z := 1 * bs + 1.

(** The interior cells, row by row. *)
Definition interior_cells : list Z :=
  mjoin ((fun r => (fun c => r * bs + c) <$> seqZ 1 (bs - 2))
           <$> seqZ 1 (bs - 2)).

End CycleNotions.

(** ** Values and losses *)

(** [ext_le x y]: [x] is not above [y]. *)
Definition ext_le (x y : ext Q) : Prop := ext_ltb y x = false.

(** The number that the clipping to [-10, 10] gives for an output that is
    not NaN. *)
Definition clipped (x : ext Q) : R :=
  match x with
  | Fin q => np_clip (Q2R q) (-10) 10
  | PosInf => 10
  | NegInf => -10
  | NaN => 0
  end.

(** The probabilities that [action_proba_row] computes from a row of
    outputs without a NaN, the greatest clipped output being [m]. *)
Definition softmax_clipped (m : R) (model_outputs : list (ext Q)) : list R :=
  map (fun x =>
         (exp (clipped x - m)
          / Rsum (map (fun x' => exp (clipped x' - m)) model_outputs))%R)
      model_outputs.

Section TransitionShape.

Variable network : Type.
Variable forward : network -> board3 -> list Q.

(** The columns of a transition have the lengths the arithmetic of
    [train_agent] needs: an action and a legality entry for every output
    of the network, and at least one action. *)
Definition well_shaped (self : DeepQLearningAgent.t network) (tr : transition) : Prop :=
  length (tr_a tr) = length (forward (DeepQLearningAgent._model network self) (tr_s tr))
  /\ length (tr_legal_moves tr)
     = length (forward (if DeepQLearningAgent._use_target_net network self
                        then DeepQLearningAgent._target_net network self
                        else DeepQLearningAgent._model network self) (tr_next_s tr))
  /\ (0 < length (tr_legal_moves tr))%nat.

End TransitionShape.

(** The loss in the words of the specification:
    [-mean(takenLogProb * reward) - beta * entropy], the entropy being that
    of the softmax of the logits, averaged over the batch. *)
Definition spec_entropy (logits : list (list R)) : R :=
  (- Rmean ((fun row => Rsum (zip_with Rmult (softmax row) (log_softmax row)))
              <$> logits))%R.

Definition spec_loss (beta : R) (taken_log_prob rewards : list R)
    (entropy : R) : R :=
  (- Rmean (zip_with Rmult taken_log_prob rewards) - beta * entropy)%R.

(** ** The distances of the search *)

(** The array [a] is square of side [n]. *)
Definition square {A} (n : nat) (a : list (list A)) : Prop :=
  length a = n /\ forall r row, a !! r = Some row -> length row = n.

(** No cell with a finite distance holds the food. *)
Definition finite_off_food (vals : values) (board : list (list Z)) (n : nat)
    (dist : list (list distance)) : Prop :=
  square n dist
  /\ forall r c drow x,
       dist !! r = Some drow -> drow !! c = Some (Steps x) ->
       cell2 board r c <> Some (v_food vals).

(** ** Instances *)

Definition bfs_values : values :=
  {| v_board := 0; v_snake := 1; v_food := 3; v_head := 2 |}.

(** A board of side [n] with no body cell, the head at row 1, column 1 and
    the food at row 1, column 3; its border cells have the code 4 when
    [border] is set and are free otherwise.  Both frames are equal. *)
Definition open_board (n : Z) (border : bool) : board3 :=
  (fun r =>
     (fun c =>
        let cell :=
          if (r =? 1) && (c =? 1) then 2
          else if (r =? 1) && (c =? 3) then 3
          else if border
                  && ((r =? 0) || (c =? 0) || (r =? n - 1) || (c =? n - 1))
               then 4
          else 0 in
        [cell; cell]) <$> seqZ 0 n) <$> seqZ 0 n.

Definition bfs_agent (n : Z) : BreadthFirstSearchAgent.t :=
  {| BreadthFirstSearchAgent._board_size := n;
     BreadthFirstSearchAgent._n_actions := 4 |}.

(** A board on which two body cells and the border enclose the food. *)
Definition enclosed_cells : list (list Z) :=
  [[4; 4; 4; 4; 4; 4];
   [4; 2; 0; 0; 0; 4];
   [4; 0; 0; 0; 0; 4];
   [4; 0; 0; 0; 1; 4];
   [4; 0; 0; 1; 3; 4];
   [4; 4; 4; 4; 4; 4]].

(** A board of side 4 with the head at (1, 1), a body cell at (1, 2), the
    cell before the head on the cycle, and the food at (2, 2). *)
Definition hamiltonian_example_cells : list (list Z) :=
  [[4; 4; 4; 4];
   [4; 2; 1; 4];
   [4; 0; 3; 4];
   [4; 4; 4; 4]].

Definition two_frames (cells : list (list Z)) : board3 :=
  (fun row : list Z => (fun x : Z => [x; x]) <$> row) <$> cells.

Definition hamiltonian_example_agent : HamiltonianCycleAgent.t :=
  {| HamiltonianCycleAgent._board_size := 4;
     HamiltonianCycleAgent._n_actions := 4;
     HamiltonianCycleAgent._cycle :=
       HamiltonianCycleAgent._get_cycle_square 4 |}.

(** A network with the outputs [1, 5, 3] for every board. *)
Definition dqn_example_forward (model : unit) (board : board3) : list Q :=
  [1; 5; 3]%Q.

Definition dqn_example_agent : DeepQLearningAgent.t unit :=
  {| DeepQLearningAgent._model := tt;
     DeepQLearningAgent._target_net := tt;
     DeepQLearningAgent._use_target_net := true;
     DeepQLearningAgent._gamma := (99 # 100)%Q;
     DeepQLearningAgent._n_actions := 3 |}.

Definition dqn_example_transition : transition :=
  {| tr_s := [];
     tr_a := [0; 1; 0];
     tr_r := 1%Q;
     tr_next_s := [];
     tr_done := 0;
     tr_legal_moves := [1; 0; 1] |}.

(** A network with the outputs [1, 20, -30] for every board. *)
(** Networks with constant rows of outputs: finite outputs; a row with an
    infinite output; a row whose legal outputs can all be minus infinity;
    a row with a NaN. *)
Definition dqn_float_forward (model : unit) (board : board3) : list (ext Q) :=
  [Fin 1; Fin 5; Fin 3]%Q.

Definition proba_example_forward (model : unit) (board : board3)
  : list (ext Q) :=
  [Fin 1; PosInf; Fin (-30)]%Q.

Definition dqn_minus_infinity_forward (model : unit) (board : board3)
  : list (ext Q) :=
  [Fin 0%Q; NegInf; NegInf].

Definition dqn_nan_forward (model : unit) (board : board3) : list (ext Q) :=
  [NaN; Fin 0%Q; Fin 0%Q].

(** An agent with one stored transition: two actions with equal logits,
    the first one taken, reward 0. *)
Definition pg_example_agent : PolicyGradientAgent.t unit unit :=
  {| PolicyGradientAgent._model := tt; PolicyGradientAgent._buffer := tt |}.

Definition pg_example_train (beta : R)
  : outcome (PolicyGradientAgent.t unit unit * R) :=
  PolicyGradientAgent.train_agent unit (fun _ _ => [0; 0]%R) unit
    (fun _ _ => ([[]], [0], [0%R])) (fun _ => 1) (fun _ model => model)
    pg_example_agent 32 beta false.

(** * Notions of the further properties *)

(** ** Arrays *)

(** No cell of the array has the code [v], decided by a scan. *)
Definition nowhereb (b : list (list Z)) (v : Z) : bool :=
  forallb (forallb (fun x => negb (x =? v))) b.

(** ** The search for a cycle *)

(** The number of cells off the border: the length of [_cycle]. *)
Definition cycle_cells (bs : Z) : nat := Z.to_nat ((bs - 2) ^ 2).

(** Every cell of [l] is followed by one of its neighbours. *)
Definition chain (bs : Z) (l : list Z) : Prop :=
  forall j a b, l !! j = Some a -> l !! S j = Some b ->
    b ∈ HamiltonianCycleAgent._get_neighbors bs a.

(** The last cell of an array of full length has the start point among
    its neighbours. *)
Definition closes (bs sp : Z) (l : list Z) : Prop :=
  exists x, l !! (cycle_cells bs - 1)%nat = Some x
            /\ sp ∈ HamiltonianCycleAgent._get_neighbors bs x.

(** The path [pre] followed by [l] is a cycle through the cells off the
    border: of full length, without a repeated cell, every cell followed
    by one of its neighbours and the last one by the start point. *)
Definition completion (bs sp : Z) (pre l : list Z) : Prop :=
  length (pre ++ l) = cycle_cells bs /\ NoDup (pre ++ l)
  /\ chain bs (pre ++ l) /\ closes bs sp (pre ++ l).

(** The attributes hold a path of [k + 1] cells: [_index] is [k], the
    cells of [_cycle] up to [k] are distinct, each followed by one of its
    neighbours, and [_cycle_set] is the set of these cells. *)
Definition partial_cycle (bs : Z) (st : HamiltonianCycleAgent.cycle_search)
    (k : nat) : Prop :=
  HamiltonianCycleAgent.cs_index st = Z.of_nat k
  /\ length (HamiltonianCycleAgent.cs_cycle st) = cycle_cells bs
  /\ (k < cycle_cells bs)%nat
  /\ NoDup (take (S k) (HamiltonianCycleAgent.cs_cycle st))
  /\ (forall x, x ∈ HamiltonianCycleAgent.cs_cycle_set st
                <-> x ∈ take (S k) (HamiltonianCycleAgent.cs_cycle st))
  /\ chain bs (take (S k) (HamiltonianCycleAgent.cs_cycle st)).

(** What a call of [_hamil_util] or a run of its loop does, from a state
    with the path [pre], the set [s] and the start point [sp]: when it
    returns [True] the attributes hold a full path that closes and starts
    with [pre]; when it returns [False] the index and the set are as
    before, [pre] is still in the array, and [dead] holds; it does not
    raise; and it runs out of fuel only if [enough] fails. *)
Definition hamil_post (bs : Z) (enough dead : Prop) (sp : Z) (pre : list Z)
    (s : gset Z) (out : HamiltonianCycleAgent.hamil_outcome) : Prop :=
  match out with
  | HamiltonianCycleAgent.Returns true st' =>
      partial_cycle bs st' (cycle_cells bs - 1)
      /\ HamiltonianCycleAgent.cs_start_point st' = sp
      /\ take (length pre) (HamiltonianCycleAgent.cs_cycle st') = pre
      /\ closes bs sp (HamiltonianCycleAgent.cs_cycle st')
  | HamiltonianCycleAgent.Returns false st' =>
      HamiltonianCycleAgent.cs_index st' = Z.of_nat (length pre) - 1
      /\ HamiltonianCycleAgent.cs_cycle_set st' = s
      /\ HamiltonianCycleAgent.cs_start_point st' = sp
      /\ length (HamiltonianCycleAgent.cs_cycle st') = cycle_cells bs
      /\ take (length pre) (HamiltonianCycleAgent.cs_cycle st') = pre
      /\ dead
  | HamiltonianCycleAgent.RaisesIndexError
  | HamiltonianCycleAgent.RaisesKeyError => False
  | HamiltonianCycleAgent.TooDeep => ~ enough
  end.

(** The array [cycle] is a Hamiltonian cycle of the cells off the
    border. *)
Definition hamiltonian_cycle (bs : Z) (cycle : list Z) : Prop :=
  length cycle = cycle_cells bs
  /\ NoDup cycle
  /\ (forall p, p ∈ cycle -> interior bs p)
  /\ (forall k a b,
        cycle !! k = Some a ->
        cycle !! ((k + 1) mod length cycle)%nat = Some b ->
        manhattan bs a b = 1).

(** ** The breadth-first search *)

(** The codes of the cells that the search enters. *)
Definition can_enter (vals : values) (cell : Z) : Prop :=
  cell = v_board vals \/ cell = v_food vals \/ cell = v_head vals.

(** [q] is the point that [_get_neighbors] computes for one of the four
    steps from [p], and the cell it reads for that step can be entered. *)
Definition bfs_step (bs : Z) (vals : values) (b : list (list Z)) (p q : Z)
  : Prop :=
  exists dr dc cell,
    (dr, dc) ∈ [(-1, 0); (1, 0); (0, 1); (0, -1)]
    /\ q = (p / bs + dr) * bs + (p mod bs + dc)
    /\ py_get2 b (p / bs + dr) (p mod bs + dc) = Ok cell
    /\ can_enter vals cell.

(** The recorded distances are not negative, and 0 at the head only. *)
Definition zero_at_head (head_row head_col n : nat)
    (dist : list (list distance)) : Prop :=
  square n dist
  /\ forall r c x, cell2 dist r c = Some (Steps x) ->
       0 <= x /\ (x = 0 -> r = head_row /\ c = head_col).

(** The flat index of a cell. *)
Definition cell_point (bs : Z) (rc : nat * nat) : Z :=
  Z.of_nat rc.1 * bs + Z.of_nat rc.2.

(** The cell can be entered: it is free, the food or the head. *)
Definition enterable (vals : values) (b : list (list Z)) (rc : nat * nat)
  : bool :=
  match cell2 b rc.1 rc.2 with
  | Some x => (x =? v_board vals) || (x =? v_food vals) || (x =? v_head vals)
  | None => false
  end.

(** The four cells around a cell that is not on the first row or column,
    in the order of the steps of [_get_neighbors]. *)
Definition around (rc : nat * nat) : list (nat * nat) :=
  [((rc.1 - 1)%nat, rc.2); (S rc.1, rc.2); (rc.1, S rc.2);
   (rc.1, (rc.2 - 1)%nat)].

(** ** The cells of the search *)

(** The index that numpy gives to [i] on an axis of length [n]. *)
Definition wrap (n : nat) (i : Z) : option nat := py_index (replicate n ()) i.

(** The cell that a point names on an array of side [n]. *)
Definition cell_of (n : nat) (bs p : Z) : option (nat * nat) :=
  match wrap n (p / bs), wrap n (p mod bs) with
  | Some r, Some c => Some (r, c)
  | _, _ => None
  end.

(** The value of an array of side [n] at a cell. *)
Definition at_cell {A} (a : list (list A)) (rc : nat * nat) : option A :=
  cell2 a rc.1 rc.2.

(** The cell that a point names has not been marked. *)
Definition unvisitedb (n : nat) (bs : Z) (vis : list (list Z)) (p : Z)
  : bool :=
  match cell_of n bs p with
  | Some rc => match at_cell vis rc with
               | Some v => v =? 0
               | None => false
               end
  | None => false
  end.

(** One round of the loop [for p in n] of the search. *)
Definition visit_one (bs : Z) (vals : values) (board : list (list Z))
    (curr_row curr_col : Z) (p : Z)
    (st : BreadthFirstSearchAgent.search_state)
  : outcome BreadthFirstSearchAgent.search_state :=
  BreadthFirstSearchAgent.visit_neighbors bs vals board curr_row curr_col
    [p] st.

(** A cell that one of the points names. *)
Definition names (n : nat) (bs : Z) (nbrs : list Z) (rc : nat * nat) : Prop :=
  exists p, p ∈ nbrs /\ cell_of n bs p = Some rc.

(** What the rounds of the loop [for p in n] that do not reach the food
    do to the distances: a distance only decreases; that of the current
    cell stays; a neighbour ends at one more than the current cell at
    most; and a new distance is one more than that of the current cell, at
    a neighbour. *)
Definition relaxed (n : nat) (bs : Z) (curr : nat * nat) (nbrs : list Z)
    (dist dist' : list (list distance)) : Prop :=
  (forall rc x, at_cell dist rc = Some (Steps x) ->
     exists x', at_cell dist' rc = Some (Steps x') /\ x' <= x)
  /\ at_cell dist' curr = at_cell dist curr
  /\ (forall rc d, names n bs nbrs rc ->
        at_cell dist curr = Some (Steps d) ->
        exists y, at_cell dist' rc = Some (Steps y) /\ y <= 1 + d)
  /\ (forall rc x, at_cell dist' rc = Some (Steps x) ->
        at_cell dist rc = Some (Steps x)
        \/ exists d, at_cell dist curr = Some (Steps d) /\ x = 1 + d
                     /\ names n bs nbrs rc).

(** The distances are bounded below by [low]. *)
Definition bounded_below (low : nat * nat -> Z) (n : nat)
    (dist : list (list distance)) : Prop :=
  square n dist
  /\ forall rc x, at_cell dist rc = Some (Steps x) -> low rc <= x.

(** A lower bound of the distance from the head: 0 at the head, 1 at the
    four cells around it and 2 elsewhere. *)
Definition near (head rc : nat * nat) : Z :=
  if bool_decide (rc = head) then 0
  else if bool_decide (rc ∈ around head) then 1
  else 2.

(** What the rounds of the search on a board with the head at row 1,
    column 1 keep, from the first one on: the lower bounds of the
    distances, and the distances found for the head and the cell (1, 2). *)
Definition open_row_state (n : nat)
    (st : BreadthFirstSearchAgent.search_state) : Prop :=
  square n (BreadthFirstSearchAgent.distances st)
  /\ square n (BreadthFirstSearchAgent.visited st)
  /\ bounded_below (near (1%nat, 1%nat)) n
       (BreadthFirstSearchAgent.distances st)
  /\ (exists x,
        at_cell (BreadthFirstSearchAgent.distances st) (1%nat, 1%nat)
        = Some (Steps x) /\ x <= 0)
  /\ (exists y,
        at_cell (BreadthFirstSearchAgent.distances st) (1%nat, 2%nat)
        = Some (Steps y) /\ y <= 1).

(** The cells of an array of side [n]. *)
Definition cells (n : nat) : list (nat * nat) :=
  list_prod (seq 0 n) (seq 0 n).

(** The cell has not been marked. *)
Definition unvisited_cell (vis : list (list Z)) (rc : nat * nat) : bool :=
  match at_cell vis rc with
  | Some v => v =? 0
  | None => false
  end.

(** The number of cells that have not been marked. *)
Definition unvisited_count (n : nat) (vis : list (list Z)) : nat :=
  length (List.filter (unvisited_cell vis) (cells n)).

(** The weight of an entry of the queue: 5 to the number of unmarked cells
    other than its own. *)
Definition weight (n : nat) (bs : Z) (vis : list (list Z)) (p : Z) : Z :=
  5 ^ Z.of_nat (unvisited_count n vis
                - (if unvisitedb n bs vis p then 1 else 0)).

(** The measure that every round of the search decreases. *)
Definition potential (n : nat) (bs : Z) (vis : list (list Z))
    (queue : list Z) : Z :=
  fold_right Z.add 0 (map (weight n bs vis) queue).

(** The cell is off the first and the last row and column. *)
Definition inside (n : nat) (rc : nat * nat) : Prop :=
  (1 <= rc.1)%nat /\ (S rc.1 < n)%nat /\ (1 <= rc.2)%nat /\ (S rc.2 < n)%nat.

(** The cells that a walk from the head reaches through cells that can be
    entered, every step going to one of the four cells around the cell
    that it leaves. *)
Inductive reachable (vals : values) (b : list (list Z)) (head : nat * nat)
  : nat * nat -> Prop :=
| reachable_head : reachable vals b head head
| reachable_step (rc rc' : nat * nat) :
    reachable vals b head rc -> rc' ∈ around rc ->
    enterable vals b rc' = true -> reachable vals b head rc'.

(** The cells of [region] are inside, the head is one of them, and a cell
    that can be entered next to one of them is one of them. *)
Definition closed_region (vals : values) (b : list (list Z)) (n : nat)
    (head : nat * nat) (region : list (nat * nat)) : bool :=
  bool_decide (head ∈ region)
  && forallb (fun rc =>
       (1 <=? rc.1)%nat && (S rc.1 <? n)%nat
       && (1 <=? rc.2)%nat && (S rc.2 <? n)%nat
       && forallb (fun rc' => negb (enterable vals b rc')
                              || bool_decide (rc' ∈ region))
            (around rc))
       region.

(** ** Instances *)

(** A board without a border on which four body cells enclose the food. *)
Definition enclosed_open_cells : list (list Z) :=
  [[0; 0; 0; 0; 0];
   [0; 2; 0; 0; 0];
   [0; 0; 0; 1; 0];
   [0; 0; 1; 3; 1];
   [0; 0; 0; 1; 0]].

(** The cells of [enclosed_cells] that can be entered from the head. *)
Definition enclosed_region : list (nat * nat) :=
  [(1, 1); (1, 2); (1, 3); (1, 4);
   (2, 1); (2, 2); (2, 3); (2, 4);
   (3, 1); (3, 2); (3, 3);
   (4, 1); (4, 2)]%nat.

(** A network with the outputs [5, 1, 5] for every board. *)
Definition dqn_tie_forward (model : unit) (board : board3) : list (ext Q) :=
  [Fin 5; Fin 1; Fin 5]%Q.

(** A board of side 4 without a head. *)
Definition headless_cells : list (list Z) :=
  [[4; 4; 4; 4];
   [4; 0; 1; 4];
   [4; 0; 3; 4];
   [4; 4; 4; 4]].

(** A board of side 4 with the head at (1, 1), the food at (2, 2) and the
    cell before the head on the cycle, (1, 2), free. *)
Definition hamiltonian_free_cells : list (list Z) :=
  [[4; 4; 4; 4];
   [4; 2; 0; 4];
   [4; 0; 3; 4];
   [4; 4; 4; 4]].

(** A transition that ends the game, with the reward 7. *)
Definition dqn_terminal_transition : transition :=
  {| tr_s := [];
     tr_a := [0; 1; 0];
     tr_r := 7%Q;
     tr_next_s := [];
     tr_done := 1;
     tr_legal_moves := [1; 0; 1] |}.

(** A transition to a state without a legal action. *)
Definition dqn_blocked_transition : transition :=
  {| tr_s := [];
     tr_a := [0; 1; 0];
     tr_r := 1%Q;
     tr_next_s := [];
     tr_done := 0;
     tr_legal_moves := [0; 0; 0] |}.

(** A board of side 6 with a border: the head at (1, 1), a body cell at
    (1, 2) between the head and the food at (1, 3). *)
Definition detour_cells : list (list Z) :=
  [[4; 4; 4; 4; 4; 4];
   [4; 2; 1; 3; 0; 4];
   [4; 0; 0; 0; 0; 4];
   [4; 0; 0; 0; 0; 4];
   [4; 0; 0; 0; 0; 4];
   [4; 4; 4; 4; 4; 4]].

(** A board of side 4 without a border, the head in its last row. *)
Definition edge_cells : list (list Z) :=
  [[0; 0; 0; 0];
   [0; 3; 0; 0];
   [0; 0; 0; 0];
   [0; 2; 0; 0]].

(** The state in which [_get_cycle] calls [_hamil_util] on a board of
    side 5. *)
Definition backtracking_example : HamiltonianCycleAgent.cycle_search :=
  {| HamiltonianCycleAgent.cs_start_point := 6;
     HamiltonianCycleAgent.cs_cycle := [6; 0; 0; 0; 0; 0; 0; 0; 0];
     HamiltonianCycleAgent.cs_index := 0;
     HamiltonianCycleAgent.cs_cycle_set := {[ 6 ]} |}.

(** A board of side 5 with the food below the head. *)
Definition adjacent_cells : list (list Z) :=
  [[4; 4; 4; 4; 4];
   [4; 0; 2; 0; 4];
   [4; 1; 3; 0; 4];
   [4; 1; 1; 0; 4];
   [4; 4; 4; 4; 4]].

(** * Verification *)

(** ** Arrays and the position of a cell code *)

Lemma py_index_nat {A} (a : list A) (n : nat) :
  (n < length a)%nat -> py_index a (Z.of_nat n) = Some n.
Proof.
  intros Hn. unfold py_index.
  destruct (Z.leb_spec 0 (Z.of_nat n)); [|lia].
  destruct (Z.ltb_spec (Z.of_nat n) (Z.of_nat (length a))); [|lia].
  simpl. f_equal. lia.
Qed.

Lemma py_get_nat {A} (a : list A) (n : nat) (x : A) :
  a !! n = Some x -> py_get a (Z.of_nat n) = Ok x.
Proof.
  intros Hx. unfold py_get.
  rewrite py_index_nat by (eapply lookup_lt_Some; eauto).
  rewrite Hx. reflexivity.
Qed.

Lemma py_sum_zero (l : list Z) :
  (forall j z, l !! j = Some z -> z = 0) -> py_sum l = 0.
Proof.
  induction l as [|x l IH]; intros H; [reflexivity|].
  simpl. rewrite (H 0%nat x eq_refl), IH; [reflexivity|].
  intros j z Hj. apply (H (S j)). exact Hj.
Qed.

Lemma py_sum_single (l : list Z) : forall k y,
  l !! k = Some y ->
  (forall j z, l !! j = Some z -> j <> k -> z = 0) ->
  py_sum l = y.
Proof.
  induction l as [|x l IH]; intros k y Hk H; [done|].
  destruct k as [|k]; simpl in Hk.
  - injection Hk as ->. simpl. rewrite py_sum_zero; [lia|].
    intros j z Hj. apply (H (S j) z Hj). lia.
  - simpl. rewrite (H 0%nat x eq_refl) by lia.
    rewrite (IH k y Hk); [lia|].
    intros j z Hj Hne. apply (H (S j) z Hj). lia.
Qed.

Lemma only_atb_sound (b : list (list Z)) (v : Z) (row col : nat) :
  only_atb b v row col = true -> only_at b v row col.
Proof.
  unfold only_atb. intros H. apply andb_prop in H as [Hcell Hall]. split.
  - destruct (cell2 b row col) as [x|]; [|discriminate].
    apply Z.eqb_eq in Hcell. congruence.
  - intros r c Hrc. rewrite forallb_forall in Hall.
    unfold cell2 in Hrc. destruct (b !! r) as [brow|] eqn:Hbrow; [|done].
    cbn in Hrc.
    specialize (Hall r). rewrite forallb_forall in Hall.
    assert (Hin : In r (seq 0 (length b))).
    { apply in_seq. apply lookup_lt_Some in Hbrow. lia. }
    specialize (Hall Hin c). rewrite Hbrow in Hall. cbn [default] in Hall.
    assert (Hinc : In c (seq 0 (length brow))).
    { apply in_seq. apply lookup_lt_Some in Hrc. lia. }
    specialize (Hall Hinc). unfold cell2 in Hall. rewrite Hbrow in Hall.
    cbn in Hall. rewrite Hrc, Z.eqb_refl in Hall. cbn in Hall.
    apply andb_prop in Hall as [Hr Hc].
    apply Nat.eqb_eq in Hr, Hc. auto.
Qed.

Lemma has_shape_spec {A} (a : list (list A)) n m :
  has_shape a n m = true ->
  length a = n /\ forall r row, a !! r = Some row -> length row = m.
Proof.
  unfold has_shape. intros H. apply andb_prop in H as [Hn Hm].
  apply Nat.eqb_eq in Hn. split; [exact Hn|].
  intros r row Hr. rewrite forallb_forall in Hm.
  apply Nat.eqb_eq, Hm. apply list_elem_of_In, list_elem_of_lookup. eauto.
Qed.

Lemma board_grid_lookup (bs : Z) (r : nat) :
  (Z.of_nat r < bs) ->
  Agent._board_grid bs !! r
  = Some ((fun c => Z.of_nat r * bs + c) <$> seqZ 0 bs).
Proof.
  intros Hr. unfold Agent._board_grid.
  rewrite list_lookup_fmap, lookup_seqZ_lt by lia. reflexivity.
Qed.

Lemma grid_where_only_at (bs : Z) (b : list (list Z)) (v : Z) (row col : nat) :
  has_shape b (Z.to_nat bs) (Z.to_nat bs) = true ->
  only_at b v row col ->
  Agent.grid_where bs b v = Ok (Z.of_nat row * bs + Z.of_nat col).
Proof.
  intros Hshape [Hcell Honly]. unfold Agent.grid_where. rewrite Hshape.
  apply has_shape_spec in Hshape as [Hrows Hcols].
  unfold cell2 in Hcell.
  destruct (b !! row) as [brow|] eqn:Hbrow; [|done]. simpl in Hcell.
  pose proof (lookup_lt_Some _ _ _ Hbrow) as Hrow_lt.
  pose proof (lookup_lt_Some _ _ _ Hcell) as Hcol_lt.
  rewrite (Hcols _ _ Hbrow) in Hcol_lt.
  f_equal. apply (py_sum_single _ row).
  - rewrite lookup_zip_with, board_grid_lookup, Hbrow by lia. simpl.
    f_equal. apply (py_sum_single _ col).
    + rewrite lookup_zip_with, list_lookup_fmap, lookup_seqZ_lt, Hcell by lia.
      simpl. rewrite Z.eqb_refl. reflexivity.
    + intros j z Hj Hne.
      rewrite lookup_zip_with in Hj.
      destruct (((fun c => Z.of_nat row * bs + c) <$> seqZ 0 bs) !! j)
        as [g|]; [|done].
      simpl in Hj. destruct (brow !! j) as [x|] eqn:Hx; [|done].
      simpl in Hj. injection Hj as <-.
      destruct (Z.eqb_spec x v) as [->|]; [|reflexivity].
      assert (Hc : cell2 b row j = Some v)
        by (unfold cell2; rewrite Hbrow; exact Hx).
      apply Honly in Hc. lia.
  - intros r z Hr Hne.
    rewrite lookup_zip_with in Hr.
    destruct (Agent._board_grid bs !! r) as [grow|]; [|done].
    simpl in Hr. destruct (b !! r) as [br|] eqn:Hbr; [|done].
    simpl in Hr. injection Hr as <-.
    apply py_sum_zero. intros j z Hj.
    rewrite lookup_zip_with in Hj.
    destruct (grow !! j) as [g|]; [|done].
    simpl in Hj. destruct (br !! j) as [x|] eqn:Hx; [|done].
    simpl in Hj. injection Hj as <-.
    destruct (Z.eqb_spec x v) as [->|]; [|reflexivity].
    assert (Hc : cell2 b r j = Some v)
      by (unfold cell2; rewrite Hbr; exact Hx).
    apply Honly in Hc. lia.
Qed.

(** ** The serpentine sweep *)

Section CycleSquare.

Import HamiltonianCycleAgent.

Variable bs : Z.
Hypothesis bs_ge_4 : 4 <= bs.
Hypothesis bs_even : bs mod 2 = 0.

Lemma row_of_rc r c : 0 <= c < bs -> row_of bs (r * bs + c) = r.
Proof.
  intros Hc. unfold row_of.
  rewrite Z.div_add_l by lia. rewrite Z.div_small by lia. lia.
Qed.

Lemma col_of_rc r c : 0 <= c < bs -> col_of bs (r * bs + c) = c.
Proof.
  intros Hc. unfold col_of.
  rewrite Z.add_comm, Z.mod_add by lia. apply Z.mod_small; lia.
Qed.

Lemma rc_of_point p : p = row_of bs p * bs + col_of bs p.
Proof. unfold row_of, col_of. pose proof (Z.div_mod p bs). lia. Qed.

Lemma col_of_range p : 0 <= col_of bs p < bs.
Proof. unfold col_of. apply Z.mod_pos_bound. lia. Qed.

Lemma div_rc r c : 0 <= c < bs -> (r * bs + c) / bs = r.
Proof. apply row_of_rc. Qed.

Lemma mod_rc r c : 0 <= c < bs -> (r * bs + c) mod bs = c.
Proof. apply col_of_rc. Qed.

(** The step of the sweep on a cell given by its row and column. *)
Lemma cycle_step_rc (i : nat) (r c : Z) :
  1 <= r <= bs - 2 -> 1 <= c <= bs - 2 -> (1 <= i)%nat ->
  cycle_step bs i (r * bs + c) =
    if (r =? 2) && (c =? bs - 2) then (r - 1) * bs + c
    else if negb (i =? 1)%nat && (r =? 1) then r * bs + (c - 1)
    else if c mod 2 =? 1 then
      if r + 1 =? bs - 1 then r * bs + (c + 1) else (r + 1) * bs + c
    else
      if r - 1 =? 1 then r * bs + (c + 1) else (r - 1) * bs + c.
Proof.
  intros Hr Hc Hi. unfold cycle_step. cbv zeta.
  destruct (Nat.eqb_spec i 0); [lia|].
  repeat (rewrite ?div_rc, ?mod_rc by lia; cbv zeta).
  replace (r + 1 - 1) with r by lia. replace (r - 1 + 1) with r by lia.
  reflexivity.
Qed.

Ltac split_eqb :=
  repeat match goal with
  | H : context [Z.eqb ?a ?b] |- _ =>
      destruct (Z.eqb_spec a b); try (exfalso; lia)
  | |- context [Nat.eqb ?a ?b] =>
      destruct (Nat.eqb_spec a b); try (exfalso; lia)
  | |- context [Z.eqb ?a ?b] =>
      destruct (Z.eqb_spec a b); try (exfalso; lia)
  | |- _ => progress cbn [andb negb]
  end.

Lemma cycle_step_spec (i : nat) (p : Z) :
  interior bs p -> (1 <= i)%nat -> rank bs p = Z.of_nat i - 1 ->
  Z.of_nat i < (bs - 2) * (bs - 2) ->
  interior bs (cycle_step bs i p) /\
  rank bs (cycle_step bs i p) = Z.of_nat i /\
  manhattan bs p (cycle_step bs i p) = 1.
Proof.
  intros [Hr Hc] Hi Hrank Hlt.
  pose proof (cycle_step_rc i (row_of bs p) (col_of bs p) Hr Hc Hi) as Hstep.
  rewrite <- rc_of_point in Hstep. rewrite Hstep. clear Hstep.
  unfold manhattan.
  unfold rank in Hrank. cbv zeta in Hrank.
  set (r := row_of bs p) in *. set (c := col_of bs p) in *.
  clearbody r c.
  assert (Hpar : c mod 2 = 0 \/ c mod 2 = 1)
    by (pose proof (Z.mod_pos_bound c 2); lia).
  assert (Hc1 : (c + 1) mod 2 = 1 - c mod 2).
  { rewrite Z.add_mod by lia. destruct Hpar as [-> | ->]; reflexivity. }
  pose proof (Z.div_mod c 2 ltac:(lia)) as Hcdiv.
  pose proof (Z.div_mod bs 2 ltac:(lia)) as Hbdiv.
  assert (Hnl : 2 <= (bs - 2) * (bs - 3)) by nia.
  destruct Hpar as [E | E]; rewrite E in *; split_eqb;
    unfold interior, rank;
    rewrite ?row_of_rc, ?col_of_rc by lia;
    rewrite ?Hc1, ?E; split_eqb;
    (split; [|split]); lia.
Qed.

Lemma length_sweep n index sp : length (sweep bs n index sp) = n.
Proof. revert index sp. induction n; intros; simpl; auto. Qed.

Lemma cycle_while_sweep fuel : forall pre rest sp,
  (length rest <= fuel)%nat ->
  cycle_while fuel bs (pre ++ rest) (length pre) sp
  = pre ++ sweep bs (length rest) (length pre) sp.
Proof.
  induction fuel as [|fuel IH]; intros pre rest sp Hfuel.
  - destruct rest; [|simpl in Hfuel; lia]. reflexivity.
  - destruct rest as [|x rest].
    + simpl. rewrite app_nil_r.
      destruct (Nat.ltb_spec (length pre) (length pre)); [lia|reflexivity].
    + cbn [cycle_while].
      destruct (Nat.ltb_spec (length pre) (length (pre ++ x :: rest)))
        as [_|Hge]; [|rewrite length_app in Hge; simpl in Hge; lia].
      rewrite insert_app_r_alt by lia.
      replace (length pre - length pre)%nat with 0%nat by lia.
      cbn [insert list_insert length sweep].
      set (sp' := cycle_step bs (length pre) sp).
      specialize (IH (pre ++ [sp']) rest sp').
      rewrite <- app_assoc in IH. cbn [app] in IH.
      rewrite length_app in IH. cbn [length] in IH.
      replace (length pre + 1)%nat with (S (length pre)) in IH by lia.
      rewrite IH by (simpl in Hfuel; lia).
      rewrite <- app_assoc. reflexivity.
Qed.

Lemma get_cycle_square_sweep :
  _get_cycle_square bs
  = sweep bs (Z.to_nat ((bs - 2) ^ 2)) 0 (1 * bs + 1).
Proof.
  unfold _get_cycle_square. cbv zeta.
  set (n := Z.to_nat ((bs - 2) ^ 2)).
  pose proof (cycle_while_sweep n [] (replicate n 0) (1 * bs + 1)) as H.
  rewrite length_replicate in H. cbn [app length] in H.
  apply H. lia.
Qed.

Lemma sweep_swept n : forall i p,
  interior bs p -> (1 <= i)%nat -> rank bs p = Z.of_nat i - 1 ->
  Z.of_nat i + Z.of_nat n <= (bs - 2) * (bs - 2) ->
  swept bs i p (sweep bs n i p).
Proof.
  induction n as [|n IH]; intros i p Hp Hi Hrank Hlen; [exact I|].
  cbn [sweep swept].
  destruct (cycle_step_spec i p Hp Hi Hrank ltac:(lia)) as (Hq & Hrq & Hm).
  repeat split; try apply Hq; auto.
  apply IH; auto; lia.
Qed.

Lemma swept_lookup l : forall i p k q,
  swept bs i p l -> l !! k = Some q ->
  interior bs q /\ rank bs q = Z.of_nat (i + k).
Proof.
  induction l as [|x l IH]; intros i p k q Hs Hk; [done|].
  destruct Hs as (Hx & Hrx & _ & Hs).
  destruct k as [|k]; simpl in Hk.
  - injection Hk as <-. rewrite Nat.add_0_r. auto.
  - replace (i + S k)%nat with (S i + k)%nat by lia. eapply IH; eauto.
Qed.

Lemma swept_step l : forall i p k a b,
  swept bs i p l -> (p :: l) !! k = Some a -> l !! k = Some b ->
  manhattan bs a b = 1.
Proof.
  induction l as [|x l IH]; intros i p k a b Hs Ha Hb; [done|].
  destruct Hs as (_ & _ & Hm & Hs).
  destruct k as [|k]; simpl in Ha, Hb.
  - injection Ha as <-. injection Hb as <-. exact Hm.
  - eapply IH; eauto.
Qed.

Lemma start_point_interior : interior bs (start_point bs).
Proof.
  unfold interior, start_point. rewrite row_of_rc, col_of_rc by lia. lia.
Qed.

Lemma start_point_rank : rank bs (start_point bs) = 0.
Proof.
  unfold rank, start_point. rewrite row_of_rc, col_of_rc by lia.
  reflexivity.
Qed.

Lemma cycle_length : length (_get_cycle_square bs) = Z.to_nat ((bs - 2) ^ 2).
Proof. rewrite get_cycle_square_sweep. apply length_sweep. Qed.

Lemma cycle_length_pos : (4 <= length (_get_cycle_square bs))%nat.
Proof. rewrite cycle_length. rewrite Z.pow_2_r. nia. Qed.

(** The cycle is the start point followed by the cells swept from it. *)
Lemma cycle_unfold :
  exists l, _get_cycle_square bs = (start_point bs) :: l
            /\ swept bs 1 (start_point bs) l.
Proof.
  rewrite get_cycle_square_sweep.
  destruct (Z.to_nat ((bs - 2) ^ 2)) as [|n] eqn:En.
  { rewrite Z.pow_2_r in En. nia. }
  exists (sweep bs n 1 (start_point bs)). split; [reflexivity|].
  apply sweep_swept.
  - apply start_point_interior.
  - lia.
  - rewrite start_point_rank. reflexivity.
  - rewrite Z.pow_2_r in En. lia.
Qed.

Lemma cycle_lookup k q :
  _get_cycle_square bs !! k = Some q ->
  interior bs q /\ rank bs q = Z.of_nat k.
Proof.
  destruct cycle_unfold as (l & -> & Hs). intros Hk.
  destruct k as [|k]; simpl in Hk.
  - injection Hk as <-. split; [apply start_point_interior|].
    apply start_point_rank.
  - replace (S k) with (1 + k)%nat by lia. eapply swept_lookup; eauto.
Qed.

Lemma cycle_NoDup : NoDup (_get_cycle_square bs).
Proof.
  apply NoDup_alt. intros i j x Hi Hj.
  apply cycle_lookup in Hi, Hj. lia.
Qed.

Lemma cycle_consecutive k a b :
  _get_cycle_square bs !! k = Some a ->
  _get_cycle_square bs !! S k = Some b ->
  manhattan bs a b = 1.
Proof.
  destruct cycle_unfold as (l & -> & Hs). intros Ha Hb.
  simpl in Hb. eapply swept_step; eauto.
Qed.

(** The last position of the sweep is the cell to the right of the
    start point. *)
Lemma rank_last p :
  interior bs p -> rank bs p = (bs - 2) * (bs - 2) - 1 -> p = 1 * bs + 2.
Proof.
  intros [Hr Hc] Hrank. rewrite (rc_of_point p).
  unfold rank in Hrank. cbv zeta in Hrank.
  set (r := row_of bs p) in *. set (c := col_of bs p) in *. clearbody r c.
  assert (Hnl : 2 <= (bs - 2) * (bs - 3)) by nia.
  assert (Hcb : 0 <= (bs - 2 - c) * (bs - 3)) by nia.
  destruct (c mod 2 =? 1); split_eqb; try (exfalso; lia).
  all: f_equal; lia.
Qed.

Lemma cycle_wraparound a b :
  _get_cycle_square bs !! (length (_get_cycle_square bs) - 1)%nat = Some a ->
  _get_cycle_square bs !! 0%nat = Some b ->
  manhattan bs a b = 1.
Proof.
  intros Ha Hb.
  pose proof cycle_length as Hlen. rewrite Z.pow_2_r in Hlen.
  pose proof cycle_length_pos as Hpos.
  apply cycle_lookup in Ha. destruct Ha as [Hia Hra].
  apply rank_last in Hia; [|lia]. subst a.
  destruct cycle_unfold as (l & Hl & _). rewrite Hl in Hb.
  injection Hb as <-. unfold manhattan, start_point.
  rewrite !row_of_rc, !col_of_rc by lia. reflexivity.
Qed.

Lemma cycle_adjacent k a b :
  _get_cycle_square bs !! k = Some a ->
  _get_cycle_square bs !! ((k + 1) mod length (_get_cycle_square bs))%nat
    = Some b ->
  manhattan bs a b = 1.
Proof.
  intros Ha Hb.
  pose proof (lookup_lt_Some _ _ _ Ha) as Hk.
  destruct (decide (k + 1 = length (_get_cycle_square bs))%nat) as [E|E].
  - rewrite E, Nat.Div0.mod_same in Hb.
    replace k with (length (_get_cycle_square bs) - 1)%nat in Ha by lia.
    eapply cycle_wraparound; eauto.
  - rewrite Nat.mod_small in Hb by lia.
    replace (k + 1)%nat with (S k) in Hb by lia.
    eapply cycle_consecutive; eauto.
Qed.

Lemma length_concat_const {A} (ll : list (list A)) n :
  Forall (fun l => length l = n) ll ->
  length (mjoin ll) = (length ll * n)%nat.
Proof.
  induction 1 as [|l ll Hl _ IH]; [reflexivity|].
  simpl. rewrite length_app, IH, Hl. reflexivity.
Qed.

Lemma length_interior_cells :
  length (interior_cells bs) = Z.to_nat ((bs - 2) ^ 2).
Proof.
  unfold interior_cells.
  rewrite (length_concat_const _ (Z.to_nat (bs - 2))).
  - rewrite length_fmap, length_seqZ, Z.pow_2_r. nia.
  - apply Forall_forall. intros l Hl.
    apply list_elem_of_fmap in Hl as (r & -> & _).
    rewrite length_fmap, length_seqZ. reflexivity.
Qed.

Lemma elem_of_interior_cells p : p ∈ (interior_cells bs) <-> interior bs p.
Proof.
  unfold interior_cells, interior. split.
  - intros Hp. apply list_elem_of_join in Hp as (l & Hp & Hl).
    apply list_elem_of_fmap in Hl as (r & -> & Hr).
    apply list_elem_of_fmap in Hp as (c & -> & Hc).
    apply elem_of_seqZ in Hr, Hc.
    rewrite row_of_rc, col_of_rc by lia. lia.
  - intros [Hr Hc]. apply list_elem_of_join.
    exists ((fun c => row_of bs p * bs + c) <$> seqZ 1 (bs - 2)). split.
    + apply list_elem_of_fmap. exists (col_of bs p). split.
      * apply rc_of_point.
      * apply elem_of_seqZ. lia.
    + apply list_elem_of_fmap. exists (row_of bs p). split; [reflexivity|].
      apply elem_of_seqZ. lia.
Qed.

Lemma cycle_covers p : interior bs p -> p ∈ _get_cycle_square bs.
Proof.
  intros Hp.
  assert (Hperm : _get_cycle_square bs ≡ₚ (interior_cells bs)).
  { apply submseteq_length_Permutation.
    - apply NoDup_submseteq; [apply cycle_NoDup|].
      intros x Hx. apply list_elem_of_lookup in Hx as [k Hk].
      apply elem_of_interior_cells. eapply cycle_lookup; eauto.
    - rewrite cycle_length, length_interior_cells. lia. }
  rewrite Hperm. apply elem_of_interior_cells. exact Hp.
Qed.

(** An interior cell sits in the cycle at the position of its rank, and
    nowhere else. *)
Lemma cycle_position p :
  interior bs p ->
  exists k, _get_cycle_square bs !! k = Some p
            /\ Z.of_nat k = rank bs p
            /\ forall k', _get_cycle_square bs !! k' = Some p -> k' = k.
Proof.
  intros Hp. apply cycle_covers in Hp.
  apply list_elem_of_lookup in Hp as [k Hk]. exists k.
  pose proof (cycle_lookup _ _ Hk) as [_ Hrk].
  split; [exact Hk|]. split; [lia|].
  intros k' Hk'. apply cycle_lookup in Hk'. lia.
Qed.

End CycleSquare.

(** ** Coordinate conversions *)

(** C10: the conversions between a flat index and (row, col) are inverse
    to each other: for [0 <= point < board_size ^ 2] the point is got back
    from its row and column, and for [0 <= row, col < board_size] the row
    and column are got back from their point. *)
Theorem point_row_col_inverse (board_size point row col : Z) :
  0 <= point < board_size ^ 2 ->
  0 <= row < board_size ->
  0 <= col < board_size ->
  (let '(r, c) := Agent._point_to_row_col board_size point in
   Agent._row_col_to_point board_size r c = point)
  /\ Agent._point_to_row_col board_size
       (Agent._row_col_to_point board_size row col) = (row, col).
Proof.
  intros Hp Hr Hc.
  unfold Agent._point_to_row_col, Agent._row_col_to_point. split.
  - pose proof (Z.div_mod point board_size ltac:(lia)). lia.
  - rewrite Z.div_add_l, Z.div_small by lia.
    rewrite (Z.add_comm (row * board_size) col), Z.mod_add, Z.mod_small by lia.
    f_equal. lia.
Qed.

Lemma point_row_col_inverse_witness :
  (let '(r, c) := Agent._point_to_row_col 10 37 in
   Agent._row_col_to_point 10 r c = 37)
  /\ Agent._point_to_row_col 10 (Agent._row_col_to_point 10 3 7) = (3, 7).
Proof. apply (point_row_col_inverse 10 37 3 7); lia. Defined.

(** ** Construction of the Hamiltonian agent *)

(** C9: with an odd board size the constructor fails on its assertion and
    produces no agent; an agent is produced only for an even board size. *)
Theorem hamiltonian_init_even (board_size n_actions : Z) :
  (Z.odd board_size = true ->
   HamiltonianCycleAgent.__init__ board_size n_actions = Raise AssertionError)
  /\ (forall agent,
        HamiltonianCycleAgent.__init__ board_size n_actions = Ok agent ->
        Z.even board_size = true).
Proof.
  unfold HamiltonianCycleAgent.__init__.
  rewrite Zodd_mod, Zeven_mod. split.
  - intros Hodd. destruct (board_size mod 2 =? 0) eqn:E; [|reflexivity].
    apply Z.eqb_eq in E. rewrite E in Hodd. discriminate.
  - intros agent. destruct (board_size mod 2 =? 0); [reflexivity|discriminate].
Qed.

Lemma hamiltonian_init_even_witness :
  HamiltonianCycleAgent.__init__ 9 4 = Raise AssertionError
  /\ Z.even 10 = true.
Proof.
  split.
  - apply (hamiltonian_init_even 9 4). reflexivity.
  - apply (proj2 (hamiltonian_init_even 10 4)
             {| HamiltonianCycleAgent._board_size := 10;
                HamiltonianCycleAgent._n_actions := 4;
                HamiltonianCycleAgent._cycle :=
                  HamiltonianCycleAgent._get_cycle_square 10 |}).
    reflexivity.
Defined.

(** ** The cycle of the serpentine sweep *)

(** C3: for an even board side of at least 8 the cycle of
    [_get_cycle_square] has [(size - 2) ^ 2] cells, all of them interior;
    every interior cell is at exactly one position of it; and every cell
    is at Manhattan distance 1 from the next one, the last cell from the
    first. *)
Theorem cycle_square_is_hamiltonian (size : Z) :
  8 <= size -> size mod 2 = 0 ->
  let cycle := HamiltonianCycleAgent._get_cycle_square size in
  Z.of_nat (length cycle) = (size - 2) ^ 2
  /\ (forall p, p ∈ cycle -> interior size p)
  /\ (forall row col,
        1 <= row <= size - 2 -> 1 <= col <= size - 2 ->
        exists k, cycle !! k = Some (row * size + col)
                  /\ forall k', cycle !! k' = Some (row * size + col) -> k' = k)
  /\ (forall k a b,
        cycle !! k = Some a ->
        cycle !! ((k + 1) mod length cycle)%nat = Some b ->
        manhattan size a b = 1).
Proof.
  intros Hsize Heven cycle. subst cycle.
  assert (H4 : 4 <= size) by lia.
  split; [|split; [|split]].
  - rewrite cycle_length by assumption. rewrite Z.pow_2_r. nia.
  - intros p Hp. apply list_elem_of_lookup in Hp as [k Hk].
    eapply cycle_lookup; eauto.
  - intros row col Hrow Hcol.
    destruct (cycle_position size H4 Heven (row * size + col))
      as (k & Hk & _ & Huniq).
    + unfold interior. rewrite row_of_rc, col_of_rc by lia. lia.
    + exists k. split; assumption.
  - intros k a b. apply cycle_adjacent; assumption.
Qed.

Lemma cycle_square_is_hamiltonian_witness :
  let cycle := HamiltonianCycleAgent._get_cycle_square 8 in
  Z.of_nat (length cycle) = (8 - 2) ^ 2
  /\ (forall p, p ∈ cycle -> interior 8 p)
  /\ (forall row col,
        1 <= row <= 8 - 2 -> 1 <= col <= 8 - 2 ->
        exists k, cycle !! k = Some (row * 8 + col)
                  /\ forall k', cycle !! k' = Some (row * 8 + col) -> k' = k)
  /\ (forall k a b,
        cycle !! k = Some a ->
        cycle !! ((k + 1) mod length cycle)%nat = Some b ->
        manhattan 8 a b = 1).
Proof. apply (cycle_square_is_hamiltonian 8); [lia | reflexivity]. Defined.

(** ** The traversal decision *)

Lemma find_index_first (cycle : list Z) (cy_len curr : Z) (k : nat) :
  cycle !! k = Some curr ->
  (forall j, cycle !! j = Some curr -> j = k) ->
  Z.of_nat (length cycle) = cy_len ->
  forall fuel i,
    (i <= k)%nat -> (k - i < fuel)%nat ->
    HamiltonianCycleAgent.find_index fuel cycle cy_len curr (Z.of_nat i)
    = Ok (Z.of_nat k).
Proof.
  intros Hk Huniq Hlen fuel.
  pose proof (lookup_lt_Some _ _ _ Hk) as Hklt.
  induction fuel as [|fuel IH]; intros i Hi Hfuel; [lia|].
  cbn [HamiltonianCycleAgent.find_index].
  destruct (cycle !! i) as [x|] eqn:Hx;
    [|apply lookup_ge_None in Hx; lia].
  rewrite (py_get_nat _ _ _ Hx). cbn [obind].
  destruct (Z.eqb_spec x curr) as [->|Hne].
  - apply Huniq in Hx. subst i. reflexivity.
  - assert (i <> k) by (intros ->; congruence).
    rewrite Z.mod_small by lia.
    replace (Z.of_nat i + 1) with (Z.of_nat (S i)) by lia.
    apply IH; lia.
Qed.

Lemma direction_action_unit (dx dy : Z) :
  Z.abs dy + Z.abs dx = 1 ->
  (dx = 1 /\ dy = 0 /\ HamiltonianCycleAgent.direction_action dx dy = 0)
  \/ (dx = 0 /\ dy = 1 /\ HamiltonianCycleAgent.direction_action dx dy = 1)
  \/ (dx = -1 /\ dy = 0 /\ HamiltonianCycleAgent.direction_action dx dy = 2)
  \/ (dx = 0 /\ dy = -1 /\ HamiltonianCycleAgent.direction_action dx dy = 3).
Proof.
  intros H.
  assert (Hcases : (dx = 1 /\ dy = 0) \/ (dx = 0 /\ dy = 1)
                   \/ (dx = -1 /\ dy = 0) \/ (dx = 0 /\ dy = -1)) by lia.
  destruct Hcases as [[-> ->] | [[-> ->] | [[-> ->] | [-> ->]]]];
    cbv; intuition congruence.
Qed.

(** C8: for an agent built by the constructor and a board whose only head
    cell is at position [k] of the cycle, with the cell at the position
    before it not 0 in the current frame, [move] returns the action the
    table gives for the step from the head to the next cell of the cycle:
    0 for (+1, 0), 1 for (0, +1), 2 for (-1, 0), 3 for (0, -1); no other
    vector arises there.  A vector the table does not have gives -1, which
    is none of the actions 0 to 3. *)
Theorem hamiltonian_move_on_cycle
    (fuel : nat) (board_size n_actions : Z) (self : HamiltonianCycleAgent.t)
    (board : board3) (b0 : list (list Z)) (legal_moves : list Z)
    (vals : values) (row col k : nat) (prev cell : Z) :
  let cycle := HamiltonianCycleAgent._cycle self in
  let n := length cycle in
  HamiltonianCycleAgent.__init__ board_size n_actions = Ok self ->
  frame 0 board = Ok b0 ->
  has_shape b0 (Z.to_nat board_size) (Z.to_nat board_size) = true ->
  only_at b0 (v_head vals) row col ->
  cycle !! k = Some (Z.of_nat row * board_size + Z.of_nat col) ->
  cycle !! ((k + n - 1) mod n)%nat = Some prev ->
  py_get3 board (prev / board_size) (prev mod board_size) 0 = Ok cell ->
  cell <> 0 ->
  (n <= fuel)%nat ->
  (exists next action,
     cycle !! ((k + 1) mod n)%nat = Some next
     /\ HamiltonianCycleAgent.move fuel self board legal_moves vals = Ok action
     /\ let dx := next mod board_size - Z.of_nat col in
        let dy := Z.of_nat row - next / board_size in
        (dx = 1 /\ dy = 0 /\ action = 0)
        \/ (dx = 0 /\ dy = 1 /\ action = 1)
        \/ (dx = -1 /\ dy = 0 /\ action = 2)
        \/ (dx = 0 /\ dy = -1 /\ action = 3))
  /\ (forall dx dy,
        (dx, dy) <> (1, 0) -> (dx, dy) <> (0, 1) ->
        (dx, dy) <> (-1, 0) -> (dx, dy) <> (0, -1) ->
        HamiltonianCycleAgent.direction_action dx dy = -1).
Proof.
  intros cycle n Hinit Hframe Hshape Hhead Hk Hprev Hcell Hne Hfuel.
  split.
  2: { intros dx dy H1 H2 H3 H4. unfold HamiltonianCycleAgent.direction_action.
       repeat match goal with
       | |- context [Z.eqb ?a ?b] => destruct (Z.eqb_spec a b); subst
       end; cbn [andb]; congruence. }
  unfold HamiltonianCycleAgent.__init__ in Hinit.
  destruct (Z.eqb_spec (board_size mod 2) 0) as [Heven|]; [|discriminate].
  destruct (Z.leb_spec board_size 0) as [|Hpos]; [discriminate|].
  cbn [negb] in Hinit. injection Hinit as <-.
  cbn [HamiltonianCycleAgent._cycle] in cycle. subst cycle n.
  set (cycle := HamiltonianCycleAgent._get_cycle_square board_size) in *.
  pose proof (lookup_lt_Some _ _ _ Hk) as Hklt.
  assert (H4 : 4 <= board_size).
  { destruct (Z.lt_ge_cases board_size 4) as [Hlt|]; [|assumption].
    pose proof (Z.div_mod board_size 2 ltac:(lia)) as Hdiv.
    assert (board_size = 2) as -> by lia. simpl in Hklt. lia. }
  pose proof (cycle_length board_size) as Hlen. fold cycle in Hlen.
  rewrite Z.pow_2_r in Hlen.
  assert (HlenZ : Z.of_nat (length cycle) = (board_size - 2) ^ 2).
  { rewrite Hlen, Z.pow_2_r. nia. }
  destruct (cycle !! ((k + 1) mod length cycle)%nat) as [next|] eqn:Hnext.
  2: { apply lookup_ge_None in Hnext.
       pose proof (Nat.mod_upper_bound (k + 1) (length cycle)). lia. }
  pose proof (cycle_adjacent board_size H4 Heven k _ _ Hk Hnext) as Hadj.
  pose proof (cycle_lookup board_size H4 Heven _ _ Hk) as [[Hr Hc] _].
  assert (Hcol : 0 <= Z.of_nat col < board_size).
  { split; [lia|]. apply has_shape_spec in Hshape as [_ Hcols].
    destruct Hhead as [Hc2 _]. unfold cell2 in Hc2.
    destruct (b0 !! row) as [brow|] eqn:Hbrow; [|done]. simpl in Hc2.
    apply lookup_lt_Some in Hc2. rewrite (Hcols _ _ Hbrow) in Hc2. lia. }
  unfold manhattan in Hadj. rewrite row_of_rc, col_of_rc in Hadj by lia.
  unfold row_of, col_of in Hadj.
  exists next, (HamiltonianCycleAgent.direction_action
                  (next mod board_size - Z.of_nat col)
                  (- (next / board_size) + Z.of_nat row)).
  split; [reflexivity|]. split.
  - unfold HamiltonianCycleAgent.move.
    cbn [HamiltonianCycleAgent._board_size HamiltonianCycleAgent._cycle].
    fold cycle. rewrite Hframe. cbn [obind].
    rewrite (grid_where_only_at _ _ _ _ _ Hshape Hhead). cbn [obind].
    change 0 with (Z.of_nat 0) at 1.
    rewrite (find_index_first cycle _ _ k Hk); try lia; try assumption.
    2: { intros j Hj. apply (cycle_lookup board_size H4 Heven) in Hj, Hk. lia. }
    cbn [obind].
    replace ((Z.of_nat k - 1) mod (board_size - 2) ^ 2)
      with (Z.of_nat ((k + length cycle - 1) mod length cycle)).
    2: { rewrite <- HlenZ, Nat2Z.inj_mod.
         replace (Z.of_nat (k + length cycle - 1))
           with (Z.of_nat k - 1 + 1 * Z.of_nat (length cycle)) by lia.
         apply Z.mod_add. lia. }
    rewrite (py_get_nat _ _ _ Hprev). cbn [obind].
    replace ((Z.of_nat k + 1) mod (board_size - 2) ^ 2)
      with (Z.of_nat ((k + 1) mod length cycle)).
    2: { rewrite <- HlenZ, Nat2Z.inj_mod. f_equal. lia. }
    rewrite (py_get_nat _ _ _ Hnext). cbn [obind].
    rewrite Hcell. cbn [obind].
    destruct (Z.eqb_spec cell 0); [contradiction|].
    unfold Agent._point_to_row_col.
    rewrite div_rc, mod_rc by lia. reflexivity.
  - cbv zeta.
    replace (- (next / board_size) + Z.of_nat row)
      with (Z.of_nat row - next / board_size) by lia.
    apply direction_action_unit. lia.
Qed.

(** ** Masked arg-max *)

Lemma ext_le_refl x : ext_le x x.
Proof.
  unfold ext_le. destruct x as [|q| |]; try reflexivity. simpl.
  apply negb_false_iff, Qle_bool_iff, Qle_refl.
Qed.

Lemma ext_ltb_le x y : ext_ltb x y = true -> ext_le x y.
Proof.
  unfold ext_le. destruct x as [|a| |], y as [|b| |]; simpl; try done.
  rewrite negb_true_iff, negb_false_iff. intros H.
  apply Qle_bool_iff. apply Qlt_le_weak, Qnot_le_lt.
  intros Hle. apply Qle_bool_iff in Hle. congruence.
Qed.

Lemma ext_le_trans x y z : ext_le x y -> ext_le y z -> ext_le x z.
Proof.
  unfold ext_le.
  destruct x as [|a| |], y as [|b| |], z as [|c| |]; simpl; try done.
  rewrite !negb_false_iff, !Qle_bool_iff. apply Qle_trans.
Qed.

Lemma ext_le_Fin a b : ext_le (Fin a) (Fin b) <-> (a <= b)%Q.
Proof. unfold ext_le. simpl. rewrite negb_false_iff. apply Qle_bool_iff. Qed.

Lemma argmax_from_max (l : list (ext Q)) : forall pre best best_i,
  pre !! best_i = Some best ->
  (forall j w, pre !! j = Some w -> ext_le w best) ->
  exists v,
    (pre ++ l) !! argmax_from best best_i (length pre) l = Some v
    /\ forall j w, (pre ++ l) !! j = Some w -> ext_le w v.
Proof.
  induction l as [|x l IH]; intros pre best best_i Hbest Hmax.
  - exists best. rewrite app_nil_r. split; assumption.
  - cbn [argmax_from].
    replace (pre ++ x :: l) with ((pre ++ [x]) ++ l)
      by (rewrite <- app_assoc; reflexivity).
    replace (S (length pre)) with (length (pre ++ [x]))
      by (rewrite length_app; simpl; lia).
    destruct (ext_ltb best x) eqn:E.
    + apply IH.
      * rewrite lookup_app_r, Nat.sub_diag by lia. reflexivity.
      * intros j w Hj. apply lookup_app_Some in Hj as [Hj | [_ Hj]].
        -- eapply ext_le_trans; [apply (Hmax j); eassumption|].
           apply ext_ltb_le. exact E.
        -- destruct (j - length pre)%nat; [|done].
           injection Hj as <-. apply ext_le_refl.
    + apply IH.
      * apply lookup_app_l_Some. exact Hbest.
      * intros j w Hj. apply lookup_app_Some in Hj as [Hj | [_ Hj]].
        -- apply Hmax in Hj. exact Hj.
        -- destruct (j - length pre)%nat; [|done].
           injection Hj as <-. exact E.
Qed.

Lemma np_argmax_max (l : list (ext Q)) :
  l <> [] ->
  exists n v,
    np_argmax l = Ok (Z.of_nat n) /\ l !! n = Some v
    /\ forall j w, l !! j = Some w -> ext_le w v.
Proof.
  destruct l as [|x l]; [done|]. intros _.
  destruct (argmax_from_max l [x] x 0%nat eq_refl) as (v & Hv & Hmax).
  - intros [|j] w Hj; [|done]. injection Hj as <-. apply ext_le_refl.
  - exists (argmax_from x 0 1 l), v. auto.
Qed.

Lemma ext_ltb_le_trans x y z :
  ext_ltb x y = true -> ext_le y z -> ext_ltb x z = true.
Proof.
  unfold ext_le.
  destruct x as [|a| |], y as [|b| |], z as [|c| |]; simpl; try done.
  rewrite !negb_true_iff, negb_false_iff, Qle_bool_iff.
  intros Hab Hbc. destruct (Qle_bool c a) eqn:E; [|reflexivity].
  apply Qle_bool_iff in E.
  assert (Hba : (b <= a)%Q) by (eapply Qle_trans; eassumption).
  apply Qle_bool_iff in Hba. congruence.
Qed.

(** The scan keeps the first index of the greatest value: every value
    before it is smaller. *)
Lemma argmax_from_first (l : list (ext Q)) : forall pre best best_i,
  pre !! best_i = Some best ->
  (forall j w, pre !! j = Some w -> (j < best_i)%nat ->
               ext_ltb w best = true) ->
  (forall j w, pre !! j = Some w -> ext_le w best) ->
  forall j w,
    (pre ++ l) !! j = Some w ->
    (j < argmax_from best best_i (length pre) l)%nat ->
    exists v, (pre ++ l) !! argmax_from best best_i (length pre) l = Some v
              /\ ext_ltb w v = true.
Proof.
  induction l as [|x l IH]; intros pre best best_i Hbest Hfirst Hmax j w Hj Hlt.
  - cbn [argmax_from] in *. rewrite app_nil_r in *. eauto.
  - cbn [argmax_from] in *.
    revert Hj Hlt.
    replace (pre ++ x :: l) with ((pre ++ [x]) ++ l)
      by (rewrite <- app_assoc; reflexivity).
    replace (S (length pre)) with (length (pre ++ [x]))
      by (rewrite length_app; simpl; lia).
    destruct (ext_ltb best x) eqn:E; intros Hj Hlt.
    + eapply IH; eauto.
      * rewrite lookup_app_r, Nat.sub_diag by lia. reflexivity.
      * intros j' w' Hj' Hlt'. rewrite lookup_app_l in Hj' by lia.
        eapply ext_ltb_le_trans; [|apply ext_le_refl].
        destruct (ext_ltb w' x) eqn:E'; [reflexivity|].
        pose proof (Hmax _ _ Hj') as Hle.
        assert (Hc : ext_ltb best x = false); [|congruence].
        { apply (ext_le_trans x w' best); assumption. }
      * intros j' w' Hj'. apply lookup_app_Some in Hj' as [Hj' | [_ Hj']].
        -- eapply ext_le_trans; [apply (Hmax j'); eassumption|].
           apply ext_ltb_le. exact E.
        -- destruct (j' - length pre)%nat; [|done].
           injection Hj' as <-. apply ext_le_refl.
    + eapply IH; eauto.
      * apply lookup_app_l_Some. exact Hbest.
      * intros j' w' Hj' Hlt'. apply (Hfirst j'); [|exact Hlt'].
        apply lookup_lt_Some in Hbest.
        rewrite lookup_app_l in Hj' by lia. exact Hj'.
      * intros j' w' Hj'. apply lookup_app_Some in Hj' as [Hj' | [_ Hj']].
        -- apply Hmax in Hj'. exact Hj'.
        -- destruct (j' - length pre)%nat; [|done].
           injection Hj' as <-. exact E.
Qed.

Lemma np_argmax_first (l : list (ext Q)) (n : nat) :
  np_argmax l = Ok (Z.of_nat n) ->
  forall j w, l !! j = Some w -> (j < n)%nat ->
    exists v, l !! n = Some v /\ ext_ltb w v = true.
Proof.
  destruct l as [|x l]; [discriminate|]. cbn [np_argmax].
  intros [= Hn] j w Hj Hlt. apply Nat2Z.inj in Hn. subst n.
  apply (argmax_from_first l [x] x 0%nat eq_refl) with (j := j); auto.
  - intros j' w' _ Hlt'. lia.
  - intros [|j'] w' Hj'; [|done]. injection Hj' as <-. apply ext_le_refl.
Qed.

Lemma omapM_Ok {A B} (f : A -> outcome B) (l : list A) :
  (forall i x, l !! i = Some x -> exists y, f x = Ok y) ->
  exists ys,
    omapM f l = Ok ys
    /\ forall i x, l !! i = Some x ->
         exists y, ys !! i = Some y /\ f x = Ok y.
Proof.
  induction l as [|x l IH]; intros Hf.
  - exists []. split; [reflexivity|]. intros i x Hi. done.
  - destruct (Hf 0%nat x eq_refl) as [y Hy].
    destruct IH as (ys & Hys & Hrows).
    { intros i z Hi. apply (Hf (S i)). exact Hi. }
    exists (y :: ys). cbn [omapM]. rewrite Hy, Hys. split; [reflexivity|].
    intros [|i] z Hi; simpl in Hi.
    + injection Hi as <-. exists y. auto.
    + apply Hrows. exact Hi.
Qed.

Lemma has_shape_same {A B} (a : list (list A)) (b : list (list B)) n m :
  has_shape a n m = true -> has_shape b n m = true ->
  DeepQLearningAgent.same_shape a b = true.
Proof.
  intros Ha Hb. apply has_shape_spec in Ha as [Hna Hma].
  apply has_shape_spec in Hb as [Hnb Hmb].
  unfold DeepQLearningAgent.same_shape. apply andb_true_intro. split.
  - apply Nat.eqb_eq. lia.
  - apply forallb_forall. intros [ra rb] Hin.
    apply list_elem_of_In, list_elem_of_lookup in Hin as [i Hi].
    apply lookup_zip_with_Some in Hi as (x & y & Heq & Hx & Hy).
    injection Heq as -> ->. simpl. apply Nat.eqb_eq.
    rewrite (Hma _ _ Hx), (Hmb _ _ Hy). reflexivity.
Qed.

Lemma Qmax_cases (x y : Q) :
  (Qmax x y = x /\ (y <= x)%Q) \/ (Qmax x y = y /\ (x <= y)%Q).
Proof.
  unfold Qmax, GenericMinMax.gmax.
  destruct (Qcompare x y) eqn:E.
  - left. split; [reflexivity|]. apply Qeq_alt in E. rewrite E. apply Qle_refl.
  - right. split; [reflexivity|]. apply Qlt_alt in E. apply Qlt_le_weak, E.
  - left. split; [reflexivity|]. apply Qgt_alt in E. apply Qlt_le_weak, E.
Qed.

Lemma fold_Qmax_spec (l : list Q) : forall x,
  (fold_left Qmax l x = x \/ fold_left Qmax l x ∈ l)
  /\ (x <= fold_left Qmax l x)%Q
  /\ forall y, y ∈ l -> (y <= fold_left Qmax l x)%Q.
Proof.
  induction l as [|z l IH]; intros x; cbn [fold_left].
  - split; [left; reflexivity|]. split; [apply Qle_refl|].
    intros y Hy. inversion Hy.
  - destruct (IH (Qmax x z)) as (Hin & Hge & Hall).
    destruct (Qmax_cases x z) as [[E Hle] | [E Hle]]; rewrite E in *.
    + split; [destruct Hin; [left|right; right]; assumption|].
      split; [assumption|]. intros y Hy.
      apply elem_of_cons in Hy as [->|Hy]; [|auto].
      eapply Qle_trans; eassumption.
    + split; [right; destruct Hin as [->|]; [left|right; assumption]|].
      split; [eapply Qle_trans; eassumption|]. intros y Hy.
      apply elem_of_cons in Hy as [->|Hy]; auto.
Qed.

(** The greatest element of a non-empty row. *)
Lemma np_max_spec (l : list Q) :
  l <> [] ->
  exists m, np_max l = Ok m /\ m ∈ l /\ forall y, y ∈ l -> (y <= m)%Q.
Proof.
  destruct l as [|x l]; [done|]. intros _.
  destruct (fold_Qmax_spec l x) as (Hin & Hge & Hall).
  exists (fold_left Qmax l x). split; [reflexivity|]. split.
  - destruct Hin as [->|]; [left|right; assumption].
  - intros y Hy. apply elem_of_cons in Hy as [->|Hy]; auto.
Qed.

(** ** Action probabilities *)

Lemma fold_Rmax_spec (l : list R) : forall x,
  (fold_left Rmax l x = x \/ fold_left Rmax l x ∈ l)
  /\ (x <= fold_left Rmax l x)%R
  /\ forall y, y ∈ l -> (y <= fold_left Rmax l x)%R.
Proof.
  induction l as [|z l IH]; intros x; cbn [fold_left].
  - split; [left; reflexivity|]. split; [lra|].
    intros y Hy. inversion Hy.
  - destruct (IH (Rmax x z)) as (Hin & Hge & Hall).
    pose proof (Rmax_l x z). pose proof (Rmax_r x z).
    split; [|split].
    + destruct Hin as [Hin|Hin]; [|right; right; assumption].
      rewrite Hin. unfold Rmax. destruct (Rle_dec x z); [right; left|left];
        reflexivity.
    + lra.
    + intros y Hy. apply elem_of_cons in Hy as [->|Hy]; [lra|auto].
Qed.

Lemma Rrow_max_spec (l : list R) :
  l <> [] ->
  exists m, Rrow_max l = Ok m /\ m ∈ l /\ forall y, y ∈ l -> (y <= m)%R.
Proof.
  destruct l as [|x l]; [done|]. intros _.
  destruct (fold_Rmax_spec l x) as (Hin & Hge & Hall).
  exists (fold_left Rmax l x). split; [reflexivity|]. split.
  - destruct Hin as [->|]; [left|right; assumption].
  - intros y Hy. apply elem_of_cons in Hy as [->|Hy]; auto.
Qed.

Lemma np_clip_range (x lo hi : R) :
  (lo <= hi)%R -> (lo <= np_clip x lo hi <= hi)%R.
Proof.
  intros H. unfold np_clip.
  pose proof (Rmin_l (Rmax x lo) hi). pose proof (Rmin_r (Rmax x lo) hi).
  pose proof (Rmax_r x lo).
  split; [|assumption].
  unfold Rmin in *. destruct (Rle_dec (Rmax x lo) hi); lra.
Qed.

Lemma Rsum_scale (l : list R) (s : R) :
  Rsum (map (fun e => (e / s)%R) l) = (Rsum l / s)%R.
Proof.
  induction l as [|x l IH]; simpl.
  - unfold Rdiv. ring.
  - rewrite IH. unfold Rdiv. ring.
Qed.

Lemma Rsum_nonneg (l : list R) :
  (forall x, x ∈ l -> (0 <= x)%R) -> (0 <= Rsum l)%R.
Proof.
  induction l as [|x l IH]; intros H; simpl; [lra|].
  pose proof (H x ltac:(left)).
  pose proof (IH (fun y Hy => H y ltac:(right; exact Hy))). lra.
Qed.

Lemma Rsum_ge_elem (l : list R) (x : R) :
  (forall y, y ∈ l -> (0 <= y)%R) -> x ∈ l -> (x <= Rsum l)%R.
Proof.
  induction l as [|z l IH]; intros Hpos Hx; [inversion Hx|].
  simpl. pose proof (Hpos z ltac:(left)).
  assert (Hl : forall y, y ∈ l -> (0 <= y)%R)
    by (intros y Hy; apply Hpos; right; exact Hy).
  pose proof (Rsum_nonneg l Hl).
  apply elem_of_cons in Hx as [->|Hx]; [lra|].
  pose proof (IH Hl Hx). lra.
Qed.

Lemma exp_le_1 (x : R) : (x <= 0)%R -> (exp x <= 1)%R.
Proof.
  intros [Hlt | ->]; [|rewrite exp_0; lra].
  pose proof (exp_increasing x 0 Hlt) as H. rewrite exp_0 in H. lra.
Qed.

Lemma NaN_elem_dec {A} (l : list (ext A)) : NaN ∈ l \/ NaN ∉ l.
Proof.
  induction l as [|x l [IH|IH]].
  - right. intros H. inversion H.
  - left. right. exact IH.
  - destruct x as [|a| |].
    4: { left. left. }
    all: right; intros H; apply elem_of_cons in H as [H|H];
      [discriminate|contradiction].
Qed.

Lemma clipped_range (x : ext Q) : (-10 <= clipped x <= 10)%R.
Proof.
  destruct x as [|q| |]; simpl; try lra. apply np_clip_range. lra.
Qed.

Lemma ext_clip_row (l : list (ext Q)) :
  NaN ∉ l ->
  map (fun x => ext_clip x (-10) 10) l = map Fin (map clipped l).
Proof.
  induction l as [|x l IH]; intros Hnan; [reflexivity|].
  cbn [map]. rewrite IH by (intros H; apply Hnan; right; exact H).
  f_equal. destruct x as [|q| |]; try reflexivity.
  exfalso. apply Hnan. left.
Qed.

Lemma fold_ext_max_Fin (l : list R) : forall x,
  fold_left ext_max (map Fin l) (Fin x) = Fin (fold_left Rmax l x).
Proof.
  induction l as [|y l IH]; intros x; [reflexivity|]. cbn. apply IH.
Qed.

Lemma ext_row_max_Fin (l : list R) (m : R) :
  Rrow_max l = Ok m -> ext_row_max (map Fin l) = Ok (Fin m).
Proof.
  destruct l as [|x l]; [discriminate|]. cbn. intros [= <-].
  rewrite fold_ext_max_Fin. reflexivity.
Qed.

Lemma ext_sum_Fin (l : list R) : ext_sum (map Fin l) = Fin (Rsum l).
Proof.
  induction l as [|x l IH]; [reflexivity|]. cbn. rewrite IH. reflexivity.
Qed.

Lemma fold_ext_max_NaN (l : list (ext R)) : fold_left ext_max l NaN = NaN.
Proof. induction l as [|x l IH]; [reflexivity|]. exact IH. Qed.

Lemma ext_row_max_NaN (l : list (ext R)) :
  NaN ∈ l -> ext_row_max l = Ok NaN.
Proof.
  destruct l as [|x l]; [intros H; inversion H|]. cbn. intros H. f_equal.
  revert x H. induction l as [|y l IH]; intros x H.
  - apply elem_of_cons in H as [<-|H]; [reflexivity|inversion H].
  - cbn. apply elem_of_cons in H as [<-|H]; [apply fold_ext_max_NaN|].
    apply elem_of_cons in H as [<-|H].
    + replace (ext_max x NaN) with (@NaN R) by (destruct x; reflexivity).
      apply fold_ext_max_NaN.
    + apply IH. right. exact H.
Qed.

(** A row with a NaN: every probability is NaN. *)
Lemma action_proba_row_NaN (model_outputs : list (ext Q)) :
  NaN ∈ model_outputs ->
  exists row,
    DeepQLearningAgent.action_proba_row model_outputs = Ok row
    /\ length row = length model_outputs
    /\ forall p, p ∈ row -> p = NaN.
Proof.
  intros Hnan. unfold DeepQLearningAgent.action_proba_row. cbv zeta.
  rewrite ext_row_max_NaN.
  2: { apply list_elem_of_In, in_map_iff. exists NaN.
       split; [reflexivity|]. apply list_elem_of_In. exact Hnan. }
  cbn [obind]. eexists. split; [reflexivity|]. split.
  - rewrite !length_map. reflexivity.
  - intros p Hp. rewrite !map_map in Hp.
    apply list_elem_of_In, in_map_iff in Hp as (x & <- & _).
    destruct (ext_clip x (-10) 10); reflexivity.
Qed.

(** A row without a NaN: the probabilities are numbers, those of the
    softmax of the clipped outputs. *)
Lemma action_proba_row_spec (model_outputs : list (ext Q)) :
  model_outputs <> [] ->
  NaN ∉ model_outputs ->
  exists m,
    Rrow_max (map clipped model_outputs) = Ok m
    /\ DeepQLearningAgent.action_proba_row model_outputs
       = Ok (map Fin (softmax_clipped m model_outputs))
    /\ (exists x, x ∈ model_outputs /\ m = clipped x)
    /\ (forall x, x ∈ model_outputs ->
          (-10 <= clipped x <= 10)%R
          /\ (-20 <= clipped x - m <= 0)%R
          /\ (0 < exp (clipped x - m) <= 1)%R)
    /\ (1 <= Rsum (map (fun x' => exp (clipped x' - m)) model_outputs))%R.
Proof.
  intros Hne Hnan.
  destruct (Rrow_max_spec (map clipped model_outputs))
    as (m & Hm & Hin & Hmax).
  { destruct model_outputs; [done|discriminate]. }
  exists m. split; [exact Hm|].
  apply list_elem_of_In, in_map_iff in Hin as (xm & Hxm & Hxin).
  apply list_elem_of_In in Hxin.
  assert (Hbounds : forall x, x ∈ model_outputs ->
          (-10 <= clipped x <= 10)%R
          /\ (-20 <= clipped x - m <= 0)%R
          /\ (0 < exp (clipped x - m) <= 1)%R).
  { intros x Hx.
    pose proof (clipped_range x) as Hc.
    pose proof (clipped_range xm) as Hcm.
    assert (clipped x <= m)%R as Hle.
    { apply Hmax. apply list_elem_of_In, in_map_iff. exists x.
      split; [reflexivity|]. apply list_elem_of_In. exact Hx. }
    rewrite Hxm in Hcm.
    split; [exact Hc|]. split; [lra|].
    split; [apply exp_pos|]. apply exp_le_1. lra. }
  assert (Hsum : (1 <= Rsum (map (fun x' => exp (clipped x' - m))
                                model_outputs))%R).
  { replace 1%R with (exp (clipped xm - m)).
    2: { rewrite Hxm, Rminus_diag. apply exp_0. }
    apply Rsum_ge_elem.
    - intros y Hy. apply list_elem_of_In, in_map_iff in Hy as (x & <- & _).
      left. apply exp_pos.
    - apply list_elem_of_In, in_map_iff. exists xm.
      split; [reflexivity|]. apply list_elem_of_In. exact Hxin. }
  split; [|split; [|split]].
  - unfold DeepQLearningAgent.action_proba_row. cbv zeta.
    rewrite (ext_clip_row _ Hnan), (ext_row_max_Fin _ _ Hm). cbn [obind].
    assert (Hexp : forall l : list (ext Q),
      map ext_exp (map (fun x => ext_minus x (Fin m))
                       (map Fin (map clipped l)))
      = map Fin (map (fun x => exp (clipped x - m)) l)).
    { induction l as [|x l IH]; [reflexivity|]. cbn. rewrite IH.
      reflexivity. }
    rewrite Hexp, ext_sum_Fin. unfold softmax_clipped.
    set (S := Rsum _) in *. f_equal. clearbody S. clear -Hsum.
    induction model_outputs as [|x l IH]; [reflexivity|].
    cbn [map]. rewrite IH. f_equal. cbn [ext_div].
    destruct (Req_dec_T S 0) as [H0|_]; [lra|reflexivity].
  - exists xm. split; [exact Hxin | congruence].
  - exact Hbounds.
  - exact Hsum.
Qed.

Lemma softmax_clipped_sum (m : R) (model_outputs : list (ext Q)) :
  (1 <= Rsum (map (fun x' => exp (clipped x' - m)) model_outputs))%R ->
  Rsum (softmax_clipped m model_outputs) = 1%R.
Proof.
  intros Hs. unfold softmax_clipped.
  set (S := Rsum _) in *.
  rewrite <- (map_map (fun x => exp (clipped x - m))
                      (fun e => (e / S)%R)).
  rewrite Rsum_scale. fold S. field. lra.
Qed.

(** [move] returns once the mask has the shape of the outputs and the
    rows are not empty; its entry for a row is the arg-max of the masked
    row, at which no entry of the masked row is greater. *)
Lemma dqn_move_argmax (network : Type)
    (forward : network -> board3 -> list (ext Q))
    (self : DeepQLearningAgent.t network) (board : list board3)
    (legal_moves : list (list Z)) (n m : nat) :
  has_shape legal_moves n m = true ->
  has_shape (DeepQLearningAgent._get_model_outputs network forward board
               (DeepQLearningAgent._model network self)) n m = true ->
  (0 < m)%nat ->
  exists actions,
    DeepQLearningAgent.move network forward self board legal_moves
    = Ok actions
    /\ forall i mask, legal_moves !! i = Some mask ->
         exists a outputs v,
           DeepQLearningAgent._get_model_outputs network forward board
             (DeepQLearningAgent._model network self) !! i = Some outputs
           /\ length mask = m /\ length outputs = m
           /\ actions !! i = Some (Z.of_nat a)
           /\ np_argmax (DeepQLearningAgent.where_legal_inf mask outputs)
              = Ok (Z.of_nat a)
           /\ DeepQLearningAgent.where_legal_inf mask outputs !! a = Some v
           /\ forall j w,
                DeepQLearningAgent.where_legal_inf mask outputs !! j = Some w ->
                ext_le w v.
Proof.
  intros Hlegal Hout Hmpos.
  set (model_outputs :=
         DeepQLearningAgent._get_model_outputs network forward board
           (DeepQLearningAgent._model network self)) in *.
  pose proof (has_shape_same _ _ _ _ Hlegal Hout) as Hsame.
  apply has_shape_spec in Hlegal as [Hn Hm].
  apply has_shape_spec in Hout as [Hn' Hm'].
  assert (Hne : forall mask outputs, length mask = m -> length outputs = m ->
            DeepQLearningAgent.where_legal_inf mask outputs <> []).
  { intros mask outputs H1 H2 Hnil. apply (f_equal length) in Hnil.
    unfold DeepQLearningAgent.where_legal_inf in Hnil.
    rewrite length_zip_with in Hnil. simpl in Hnil. lia. }
  destruct (omapM_Ok
              (fun p => np_argmax
                          (DeepQLearningAgent.where_legal_inf (fst p) (snd p)))
              (zip legal_moves model_outputs)) as (actions & Hmove & Hrows).
  { intros k [ra rb] Hk.
    apply lookup_zip_with_Some in Hk as (x & y & Heq & Hx & Hy).
    injection Heq as -> ->. cbn [fst snd].
    destruct (np_argmax_max (DeepQLearningAgent.where_legal_inf x y))
      as (a & _ & Ha & _); eauto. }
  exists actions. unfold DeepQLearningAgent.move. fold model_outputs.
  rewrite Hsame. split; [exact Hmove|]. intros i mask Hmask.
  destruct (model_outputs !! i) as [outputs|] eqn:Houtputs.
  2: { apply lookup_ge_None in Houtputs. apply lookup_lt_Some in Hmask. lia. }
  destruct (Hrows i (mask, outputs)) as (act & Hact & Harg).
  { apply lookup_zip_with_Some. eauto. }
  cbn [fst snd] in Harg.
  destruct (np_argmax_max (DeepQLearningAgent.where_legal_inf mask outputs))
    as (a & v & Ha & Hv & Hmax); [eauto|].
  rewrite Ha in Harg. injection Harg as <-.
  exists a, outputs, v. eauto 10.
Qed.

Section MaskedMove.

Import DeepQLearningAgent.

Variable network : Type.
Variable forward : network -> board3 -> list (ext Q).

(** C1: when the legality mask has the shape of the network outputs and
    its rows are not empty, [move] returns, and its action for the row
    [i] is the arg-max of the row with the outputs of the illegal actions
    set to minus infinity.  When the row has a legal action whose output
    is not minus infinity, the action returned is one whose mask entry is
    1, and no legal action has a greater output (NaN counting as the
    greatest value).  When the output of every legal action of the row is
    minus infinity, the action returned is 0, whatever its mask entry. *)
Theorem dqn_move_legal (self : t network) (board : list board3)
    (legal_moves : list (list Z)) (n m i : nat) (mask : list Z)
    (outputs : list (ext Q)) :
  has_shape legal_moves n m = true ->
  has_shape (_get_model_outputs network forward board (_model network self))
            n m = true ->
  (0 < m)%nat ->
  legal_moves !! i = Some mask ->
  _get_model_outputs network forward board (_model network self) !! i
    = Some outputs ->
  exists actions a,
    move network forward self board legal_moves = Ok actions
    /\ actions !! i = Some (Z.of_nat a)
    /\ np_argmax (where_legal_inf mask outputs) = Ok (Z.of_nat a)
    /\ ((exists j x, mask !! j = Some 1 /\ outputs !! j = Some x
                     /\ x <> NegInf) ->
        mask !! a = Some 1
        /\ exists q, outputs !! a = Some q
             /\ forall j x, mask !! j = Some 1 -> outputs !! j = Some x ->
                            ext_le x q)
    /\ ((forall j x, mask !! j = Some 1 -> outputs !! j = Some x ->
                     x = NegInf) ->
        a = 0%nat).
Proof.
  intros Hlegal Hout Hmpos Hmask Houtputs.
  destruct (dqn_move_argmax network forward self board legal_moves n m
              Hlegal Hout Hmpos) as (actions & Hmove & Hrows).
  destruct (Hrows i mask Hmask)
    as (a & outputs' & v & Ho & Hl1 & Hl2 & Hact & Harg & Hv & Hmax).
  assert (outputs' = outputs) as -> by congruence.
  exists actions, a. split; [exact Hmove|]. split; [exact Hact|].
  split; [exact Harg|]. split.
  - (* the masked row has an entry other than minus infinity *)
    intros (j & x & Hj & Hx & Hxne).
    assert (Hwj : where_legal_inf mask outputs !! j = Some x).
    { unfold where_legal_inf. rewrite lookup_zip_with, Hj, Hx. reflexivity. }
    pose proof (Hmax j x Hwj) as Hle.
    unfold where_legal_inf in Hv.
    apply lookup_zip_with_Some in Hv as (ma & q & Hveq & Hma & Hq).
    destruct (Z.eqb_spec ma 1) as [->|Hne].
    2: { exfalso. subst v. unfold ext_le in Hle.
         destruct x; simpl in Hle; congruence. }
    subst v. split; [exact Hma|]. exists q. split; [exact Hq|].
    intros k y Hk Hy. apply (Hmax k).
    unfold where_legal_inf. rewrite lookup_zip_with, Hk, Hy. reflexivity.
  - (* every entry of the masked row is minus infinity *)
    intros Hall. destruct a as [|a]; [reflexivity|]. exfalso.
    assert (Hinf : forall j w, where_legal_inf mask outputs !! j = Some w ->
                               w = NegInf).
    { intros j w Hj. unfold where_legal_inf in Hj.
      apply lookup_zip_with_Some in Hj as (x & y & -> & Hx & Hy).
      destruct (Z.eqb_spec x 1) as [->|]; [|reflexivity].
      apply (Hall j y Hx Hy). }
    destruct (where_legal_inf mask outputs !! 0%nat) as [w|] eqn:Hw.
    2: { apply lookup_ge_None in Hw. unfold where_legal_inf in Hw.
         rewrite length_zip_with in Hw. lia. }
    destruct (np_argmax_first _ _ Harg 0%nat w Hw ltac:(lia))
      as (v' & Hv' & Hlt).
    rewrite (Hinf _ _ Hw), (Hinf _ _ Hv') in Hlt. discriminate.
Qed.

End MaskedMove.

Section RegressionTarget.

Import DeepQLearningAgent.

Variable network : Type.
Variable forward : network -> board3 -> list Q.


End RegressionTarget.

Section ActionProbabilities.

Import DeepQLearningAgent.

Variable network : Type.
Variable forward : network -> board3 -> list (ext Q).

(** C4: [get_action_proba] clips the outputs to [-10, 10], subtracts the
    greatest clipped output of the row and takes the softmax of the
    result.  For a batch whose rows of outputs are not empty it returns a
    row of probabilities for every row of outputs.  For a row of outputs
    without a NaN (the infinite outputs are clipped like the others) the
    probabilities are numbers, they sum to 1 and lie in (0, 1]; the
    clipped values lie in [-10, 10], the exponents in [-20, 0], the
    exponentials in (0, 1] and the divisor is at least 1.  For a row with
    a NaN every probability is NaN. *)
Theorem dqn_action_proba_normalised (self : t network) (board : list board3)
    (i : nat) (model_outputs : list (ext Q)) :
  (forall row, row ∈ _get_model_outputs network forward board
                       (_model network self) -> row <> []) ->
  _get_model_outputs network forward board (_model network self) !! i
    = Some model_outputs ->
  exists probabilities row,
    get_action_proba network forward self board = Ok probabilities
    /\ probabilities !! i = Some row
    /\ length row = length model_outputs
    /\ (NaN ∈ model_outputs -> forall p, p ∈ row -> p = NaN)
    /\ (NaN ∉ model_outputs ->
        exists m,
          Rrow_max (map clipped model_outputs) = Ok m
          /\ row = map Fin (softmax_clipped m model_outputs)
          /\ Rsum (softmax_clipped m model_outputs) = 1%R
          /\ (forall p, p ∈ softmax_clipped m model_outputs ->
                (0 < p <= 1)%R)
          /\ (forall x, x ∈ model_outputs ->
                (-10 <= clipped x <= 10)%R
                /\ (-20 <= clipped x - m <= 0)%R
                /\ (0 < exp (clipped x - m) <= 1)%R)
          /\ (1 <= Rsum (map (fun x' => exp (clipped x' - m))
                             model_outputs))%R).
Proof.
  intros Hrows Hi.
  assert (Hrow_ok : forall row,
            row ∈ _get_model_outputs network forward board
                    (_model network self) ->
            exists probs, action_proba_row row = Ok probs).
  { intros row Hrow.
    destruct (NaN_elem_dec row) as [Hnan|Hnan].
    - destruct (action_proba_row_NaN row Hnan) as (probs & Hp & _). eauto.
    - destruct (action_proba_row_spec row (Hrows row Hrow) Hnan)
        as (m & _ & Hp & _). eauto. }
  destruct (omapM_Ok action_proba_row
              (_get_model_outputs network forward board (_model network self)))
    as (probabilities & Hprob & Hget).
  { intros j row Hj. apply Hrow_ok, list_elem_of_lookup. eauto. }
  destruct (Hget i _ Hi) as (row & Hrow & Heq).
  exists probabilities, row. unfold get_action_proba.
  split; [exact Hprob|]. split; [exact Hrow|].
  assert (Hne : model_outputs <> []).
  { apply Hrows, list_elem_of_lookup. eauto. }
  split; [|split].
  - destruct (NaN_elem_dec model_outputs) as [Hnan|Hnan].
    + destruct (action_proba_row_NaN _ Hnan) as (row' & Hr & Hlen & _).
      congruence.
    + destruct (action_proba_row_spec _ Hne Hnan) as (m & _ & Hr & _).
      rewrite Hr in Heq. injection Heq as <-.
      unfold softmax_clipped. rewrite !length_map. reflexivity.
  - intros Hnan p Hp.
    destruct (action_proba_row_NaN _ Hnan) as (row' & Hr & _ & Hall).
    rewrite Hr in Heq. injection Heq as <-. apply Hall. exact Hp.
  - intros Hnan.
    destruct (action_proba_row_spec _ Hne Hnan)
      as (m & Hm & Hspec & _ & Hbounds & Hsum).
    rewrite Hspec in Heq. injection Heq as <-.
    exists m. split; [exact Hm|]. split; [reflexivity|].
    split; [apply softmax_clipped_sum; exact Hsum|].
    split; [|split; assumption].
    intros p Hp. unfold softmax_clipped in Hp.
    apply list_elem_of_In, in_map_iff in Hp as (x & <- & Hx).
    apply list_elem_of_In in Hx.
    destruct (Hbounds x Hx) as (_ & _ & Hpos & Hle).
    set (S := Rsum _) in *. set (e := exp _) in *.
    assert (0 < / S)%R by (apply Rinv_0_lt_compat; lra).
    assert (/ S <= 1)%R.
    { rewrite <- Rinv_1. apply Rinv_le_contravar; lra. }
    unfold Rdiv. split; [apply Rmult_lt_0_compat; assumption|].
    replace 1%R with (1 * 1)%R by ring.
    apply Rmult_le_compat; lra.
Qed.

End ActionProbabilities.

(** ** The policy-gradient loss *)

Lemma zip_with_fmap_same {A B C D} (f : B -> C -> D) (g : A -> B)
    (h : A -> C) (l : list A) :
  zip_with f (g <$> l) (h <$> l) = (fun x => f (g x) (h x)) <$> l.
Proof. induction l as [|x l IH]; [reflexivity|]. cbn. rewrite IH. reflexivity. Qed.

Lemma Rsum_exp_pos (l : list R) : l <> [] -> (0 < Rsum (exp <$> l))%R.
Proof.
  destruct l as [|x l]; [done|]. intros _. cbn.
  assert (0 <= Rsum (exp <$> l))%R.
  { apply Rsum_nonneg. intros y Hy.
    apply list_elem_of_fmap in Hy as (z & -> & _). left. apply exp_pos. }
  pose proof (exp_pos x). lra.
Qed.

(** The log-softmax is the logarithm of the softmax. *)
Lemma log_softmax_ln (logits : list R) (j : nat) (x : R) :
  logits !! j = Some x ->
  log_softmax logits !! j = Some (x - ln (Rsum (exp <$> logits)))%R
  /\ softmax logits !! j = Some (exp x / Rsum (exp <$> logits))%R
  /\ ln (exp x / Rsum (exp <$> logits)) = (x - ln (Rsum (exp <$> logits)))%R.
Proof.
  intros Hx. unfold log_softmax, softmax.
  rewrite !list_lookup_fmap, Hx. cbn. split; [reflexivity|].
  split; [reflexivity|].
  assert (0 < Rsum (exp <$> logits))%R.
  { apply Rsum_exp_pos. intros ->. done. }
  unfold Rdiv. rewrite ln_mult.
  - rewrite ln_Rinv, ln_exp by assumption. ring.
  - apply exp_pos.
  - apply Rinv_0_lt_compat. assumption.
Qed.

Section PolicyGradient.

Import PolicyGradientAgent.

Variable network : Type.
Variable logits_of : network -> board3 -> list R.
Variable buffer : Type.
Variable sample : buffer -> Z -> list board3 * list Z * list R.
Variable get_current_size : buffer -> Z.
Variable optimizer_step : (network -> outcome R) -> network -> network.

Abbreviation agent := (t network buffer).
Abbreviation train := (train_agent network logits_of buffer sample
                         get_current_size optimizer_step).

Lemma selected_log_probs_ln (model : network) (states : list board3)
    (actions : list Z) :
  length actions = length states ->
  (forall i s a, states !! i = Some s -> actions !! i = Some a ->
     0 <= a < Z.of_nat (length (logits_of model s))) ->
  exists taken,
    selected_log_probs_of (log_softmax <$> (logits_of model <$> states))
      actions = Ok taken
    /\ forall i s a, states !! i = Some s -> actions !! i = Some a ->
         exists p, softmax (logits_of model s) !! Z.to_nat a = Some p
                   /\ taken !! i = Some (ln p).
Proof.
  intros Hlen Hrange.
  assert (Hg : forall i s a, states !! i = Some s -> actions !! i = Some a ->
     exists p, softmax (logits_of model s) !! Z.to_nat a = Some p
               /\ gather (log_softmax (logits_of model s)) a = Ok (ln p)).
  { intros i s a Hs Ha. specialize (Hrange i s a Hs Ha).
    destruct (logits_of model s !! Z.to_nat a) as [x|] eqn:Hx.
    2: { apply lookup_ge_None in Hx. lia. }
    destruct (log_softmax_ln _ _ _ Hx) as (Hls & Hsm & Hln).
    eexists. split; [exact Hsm|]. unfold gather.
    destruct (Z.ltb_spec a 0); [lia|]. rewrite Hls, Hln. reflexivity. }
  destruct (omapM_Ok (fun p => gather (fst p) (snd p))
              (zip (log_softmax <$> (logits_of model <$> states)) actions))
    as (taken & Htaken & Hrows).
  { intros i [lp a] Hi.
    apply lookup_zip_with_Some in Hi as (lp' & a' & Heq & Hlp & Ha).
    injection Heq as -> ->.
    rewrite !list_lookup_fmap in Hlp.
    destruct (states !! i) as [s|] eqn:Hs; [|done].
    cbn in Hlp. injection Hlp as <-.
    destruct (Hg i s a' Hs Ha) as (p & _ & Hp). eauto. }
  exists taken. split; [exact Htaken|].
  intros i s a Hs Ha. destruct (Hg i s a Hs Ha) as (p & Hp & Hgp).
  exists p. split; [exact Hp|].
  destruct (Hrows i (log_softmax (logits_of model s), a)) as (y & Hy & Hgy).
  { apply lookup_zip_with_Some. eexists _, _. split; [reflexivity|].
    split; [|exact Ha]. rewrite !list_lookup_fmap, Hs. reflexivity. }
  cbn [fst snd] in Hgy. rewrite Hgp in Hgy. injection Hgy as <-. exact Hy.
Qed.


(** For a negative [beta] the guard [if beta > 0] leaves the entropy term
    out: the loss is the one computed for [beta = 0]. *)
Lemma loss_of_negative_beta (beta : R) (normalize_rewards : bool)
    (states : list board3) (actions : list Z) (rewards : list R)
    (model : network) :
  (beta < 0)%R ->
  loss_of network logits_of beta normalize_rewards states actions rewards
    model
  = loss_of network logits_of 0 normalize_rewards states actions rewards
      model.
Proof.
  intros Hbeta. unfold loss_of. cbv zeta.
  destruct (Rlt_dec 0 beta) as [H|_]; [lra|].
  destruct (Rlt_dec 0 0) as [H|_]; [lra|]. reflexivity.
Qed.

End PolicyGradient.

Lemma pg_example_entropy : spec_entropy [[0; 0]%R] = ln 2.
Proof.
  unfold spec_entropy, Rmean, softmax, log_softmax. cbn.
  rewrite exp_0. replace (1 + (1 + 0))%R with 2%R by ring. field.
Qed.


(** ** Breadth-first search *)

Section SearchFuel.

Import BreadthFirstSearchAgent.

Variable bs : Z.
Variable vals : values.
Variable board : list (list Z).

(** More fuel does not change what a loop returns. *)
Lemma search_fuel_mono (fuel : nat) : forall fuel' st r,
  (fuel <= fuel')%nat ->
  search fuel bs vals board st = Ok r ->
  search fuel' bs vals board st = Ok r.
Proof.
  induction fuel as [|fuel IH]; intros fuel' st r Hle H; [discriminate|].
  destruct fuel' as [|fuel']; [lia|].
  cbn [search] in *.
  destruct (points_to_search st) as [|curr queue]; [exact H|].
  destruct (Agent._point_to_row_col bs curr) as [curr_row curr_col].
  destruct (_get_neighbors bs curr vals board) as [n| |];
    cbn [obind] in *; try discriminate.
  destruct n as [|p n].
  - apply IH; [lia|exact H].
  - destruct (visit_neighbors bs vals board curr_row curr_col (p :: n) _)
      as [st'| |]; cbn [obind] in *; try discriminate.
    destruct (found st'); [exact H|]. apply IH; [lia|exact H].
Qed.

Lemma reconstruct_fuel_mono (dist : list (list distance)) (fuel : nat) :
  forall fuel' curr_point path r,
  (fuel <= fuel')%nat ->
  reconstruct fuel bs vals board dist curr_point path = Ok r ->
  reconstruct fuel' bs vals board dist curr_point path = Ok r.
Proof.
  induction fuel as [|fuel IH]; intros fuel' curr path r Hle H; [discriminate|].
  destruct fuel' as [|fuel']; [lia|].
  cbn [reconstruct] in *.
  destruct (Agent._point_to_row_col bs curr) as [curr_row curr_col].
  destruct (py_get2 dist curr_row curr_col) as [d| |];
    cbn [obind] in *; try discriminate.
  destruct d as [|x]; [exact H|].
  destruct (x =? 0); [exact H|].
  destruct (_get_neighbors bs curr vals board) as [n| |];
    cbn [obind] in *; try discriminate.
  destruct (closer_neighbor bs dist x n) as [next| |];
    cbn [obind] in *; try discriminate.
  destruct next; (apply IH; [lia|exact H]).
Qed.

End SearchFuel.

Lemma get_shortest_path_fuel_mono (fuel fuel' : nat)
    (self : BreadthFirstSearchAgent.t) (board : board3) (vals : values)
    (path : list Z) :
  (fuel <= fuel')%nat ->
  BreadthFirstSearchAgent._get_shortest_path fuel self board vals = Ok path ->
  BreadthFirstSearchAgent._get_shortest_path fuel' self board vals = Ok path.
Proof.
  intros Hle. unfold BreadthFirstSearchAgent._get_shortest_path,
    BreadthFirstSearchAgent.search_food.
  destruct (frame 0 board) as [b| |]; cbn [obind]; try discriminate.
  destruct (Agent.grid_where _ b (v_head vals)) as [head| |];
    cbn [obind]; try discriminate.
  destruct (BreadthFirstSearchAgent.initial_state _ head) as [st| |];
    cbn [obind]; try discriminate.
  destruct (BreadthFirstSearchAgent.search fuel _ vals b st) as [r| |] eqn:Hs;
    cbn [obind]; try discriminate.
  rewrite (search_fuel_mono _ _ _ _ _ _ _ Hle Hs). cbn [obind].
  destruct (Agent.grid_where _ b (v_food vals)) as [food| |];
    cbn [obind]; try discriminate.
  apply reconstruct_fuel_mono. exact Hle.
Qed.

Lemma move_one_fuel_mono (fuel fuel' : nat)
    (self : BreadthFirstSearchAgent.t) (board : board3) (vals : values)
    (action : Z) :
  (fuel <= fuel')%nat ->
  BreadthFirstSearchAgent.move_one fuel self board vals = Ok action ->
  BreadthFirstSearchAgent.move_one fuel' self board vals = Ok action.
Proof.
  intros Hle. unfold BreadthFirstSearchAgent.move_one.
  destruct (BreadthFirstSearchAgent._get_shortest_path fuel self board vals)
    as [path| |] eqn:Hp; cbn [obind]; try discriminate.
  rewrite (get_shortest_path_fuel_mono _ _ _ _ _ _ Hle Hp). cbn [obind].
  auto.
Qed.

(** ** The search that does not reach the food *)

Lemma point_div_mod (bs r c : Z) :
  0 <= c < bs -> Agent._point_to_row_col bs (r * bs + c) = (r, c).
Proof.
  intros Hc. unfold Agent._point_to_row_col.
  rewrite Z.div_add_l, Z.div_small by lia.
  rewrite (Z.add_comm (r * bs) c), Z.mod_add, Z.mod_small by lia.
  f_equal. lia.
Qed.

Lemma py_index_length {A B} (a : list A) (b : list B) (i : Z) :
  length a = length b -> py_index a i = py_index b i.
Proof. intros H. unfold py_index. rewrite H. reflexivity. Qed.

Lemma py_get2_inv {A} (a : list (list A)) (i j : Z) (x : A) :
  py_get2 a i j = Ok x ->
  exists r c row,
    py_index a i = Some r /\ a !! r = Some row
    /\ py_index row j = Some c /\ row !! c = Some x.
Proof.
  unfold py_get2, py_get. intros H.
  destruct (py_index a i) as [r|]; [|discriminate].
  destruct (a !! r) as [row|] eqn:Hrow; [|discriminate].
  cbn [obind] in H.
  destruct (py_index row j) as [c|] eqn:Hc; [|discriminate].
  destruct (row !! c) as [y|] eqn:Hy; [|discriminate].
  injection H as ->. exists r, c, row. auto.
Qed.

Lemma py_set2_inv {A} (a a' : list (list A)) (i j : Z) (x : A) :
  py_set2 a i j x = Ok a' ->
  exists r c row,
    py_index a i = Some r /\ a !! r = Some row
    /\ py_index row j = Some c /\ a' = <[r := <[c := x]> row]> a.
Proof.
  unfold py_set2. intros H.
  destruct (py_index a i) as [r|]; [|discriminate].
  destruct (a !! r) as [row|] eqn:Hrow; [|discriminate].
  destruct (py_index row j) as [c|] eqn:Hc; [|discriminate].
  injection H as <-. exists r, c, row. auto.
Qed.

Section Unreachable.

Import BreadthFirstSearchAgent.

Variable bs : Z.
Variable vals : values.
Variable board : list (list Z).
Variable n : nat.

Hypothesis board_square : square n board.

Lemma set_distance_off_food dist dist' (i j : Z) (d : distance) (cell : Z) :
  finite_off_food vals board n dist ->
  py_set2 dist i j d = Ok dist' ->
  py_get2 board i j = Ok cell ->
  cell <> v_food vals ->
  finite_off_food vals board n dist'.
Proof.
  intros [[Hlen Hrows] Hfin] Hset Hget Hcell.
  apply py_set2_inv in Hset as (r & c & row & Hr & Hrow & Hc & ->).
  apply py_get2_inv in Hget as (r' & c' & brow & Hr' & Hbrow & Hc' & Hcellv).
  destruct board_square as [Hblen Hbrows].
  rewrite (py_index_length board dist) in Hr' by lia.
  assert (r' = r) as -> by congruence.
  rewrite (py_index_length brow row) in Hc'
    by (rewrite (Hbrows _ _ Hbrow), (Hrows _ _ Hrow); reflexivity).
  assert (c' = c) as -> by congruence.
  split.
  - split; [rewrite length_insert; exact Hlen|].
    intros r0 row0 H0. destruct (decide (r = r0)) as [<-|Hne].
    + rewrite list_lookup_insert_eq in H0
        by (eapply lookup_lt_Some; eauto).
      injection H0 as <-. rewrite length_insert. eauto.
    + rewrite list_lookup_insert_ne in H0 by assumption. eauto.
  - intros r0 c0 drow x H0 Hx. destruct (decide (r = r0)) as [<-|Hne].
    + rewrite list_lookup_insert_eq in H0
        by (eapply lookup_lt_Some; eauto).
      injection H0 as <-. destruct (decide (c = c0)) as [<-|Hnec].
      * unfold cell2. rewrite Hbrow. cbn. rewrite Hcellv. congruence.
      * rewrite list_lookup_insert_ne in Hx by assumption. eauto.
    + rewrite list_lookup_insert_ne in H0 by assumption. eauto.
Qed.

Lemma visit_neighbors_off_food (curr_row curr_col : Z) (nbrs : list Z) :
  forall st st',
  finite_off_food vals board n (distances st) ->
  visit_neighbors bs vals board curr_row curr_col nbrs st = Ok st' ->
  found st' = false ->
  finite_off_food vals board n (distances st').
Proof.
  induction nbrs as [|p nbrs IH]; intros st st' Hinv Hvisit Hfound.
  - injection Hvisit as <-. exact Hinv.
  - cbn [visit_neighbors] in Hvisit.
    destruct (Agent._point_to_row_col bs p) as [row col].
    destruct (py_get2 (distances st) row col) as [d| |];
      cbn [obind] in Hvisit; try discriminate.
    destruct (py_get2 (distances st) curr_row curr_col) as [d_curr| |];
      cbn [obind] in Hvisit; try discriminate.
    assert (Htail : forall dist,
      finite_off_food vals board n (distances st) ->
      (forall cell, py_get2 board row col = Ok cell ->
         cell <> v_food vals -> finite_off_food vals board n dist) ->
      (cell <~ py_get2 board row col;
       if cell =? v_food vals then
         Ok {| points_to_search := points_to_search st;
               distances := dist;
               visited := visited st;
               found := true |}
       else
         v <~ py_get2 (visited st) row col;
         if v =? 0 then
           vis <~ py_set2 (visited st) curr_row curr_col 1;
           visit_neighbors bs vals board curr_row curr_col nbrs
             {| points_to_search := points_to_search st ++ [p];
                distances := dist;
                visited := vis;
                found := false |}
         else
           visit_neighbors bs vals board curr_row curr_col nbrs
             {| points_to_search := points_to_search st;
                distances := dist;
                visited := visited st;
                found := false |}) = Ok st' ->
      finite_off_food vals board n (distances st')).
    { intros dist _ Hdist Hrest.
      destruct (py_get2 board row col) as [cell| |];
        cbn [obind] in Hrest; try discriminate.
      destruct (Z.eqb_spec cell (v_food vals)) as [Heq|Hne].
      { injection Hrest as <-. discriminate. }
      specialize (Hdist cell eq_refl Hne).
      destruct (py_get2 (visited st) row col) as [v| |];
        cbn [obind] in Hrest; try discriminate.
      destruct (v =? 0).
      - destruct (py_set2 (visited st) curr_row curr_col 1) as [vis| |];
          cbn [obind] in Hrest; try discriminate.
        eapply IH; [|exact Hrest|exact Hfound]. exact Hdist.
      - eapply IH; [|exact Hrest|exact Hfound]. exact Hdist. }
    destruct (distance_gtb d (distance_succ d_curr)).
    + destruct (py_set2 (distances st) row col (distance_succ d_curr))
        as [dist| |] eqn:Hset; cbn [obind] in Hvisit; try discriminate.
      apply (Htail dist Hinv); [|exact Hvisit].
      intros cell Hcell Hne. eapply set_distance_off_food; eauto.
    + cbn [obind] in Hvisit. apply (Htail (distances st) Hinv); [|exact Hvisit].
      intros _ _ _. exact Hinv.
Qed.

Lemma search_off_food (fuel : nat) : forall st dist,
  finite_off_food vals board n (distances st) ->
  search fuel bs vals board st = Ok (false, dist) ->
  finite_off_food vals board n dist.
Proof.
  induction fuel as [|fuel IH]; intros st dist Hinv Hsearch; [discriminate|].
  cbn [search] in Hsearch.
  destruct (points_to_search st) as [|curr queue].
  { injection Hsearch as <-. exact Hinv. }
  destruct (Agent._point_to_row_col bs curr) as [curr_row curr_col].
  destruct (_get_neighbors bs curr vals board) as [nbrs| |];
    cbn [obind] in Hsearch; try discriminate.
  destruct nbrs as [|p nbrs].
  - eapply IH; [|exact Hsearch]. exact Hinv.
  - destruct (visit_neighbors bs vals board curr_row curr_col (p :: nbrs) _)
      as [st'| |] eqn:Hvisit; cbn [obind] in Hsearch; try discriminate.
    destruct (found st') eqn:Hfound; [discriminate|].
    eapply IH; [|exact Hsearch].
    eapply visit_neighbors_off_food; [|exact Hvisit|exact Hfound].
    exact Hinv.
Qed.

End Unreachable.

Lemma py_get2_nat {A} (a : list (list A)) (r c : nat) (row : list A) (x : A) :
  a !! r = Some row -> row !! c = Some x ->
  py_get2 a (Z.of_nat r) (Z.of_nat c) = Ok x.
Proof.
  intros Hr Hc. unfold py_get2. rewrite (py_get_nat _ _ _ Hr). cbn [obind].
  apply py_get_nat. exact Hc.
Qed.

Lemma cell2_py_get2 (b : list (list Z)) (r c : nat) (x : Z) :
  cell2 b r c = Some x -> py_get2 b (Z.of_nat r) (Z.of_nat c) = Ok x.
Proof.
  unfold cell2. intros H. destruct (b !! r) as [row|] eqn:Hrow; [|done].
  cbn in H. eapply py_get2_nat; eauto.
Qed.

Lemma only_at_range (b : list (list Z)) (v : Z) (row col n : nat) :
  has_shape b n n = true -> only_at b v row col ->
  (row < n)%nat /\ (col < n)%nat.
Proof.
  intros Hshape [Hcell _]. apply has_shape_spec in Hshape as [Hlen Hrows].
  unfold cell2 in Hcell. destruct (b !! row) as [brow|] eqn:Hbrow; [|done].
  cbn in Hcell. apply lookup_lt_Some in Hcell.
  rewrite (Hrows _ _ Hbrow) in Hcell.
  apply lookup_lt_Some in Hbrow. lia.
Qed.

(** The search starts with a finite distance at the head only. *)
Lemma initial_state_off_food (bs : Z) (vals : values) (b : list (list Z))
    (head_row head_col : nat) st :
  has_shape b (Z.to_nat bs) (Z.to_nat bs) = true ->
  only_at b (v_head vals) head_row head_col ->
  v_head vals <> v_food vals ->
  BreadthFirstSearchAgent.initial_state bs
    (Z.of_nat head_row * bs + Z.of_nat head_col) = Ok st ->
  finite_off_food vals b (Z.to_nat bs) (BreadthFirstSearchAgent.distances st).
Proof.
  intros Hshape Hhead Hne Hinit.
  pose proof (only_at_range _ _ _ _ _ Hshape Hhead) as [Hr Hc].
  apply has_shape_spec in Hshape.
  unfold BreadthFirstSearchAgent.initial_state in Hinit.
  rewrite point_div_mod in Hinit by lia.
  destruct (py_set2 (replicate (Z.to_nat bs) (replicate (Z.to_nat bs) Inf))
              (Z.of_nat head_row) (Z.of_nat head_col) (Steps 0))
    as [dist| |] eqn:Hset; cbn [obind] in Hinit; try discriminate.
  destruct (py_set2 (replicate (Z.to_nat bs) (replicate (Z.to_nat bs) 0))
              (Z.of_nat head_row) (Z.of_nat head_col) 1)
    as [vis| |]; cbn [obind] in Hinit; try discriminate.
  injection Hinit as <-. cbn [BreadthFirstSearchAgent.distances].
  eapply (set_distance_off_food vals b (Z.to_nat bs) Hshape);
    [| exact Hset | apply cell2_py_get2, Hhead | exact Hne].
  split.
  - split; [apply length_replicate|].
    intros r row Hrow. apply lookup_replicate in Hrow as [-> _].
    apply length_replicate.
  - intros r c drow x Hrow Hx. apply lookup_replicate in Hrow as [-> _].
    apply lookup_replicate in Hx as [Hx _]. discriminate.
Qed.

(** On a board with one head cell and one food cell, when the search
    ends with an empty queue and the food not found, or leaves the
    distance of the food cell infinite, [_get_shortest_path] returns the
    empty path, with the fuel of the search or more, and [move] returns
    the action 1 for that board. *)
Lemma shortest_path_not_found (fuel : nat) (self : BreadthFirstSearchAgent.t)
    (board : board3) (b : list (list Z)) (vals : values)
    (head_row head_col food_row food_col : nat)
    (flag : bool) (dist : list (list distance))
    (legal_moves : list (list Z)) :
  let n := Z.to_nat (BreadthFirstSearchAgent._board_size self) in
  frame 0 board = Ok b ->
  has_shape b n n = true ->
  only_at b (v_head vals) head_row head_col ->
  only_at b (v_food vals) food_row food_col ->
  v_head vals <> v_food vals ->
  BreadthFirstSearchAgent.search_food fuel self b vals = Ok (flag, dist) ->
  flag = false
  \/ py_get2 dist (Z.of_nat food_row) (Z.of_nat food_col) = Ok Inf ->
  forall fuel', (fuel <= fuel')%nat ->
  BreadthFirstSearchAgent._get_shortest_path fuel' self board vals = Ok []
  /\ BreadthFirstSearchAgent.move fuel' self (Single board) legal_moves vals
     = Ok [1]
  /\ BreadthFirstSearchAgent.move fuel' self (Batch [board]) legal_moves vals
     = Ok [1]
  /\ forall rest actions,
       BreadthFirstSearchAgent.move fuel' self (Batch (board :: rest))
         legal_moves vals = Ok actions ->
       actions !! 0%nat = Some 1.
Proof.
  intros n Hframe Hshape Hhead Hfood Hne Hsearch Hcase fuel' Hfuel. subst n.
  set (bs := BreadthFirstSearchAgent._board_size self) in *.
  pose proof (only_at_range _ _ _ _ _ Hshape Hfood) as [Hfr Hfc].
  assert (Hinf : py_get2 dist (Z.of_nat food_row) (Z.of_nat food_col) = Ok Inf).
  { destruct Hcase as [-> | H]; [|exact H].
    unfold BreadthFirstSearchAgent.search_food in Hsearch. fold bs in Hsearch.
    rewrite (grid_where_only_at _ _ _ _ _ Hshape Hhead) in Hsearch.
    cbn [obind] in Hsearch.
    destruct (BreadthFirstSearchAgent.initial_state bs _) as [st| |] eqn:Hinit;
      cbn [obind] in Hsearch; try discriminate.
    pose proof (initial_state_off_food _ _ _ _ _ _ Hshape Hhead Hne Hinit)
      as Hinv.
    pose proof Hshape as Hsq. apply has_shape_spec in Hsq.
    pose proof (search_off_food bs vals b (Z.to_nat bs) Hsq fuel st dist
                  Hinv Hsearch) as [[Hlen Hrows] Hfin].
    destruct (dist !! food_row) as [drow|] eqn:Hdrow.
    2: { apply lookup_ge_None in Hdrow. lia. }
    destruct (drow !! food_col) as [d|] eqn:Hd.
    2: { apply lookup_ge_None in Hd. rewrite (Hrows _ _ Hdrow) in Hd. lia. }
    rewrite (py_get2_nat _ _ _ _ _ Hdrow Hd). destruct d as [|x]; [reflexivity|].
    exfalso. apply (Hfin _ _ _ _ Hdrow Hd). apply Hfood. }
  assert (Hpath : BreadthFirstSearchAgent._get_shortest_path fuel self board vals
                  = Ok []).
  { unfold BreadthFirstSearchAgent._get_shortest_path. fold bs.
    rewrite Hframe. cbn [obind]. rewrite Hsearch. cbn [obind snd].
    rewrite (grid_where_only_at _ _ _ _ _ Hshape Hfood). cbn [obind].
    destruct fuel as [|fuel].
    { unfold BreadthFirstSearchAgent.search_food in Hsearch.
      destruct (Agent.grid_where _ b (v_head vals)); cbn [obind] in Hsearch;
        try discriminate.
      destruct (BreadthFirstSearchAgent.initial_state _ a);
        cbn [obind] in Hsearch; discriminate. }
    cbn [BreadthFirstSearchAgent.reconstruct].
    rewrite point_div_mod by lia. rewrite Hinf. reflexivity. }
  apply (get_shortest_path_fuel_mono fuel fuel') in Hpath; [|exact Hfuel].
  assert (Hone : BreadthFirstSearchAgent.move_one fuel' self board vals = Ok 1).
  { unfold BreadthFirstSearchAgent.move_one. rewrite Hpath. reflexivity. }
  split; [exact Hpath|].
  unfold BreadthFirstSearchAgent.move. cbn [omapM]. rewrite Hone.
  cbn [obind]. split; [reflexivity|]. split; [reflexivity|].
  intros rest actions.
  destruct (omapM _ rest) as [ys| |]; cbn [obind]; try discriminate.
  intros [= <-]. reflexivity.
Qed.

(** ** Instances *)

Lemma dqn_move_legal_witness :
  exists actions a,
    DeepQLearningAgent.move unit dqn_float_forward dqn_example_agent
      [[]] [[1; 0; 1]] = Ok actions
    /\ actions !! 0%nat = Some (Z.of_nat a)
    /\ [1; 0; 1] !! a = Some 1.
Proof.
  destruct (dqn_move_legal unit dqn_float_forward dqn_example_agent
              [[]] [[1; 0; 1]] 1 3 0 [1; 0; 1] [Fin 1; Fin 5; Fin 3]%Q)
    as (actions & a & H1 & H2 & _ & H4 & _);
    [reflexivity | reflexivity | lia | reflexivity | reflexivity |].
  exists actions, a. split; [exact H1|]. split; [exact H2|].
  apply H4. exists 0%nat, (Fin 1%Q).
  split; [reflexivity|]. split; [reflexivity|discriminate].
Defined.

(** C1, as stated, fails for outputs of minus infinity: with the outputs
    [0, -inf, -inf] and the mask [0, 1, 1] the masked row is minus
    infinity throughout, and [move] returns the action 0, whose mask
    entry is 0, although the actions 1 and 2 are legal. *)
Lemma dqn_move_minus_infinity :
  DeepQLearningAgent.move unit dqn_minus_infinity_forward dqn_example_agent
    [[]] [[0; 1; 1]] = Ok [0]
  /\ [0; 1; 1] !! 1%nat = Some 1
  /\ [0; 1; 1] !! 0%nat = Some 0.
Proof. split; [reflexivity|]. split; reflexivity. Qed.


Lemma dqn_action_proba_normalised_witness :
  exists probabilities row m,
    DeepQLearningAgent.get_action_proba unit proba_example_forward
      dqn_example_agent [[]] = Ok probabilities
    /\ probabilities !! 0%nat = Some row
    /\ row = map Fin (softmax_clipped m [Fin 1; PosInf; Fin (-30)]%Q)
    /\ Rsum (softmax_clipped m [Fin 1; PosInf; Fin (-30)]%Q) = 1%R.
Proof.
  destruct (dqn_action_proba_normalised unit proba_example_forward
              dqn_example_agent [[]] 0 [Fin 1; PosInf; Fin (-30)]%Q)
    as (probabilities & row & H1 & H2 & _ & _ & H5).
  - intros row Hrow. cbn in Hrow. apply list_elem_of_singleton in Hrow.
    subst row. discriminate.
  - reflexivity.
  - destruct H5 as (m & _ & Hrow & Hsum & _).
    { intros H. repeat (apply elem_of_cons in H as [H|H]; [discriminate|]).
      inversion H. }
    exists probabilities, row, m. auto.
Defined.

(** C4, as stated, fails for an output that is NaN: the clipping leaves a
    NaN as it is, and with the outputs [nan, 0, 0] every probability of
    the row is NaN. *)
Lemma dqn_action_proba_nan :
  DeepQLearningAgent.get_action_proba unit dqn_nan_forward dqn_example_agent
    [[]] = Ok [[NaN; NaN; NaN]].
Proof. reflexivity. Qed.


Lemma hamiltonian_move_on_cycle_witness :
  exists next action,
    HamiltonianCycleAgent._cycle hamiltonian_example_agent !! 1%nat = Some next
    /\ HamiltonianCycleAgent.move 4 hamiltonian_example_agent
         (two_frames hamiltonian_example_cells) [1; 1; 1; 1] bfs_values
       = Ok action
    /\ next mod 4 - 1 = 0 /\ 1 - next / 4 = -1 /\ action = 3.
Proof.
  destruct (hamiltonian_move_on_cycle 4 4 4 hamiltonian_example_agent
              (two_frames hamiltonian_example_cells) hamiltonian_example_cells
              [1; 1; 1; 1] bfs_values 1 1 0 6 1)
    as [(next & action & H1 & H2 & H3) _].
  - reflexivity.
  - reflexivity.
  - reflexivity.
  - apply only_atb_sound. reflexivity.
  - reflexivity.
  - reflexivity.
  - reflexivity.
  - discriminate.
  - vm_compute. lia.
  - exists next, action. split; [exact H1|]. split; [exact H2|].
    cbv zeta in H3. vm_compute in H1. injection H1 as <-.
    change (9 mod 4) with 1 in *. change (9 / 4) with 2 in *.
    change (Z.of_nat 1) with 1 in H3. lia.
Defined.

(** * Further properties *)

(** ** The position of a code that no cell has *)

Lemma nowhereb_sound (b : list (list Z)) (v : Z) :
  nowhereb b v = true -> forall r c, cell2 b r c <> Some v.
Proof.
  unfold nowhereb, cell2. intros H r c Hc.
  destruct (b !! r) as [row|] eqn:Hrow; [|done]. cbn in Hc.
  rewrite forallb_forall in H.
  specialize (H row). rewrite forallb_forall in H.
  assert (Hv : negb (v =? v) = true).
  { apply H; apply list_elem_of_In, list_elem_of_lookup; eauto. }
  rewrite Z.eqb_refl in Hv. discriminate.
Qed.

(** X1: the position [(self._board_grid * (board == v)).sum()] of a code
    that no cell of the board has is 0, the flat index of the cell
    (0, 0): the position is the same as for a board whose only cell with
    the code is (0, 0). *)
Theorem grid_where_missing_code (bs : Z) (b : list (list Z)) (v : Z) :
  has_shape b (Z.to_nat bs) (Z.to_nat bs) = true ->
  (forall r c, cell2 b r c <> Some v) ->
  Agent.grid_where bs b v = Ok 0
  /\ forall b',
       has_shape b' (Z.to_nat bs) (Z.to_nat bs) = true ->
       only_at b' v 0 0 ->
       Agent.grid_where bs b' v = Agent.grid_where bs b v.
Proof.
  intros Hshape Hnone.
  assert (H0 : Agent.grid_where bs b v = Ok 0).
  { unfold Agent.grid_where. rewrite Hshape. f_equal.
    apply py_sum_zero. intros r z Hr.
    apply lookup_zip_with_Some in Hr as (grow & brow & -> & _ & Hbrow).
    apply py_sum_zero. intros c z Hc.
    apply lookup_zip_with_Some in Hc as (g & x & -> & _ & Hx).
    destruct (Z.eqb_spec x v) as [->|]; [|reflexivity].
    destruct (Hnone r c). unfold cell2. rewrite Hbrow. exact Hx. }
  split; [exact H0|]. intros b' Hshape' Honly.
  rewrite H0, (grid_where_only_at _ _ _ _ _ Hshape' Honly). reflexivity.
Qed.

Lemma grid_where_missing_code_witness :
  Agent.grid_where 4 headless_cells 2 = Ok 0.
Proof.
  apply (proj1 (grid_where_missing_code 4 headless_cells 2 eq_refl
                  (nowhereb_sound headless_cells 2 eq_refl))).
Defined.

(** ** Ties and masks without a legal action *)

Lemma np_argmax_nat (l : list (ext Q)) (a : Z) :
  np_argmax l = Ok a -> exists n, a = Z.of_nat n /\ (n < length l)%nat.
Proof.
  intros H. destruct (np_argmax_max l) as (n & v & Hn & Hv & _).
  { intros ->. discriminate. }
  exists n. split; [congruence|]. eapply lookup_lt_Some; eauto.
Qed.

Lemma omapM_ext {A B} (f g : A -> outcome B) (l : list A) :
  (forall x, x ∈ l -> f x = g x) -> omapM f l = omapM g l.
Proof.
  induction l as [|x l IH]; intros H; [reflexivity|].
  cbn [omapM]. rewrite (H x) by left. rewrite IH; [reflexivity|].
  intros y Hy. apply H. right. exact Hy.
Qed.

Lemma omapM_lookup {A B} (f : A -> outcome B) (l : list A) (ys : list B) :
  omapM f l = Ok ys ->
  length ys = length l
  /\ forall i x, l !! i = Some x -> exists y, ys !! i = Some y /\ f x = Ok y.
Proof.
  revert ys. induction l as [|x l IH]; intros ys H; cbn [omapM] in H.
  - injection H as <-. split; [reflexivity|]. intros i x Hi. done.
  - destruct (f x) as [y| |] eqn:Hy; cbn [obind] in H; try discriminate.
    destruct (omapM f l) as [ys'| |]; cbn [obind] in H; try discriminate.
    injection H as <-. destruct (IH ys' eq_refl) as [Hlen Hrows].
    split; [simpl; lia|].
    intros [|i] z Hi; simpl in Hi.
    + injection Hi as <-. exists y. auto.
    + apply Hrows. exact Hi.
Qed.

Section DeepQLearningFurther.

Import DeepQLearningAgent.

Variable network : Type.

Variable forward : network -> board3 -> list (ext Q).

(** [move] returns once the mask has the shape of the outputs and the
    rows are not empty; its entry for a row is the arg-max of the masked
    row. *)
Lemma dqn_move_rows (self : t network) (board : list board3)
    (legal_moves : list (list Z)) (n m : nat) :
  has_shape legal_moves n m = true ->
  has_shape (_get_model_outputs network forward board (_model network self))
            n m = true ->
  (0 < m)%nat ->
  exists actions,
    move network forward self board legal_moves = Ok actions
    /\ forall i mask, legal_moves !! i = Some mask ->
         exists a outputs,
           _get_model_outputs network forward board (_model network self) !! i
           = Some outputs
           /\ length mask = m /\ length outputs = m
           /\ actions !! i = Some (Z.of_nat a)
           /\ np_argmax (where_legal_inf mask outputs) = Ok (Z.of_nat a).
Proof.
  intros Hlegal Hout Hmpos.
  set (model_outputs :=
         _get_model_outputs network forward board (_model network self)) in *.
  pose proof (has_shape_same _ _ _ _ Hlegal Hout) as Hsame.
  apply has_shape_spec in Hlegal as [Hn Hm].
  apply has_shape_spec in Hout as [Hn' Hm'].
  assert (Hne : forall mask outputs, length mask = m -> length outputs = m ->
            where_legal_inf mask outputs <> []).
  { intros mask outputs H1 H2 Hnil. apply (f_equal length) in Hnil.
    unfold where_legal_inf in Hnil. rewrite length_zip_with in Hnil.
    simpl in Hnil. lia. }
  destruct (omapM_Ok (fun p => np_argmax (where_legal_inf (fst p) (snd p)))
              (zip legal_moves model_outputs)) as (actions & Hmove & Hrows).
  { intros k [ra rb] Hk.
    apply lookup_zip_with_Some in Hk as (x & y & Heq & Hx & Hy).
    injection Heq as -> ->. cbn [fst snd].
    destruct (np_argmax_max (where_legal_inf x y)) as (a & _ & Ha & _);
      eauto. }
  exists actions. unfold move. fold model_outputs. rewrite Hsame.
  split; [exact Hmove|]. intros i mask Hmask.
  destruct (model_outputs !! i) as [outputs|] eqn:Houtputs.
  2: { apply lookup_ge_None in Houtputs. apply lookup_lt_Some in Hmask. lia. }
  destruct (Hrows i (mask, outputs)) as (act & Hact & Harg).
  { apply lookup_zip_with_Some. eauto. }
  cbn [fst snd] in Harg.
  destruct (np_argmax_nat _ _ Harg) as (a & -> & _).
  exists a, outputs. eauto 10.
Qed.

(** X2: when a row of the legality mask has no entry equal to 1, every
    entry of the masked row is minus infinity and [move] returns the
    action 0 for that row. *)
Theorem dqn_move_no_legal_action (self : t network) (board : list board3)
    (legal_moves : list (list Z)) (n m i : nat) (mask : list Z) :
  has_shape legal_moves n m = true ->
  has_shape (_get_model_outputs network forward board (_model network self))
            n m = true ->
  (0 < m)%nat ->
  legal_moves !! i = Some mask ->
  (forall j x, mask !! j = Some x -> x <> 1) ->
  exists actions,
    move network forward self board legal_moves = Ok actions
    /\ actions !! i = Some 0.
Proof.
  intros Hlegal Hout Hmpos Hmask Hnone.
  destruct (dqn_move_rows self board legal_moves n m Hlegal Hout Hmpos)
    as (actions & Hmove & Hrows).
  exists actions. split; [exact Hmove|].
  destruct (Hrows i mask Hmask) as (a & outputs & _ & Hl1 & Hl2 & Hact & Harg).
  destruct a as [|a]; [exact Hact|]. exfalso.
  assert (Hall : forall j w, where_legal_inf mask outputs !! j = Some w ->
                             w = NegInf).
  { intros j w Hj. unfold where_legal_inf in Hj.
    apply lookup_zip_with_Some in Hj as (x & y & -> & Hx & _).
    destruct (Z.eqb_spec x 1) as [->|]; [|reflexivity].
    destruct (Hnone j 1 Hx eq_refl). }
  destruct (where_legal_inf mask outputs !! 0%nat) as [w|] eqn:Hw.
  2: { apply lookup_ge_None in Hw. unfold where_legal_inf in Hw.
       rewrite length_zip_with in Hw. lia. }
  destruct (np_argmax_first _ _ Harg 0%nat w Hw ltac:(lia)) as (v & Hv & Hlt).
  rewrite (Hall _ _ Hw), (Hall _ _ Hv) in Hlt. discriminate.
Qed.

(** X3: among the legal actions of a row with the greatest output,
    [move] returns the one of least index: every legal action before the
    returned one has a strictly smaller output (in the order of
    [np.argmax], for which NaN is the greatest value). *)
Theorem dqn_move_first_maximum (self : t network) (board : list board3)
    (legal_moves : list (list Z)) (n m i : nat) (mask : list Z) :
  has_shape legal_moves n m = true ->
  has_shape (_get_model_outputs network forward board (_model network self))
            n m = true ->
  legal_moves !! i = Some mask ->
  (exists j, mask !! j = Some 1) ->
  exists actions a outputs q,
    move network forward self board legal_moves = Ok actions
    /\ actions !! i = Some (Z.of_nat a)
    /\ _get_model_outputs network forward board (_model network self) !! i
       = Some outputs
    /\ outputs !! a = Some q
    /\ forall j x, (j < a)%nat -> mask !! j = Some 1 ->
                   outputs !! j = Some x -> ext_ltb x q = true.
Proof.
  intros Hlegal Hout Hmask [j0 Hj0].
  assert (Hmpos : (0 < m)%nat).
  { apply has_shape_spec in Hlegal as [_ Hm].
    apply lookup_lt_Some in Hj0. rewrite (Hm _ _ Hmask) in Hj0. lia. }
  destruct (dqn_move_rows self board legal_moves n m Hlegal Hout Hmpos)
    as (actions & Hmove & Hrows).
  destruct (Hrows i mask Hmask) as (a & outputs & Ho & Hl1 & Hl2 & Hact & Harg).
  destruct (outputs !! a) as [q|] eqn:Hq.
  2: { apply lookup_ge_None in Hq.
       destruct (np_argmax_nat _ _ Harg) as (a' & Ha' & Hlt).
       apply Nat2Z.inj in Ha'. subst a'. unfold where_legal_inf in Hlt.
       rewrite length_zip_with in Hlt. lia. }
  exists actions, a, outputs, q. repeat split; try assumption.
  intros j x Hlt Hj Hx.
  destruct (np_argmax_first _ _ Harg j x) as (v & Hv & Hltv);
    [|exact Hlt|].
  { unfold where_legal_inf. rewrite lookup_zip_with, Hj, Hx. reflexivity. }
  unfold where_legal_inf in Hv.
  apply lookup_zip_with_Some in Hv as (ma & q' & -> & _ & Hq').
  assert (q' = q) as -> by congruence.
  destruct (ma =? 1); [exact Hltv|]. destruct x; discriminate.
Qed.

End DeepQLearningFurther.

Lemma dqn_move_no_legal_action_witness :
  exists actions,
    DeepQLearningAgent.move unit dqn_float_forward dqn_example_agent
      [[]] [[0; 0; 0]] = Ok actions
    /\ actions !! 0%nat = Some 0.
Proof.
  apply (dqn_move_no_legal_action unit dqn_float_forward dqn_example_agent
           [[]] [[0; 0; 0]] 1 3 0 [0; 0; 0]).
  - reflexivity.
  - reflexivity.
  - lia.
  - reflexivity.
  - intros [|[|[|j]]] x Hx; cbv in Hx; congruence.
Defined.

Lemma dqn_move_first_maximum_witness :
  exists actions a outputs q,
    DeepQLearningAgent.move unit dqn_tie_forward dqn_example_agent
      [[]] [[1; 1; 1]] = Ok actions
    /\ actions !! 0%nat = Some (Z.of_nat a)
    /\ DeepQLearningAgent._get_model_outputs unit dqn_tie_forward [[]] tt
         !! 0%nat = Some outputs
    /\ outputs !! a = Some q
    /\ forall j x, (j < a)%nat -> [1; 1; 1] !! j = Some 1 ->
                   outputs !! j = Some x -> ext_ltb x q = true.
Proof.
  apply (dqn_move_first_maximum unit dqn_tie_forward dqn_example_agent
           [[]] [[1; 1; 1]] 1 3 0 [1; 1; 1]);
    [reflexivity | reflexivity | reflexivity | exists 0%nat; reflexivity].
Defined.

(** ** Targets of the training step and the probabilities *)

Lemma exp_monotone (x y : R) : (x <= y)%R -> (exp x <= exp y)%R.
Proof.
  intros [Hlt | ->]; [|lra]. left. apply exp_increasing. exact Hlt.
Qed.

Lemma np_clip_le (x y lo hi : R) :
  (x <= y)%R -> (np_clip x lo hi <= np_clip y lo hi)%R.
Proof.
  intros H. unfold np_clip.
  apply Rle_min_compat_r, Rle_max_compat_r. exact H.
Qed.

Lemma np_clip_above (x lo hi : R) :
  (lo <= hi)%R -> (hi <= x)%R -> np_clip x lo hi = hi.
Proof.
  intros H1 H2. unfold np_clip. apply Rmin_right.
  pose proof (Rmax_l x lo). lra.
Qed.

Lemma np_clip_below (x lo hi : R) :
  (lo <= hi)%R -> (x <= lo)%R -> np_clip x lo hi = lo.
Proof.
  intros H1 H2. unfold np_clip. rewrite Rmax_right by exact H2.
  apply Rmin_left. exact H1.
Qed.

Lemma Rsum_le_length (l : list R) :
  (forall x, x ∈ l -> (x <= 1)%R) -> (Rsum l <= INR (length l))%R.
Proof.
  induction l as [|x l IH]; intros H.
  - simpl. lra.
  - cbn [Rsum length]. rewrite S_INR.
    pose proof (H x ltac:(left)).
    pose proof (IH (fun y Hy => H y ltac:(right; exact Hy))). lra.
Qed.

Section DeepQLearningTargets.

Import DeepQLearningAgent.

Variable network : Type.

Variable forward : network -> board3 -> list Q.

Lemma target_row_blend (self : t network) (reward_clip : bool)
    (tr : transition) (dr : Q) :
  well_shaped network forward self tr ->
  discounted_reward network forward self reward_clip tr = Ok dr ->
  exists target,
    target_row network forward self reward_clip tr = Ok target
    /\ forall j a o,
         tr_a tr !! j = Some a ->
         forward (_model network self) (tr_s tr) !! j = Some o ->
         target !! j
         = Some ((1 - inject_Z a) * o + inject_Z a * dr)%Q.
Proof.
  intros (Ha & _) Hdr. unfold target_row. rewrite Hdr. cbn [obind].
  rewrite Ha, Nat.eqb_refl. eexists. split; [reflexivity|].
  intros j a o Hj Ho. unfold blend. rewrite lookup_zip_with, Hj, Ho.
  reflexivity.
Qed.


(** X5: when the legality mask of the next state has no entry equal to
    1, the greatest masked value is the sentinel, and the discounted
    reward of [train_agent] is [r + gamma * (-10000) * (1 - done)]. *)
Theorem dqn_no_legal_next_action (self : t network) (reward_clip : bool)
    (tr : transition) :
  well_shaped network forward self tr ->
  (forall j x, tr_legal_moves tr !! j = Some x -> x <> 1) ->
  discounted_reward network forward self reward_clip tr
  = Ok ((if reward_clip then np_sign (tr_r tr) else tr_r tr)
        + _gamma network self * (-10000) * (1 - inject_Z (tr_done tr)))%Q.
Proof.
  intros (Ha & Hl & Hpos) Hnone.
  destruct (np_max_spec
    (where_legal_sentinel (tr_legal_moves tr)
       (forward (if _use_target_net network self
                 then _target_net network self
                 else _model network self) (tr_next_s tr))))
    as (m & Hm & Hin & _).
  { intros Hnil. apply (f_equal length) in Hnil.
    unfold where_legal_sentinel in Hnil.
    rewrite length_zip_with, <- Hl in Hnil. simpl in Hnil. lia. }
  assert (m = (-10000)%Q) as ->.
  { apply list_elem_of_lookup in Hin as [j Hj].
    unfold where_legal_sentinel in Hj.
    apply lookup_zip_with_Some in Hj as (x & y & -> & Hx & _).
    destruct (Z.eqb_spec x 1) as [->|]; [|reflexivity].
    destruct (Hnone j 1 Hx eq_refl). }
  unfold discounted_reward. cbv zeta. rewrite Hl, Nat.eqb_refl, Hm.
  reflexivity.
Qed.

End DeepQLearningTargets.

Lemma clipped_le (x y : ext Q) :
  x <> NaN -> y <> NaN -> ext_le x y -> (clipped x <= clipped y)%R.
Proof.
  intros Hx Hy Hle. pose proof (clipped_range x). pose proof (clipped_range y).
  unfold ext_le in Hle.
  destruct x as [|a| |], y as [|b| |]; simpl in *; try congruence; try lra.
  apply np_clip_le, Qreals.Qle_Rle, Qle_bool_iff.
  apply negb_false_iff. exact Hle.
Qed.

Lemma clipped_above (x : ext Q) :
  x <> NaN -> ext_le (Fin 10%Q) x -> clipped x = 10%R.
Proof.
  intros Hx Hle. unfold ext_le in Hle.
  destruct x as [|a| |]; simpl in *; try congruence.
  apply np_clip_above; [lra|].
  apply negb_false_iff, Qle_bool_iff, Qreals.Qle_Rle in Hle.
  replace (Q2R 10) with 10%R in Hle by (unfold Q2R; simpl; lra). exact Hle.
Qed.

Lemma clipped_below (x : ext Q) :
  x <> NaN -> ext_le x (Fin (-10)%Q) -> clipped x = (-10)%R.
Proof.
  intros Hx Hle. unfold ext_le in Hle.
  destruct x as [|a| |]; simpl in *; try congruence.
  apply np_clip_below; [lra|].
  apply negb_false_iff, Qle_bool_iff, Qreals.Qle_Rle in Hle.
  replace (Q2R (-10)) with (-10)%R in Hle by (unfold Q2R; simpl; lra).
  exact Hle.
Qed.

Section DeepQLearningProbabilities.

Import DeepQLearningAgent.

Variable network : Type.

Variable forward : network -> board3 -> list (ext Q).

(** [get_action_proba] returns once the rows of outputs are not empty;
    its row for a row of outputs without a NaN is the softmax of the
    clipped outputs. *)
Lemma dqn_action_proba_rows (self : t network) (board : list board3)
    (i : nat) (model_outputs : list (ext Q)) :
  (forall row, row ∈ _get_model_outputs network forward board
                       (_model network self) -> row <> []) ->
  _get_model_outputs network forward board (_model network self) !! i
    = Some model_outputs ->
  NaN ∉ model_outputs ->
  exists probabilities m,
    get_action_proba network forward self board = Ok probabilities
    /\ probabilities !! i = Some (map Fin (softmax_clipped m model_outputs))
    /\ (forall x, x ∈ model_outputs ->
          (-10 <= clipped x <= 10)%R
          /\ (-20 <= clipped x - m <= 0)%R
          /\ (0 < exp (clipped x - m) <= 1)%R)
    /\ (1 <= Rsum (map (fun x' => exp (clipped x' - m)) model_outputs))%R.
Proof.
  intros Hrows Hi Hnan.
  destruct (omapM_Ok action_proba_row
              (_get_model_outputs network forward board (_model network self)))
    as (probabilities & Hprob & Hget).
  { intros j row Hj.
    assert (Hne : row <> []) by (apply Hrows, list_elem_of_lookup; eauto).
    destruct (NaN_elem_dec row) as [Hn|Hn].
    - destruct (action_proba_row_NaN row Hn) as (probs & Hp & _). eauto.
    - destruct (action_proba_row_spec row Hne Hn) as (m & _ & Hp & _). eauto. }
  destruct (Hget i _ Hi) as (row & Hrow & Heq).
  destruct (action_proba_row_spec model_outputs)
    as (m & _ & Hspec & _ & Hbounds & Hsum); [|exact Hnan|].
  { apply Hrows, list_elem_of_lookup. eauto. }
  rewrite Hspec in Heq. injection Heq as <-.
  exists probabilities, m. unfold get_action_proba. auto.
Qed.

(** X6: every probability that [get_action_proba] returns for a row of
    [n] outputs without a NaN is a number of at least [exp(-20) / n]: the
    clipping to [-10, 10] keeps every action at a positive probability
    with a bound that does not depend on the outputs, infinite ones
    included. *)
Theorem dqn_action_proba_floor (self : t network) (board : list board3)
    (i : nat) (model_outputs : list (ext Q)) :
  (forall row, row ∈ _get_model_outputs network forward board
                       (_model network self) -> row <> []) ->
  _get_model_outputs network forward board (_model network self) !! i
    = Some model_outputs ->
  NaN ∉ model_outputs ->
  exists probabilities row,
    get_action_proba network forward self board = Ok probabilities
    /\ probabilities !! i = Some row
    /\ length row = length model_outputs
    /\ forall p, p ∈ row ->
         exists x, p = Fin x
           /\ (exp (-20) / INR (length model_outputs) <= x)%R.
Proof.
  intros Hrows Hi Hnan.
  destruct (dqn_action_proba_rows self board i model_outputs Hrows Hi Hnan)
    as (probabilities & m & Hprob & Hrow & Hbounds & Hsum).
  exists probabilities, (map Fin (softmax_clipped m model_outputs)).
  split; [exact Hprob|]. split; [exact Hrow|].
  split; [unfold softmax_clipped; rewrite !length_map; reflexivity|].
  intros p Hp. apply list_elem_of_In, in_map_iff in Hp as (x & <- & Hx).
  exists x. split; [reflexivity|]. unfold softmax_clipped in Hx.
  apply in_map_iff in Hx as (q & <- & Hq).
  apply list_elem_of_In in Hq.
  destruct (Hbounds q Hq) as (_ & Hdiff & Hpos & Hle).
  set (S := Rsum _) in *.
  assert (HS : (S <= INR (length model_outputs))%R).
  { subst S. rewrite <- (length_map (fun x' => exp (clipped x' - m))
                                    model_outputs).
    apply Rsum_le_length. intros x Hx.
    apply list_elem_of_In, in_map_iff in Hx as (q' & <- & Hq').
    apply list_elem_of_In in Hq'. apply Hbounds. exact Hq'. }
  pose proof (exp_monotone _ _ (proj1 Hdiff)) as Hexp.
  pose proof (exp_pos (-20)) as Hpos20.
  set (e := exp (clipped q - m)) in *.
  set (n := INR (length model_outputs)) in *.
  unfold Rdiv.
  apply Rle_trans with (exp (-20) * / S)%R.
  - apply Rmult_le_compat_l; [lra|]. apply Rinv_le_contravar; lra.
  - apply Rmult_le_compat_r; [|exact Hexp].
    left. apply Rinv_0_lt_compat. lra.
Qed.

(** X7: for a row of outputs without a NaN the probabilities of
    [get_action_proba] are numbers ordered as the outputs; two outputs of
    at least 10, or two of at most -10, get the same probability. *)
Theorem dqn_action_proba_order (self : t network) (board : list board3)
    (i : nat) (model_outputs : list (ext Q)) :
  (forall row, row ∈ _get_model_outputs network forward board
                       (_model network self) -> row <> []) ->
  _get_model_outputs network forward board (_model network self) !! i
    = Some model_outputs ->
  NaN ∉ model_outputs ->
  exists probabilities row,
    get_action_proba network forward self board = Ok probabilities
    /\ probabilities !! i = Some row
    /\ forall j j' q q',
         model_outputs !! j = Some q -> model_outputs !! j' = Some q' ->
         exists p p',
           row !! j = Some (Fin p) /\ row !! j' = Some (Fin p')
           /\ (ext_le q q' -> (p <= p')%R)
           /\ (ext_le (Fin 10%Q) q -> ext_le (Fin 10%Q) q' -> p = p')
           /\ (ext_le q (Fin (-10)%Q) -> ext_le q' (Fin (-10)%Q) -> p = p').
Proof.
  intros Hrows Hi Hnan.
  destruct (dqn_action_proba_rows self board i model_outputs Hrows Hi Hnan)
    as (probabilities & m & Hprob & Hrow & Hbounds & Hsum).
  exists probabilities, (map Fin (softmax_clipped m model_outputs)).
  split; [exact Hprob|]. split; [exact Hrow|].
  intros j j' q q' Hq Hq'. unfold softmax_clipped.
  set (S := Rsum _) in *.
  exists (exp (clipped q - m) / S)%R, (exp (clipped q' - m) / S)%R.
  assert (Hlook : forall k x, model_outputs !! k = Some x ->
    map Fin (map (fun x0 => (exp (clipped x0 - m) / S)%R) model_outputs) !! k
    = Some (Fin (exp (clipped x - m) / S)%R)).
  { intros k x Hk.
    change (map Fin (map (fun x0 => (exp (clipped x0 - m) / S)%R)
                         model_outputs))
      with (Fin <$> ((fun x0 => (exp (clipped x0 - m) / S)%R)
                       <$> model_outputs)).
    rewrite !list_lookup_fmap, Hk. reflexivity. }
  split; [apply Hlook; exact Hq|]. split; [apply Hlook; exact Hq'|].
  assert (Hqn : q <> NaN).
  { intros ->. apply Hnan, list_elem_of_lookup. eauto. }
  assert (Hqn' : q' <> NaN).
  { intros ->. apply Hnan, list_elem_of_lookup. eauto. }
  assert (HS : (0 < / S)%R) by (apply Rinv_0_lt_compat; lra).
  split; [|split].
  - intros Hle. unfold Rdiv.
    apply Rmult_le_compat_r; [lra|]. apply exp_monotone.
    pose proof (clipped_le q q' Hqn Hqn' Hle). lra.
  - intros H10 H10'.
    rewrite (clipped_above q Hqn H10), (clipped_above q' Hqn' H10').
    reflexivity.
  - intros H10 H10'.
    rewrite (clipped_below q Hqn H10), (clipped_below q' Hqn' H10').
    reflexivity.
Qed.

End DeepQLearningProbabilities.


Lemma dqn_no_legal_next_action_witness :
  DeepQLearningAgent.discounted_reward unit dqn_example_forward
    dqn_example_agent false dqn_blocked_transition
  = Ok (1 + (99 # 100) * (-10000) * (1 - inject_Z 0))%Q.
Proof.
  apply (dqn_no_legal_next_action unit dqn_example_forward dqn_example_agent
           false dqn_blocked_transition).
  - repeat split; cbn; lia.
  - intros [|[|[|j]]] x Hx; cbv in Hx; congruence.
Defined.

Lemma dqn_action_proba_floor_witness :
  exists probabilities row,
    DeepQLearningAgent.get_action_proba unit proba_example_forward
      dqn_example_agent [[]] = Ok probabilities
    /\ probabilities !! 0%nat = Some row
    /\ forall p, p ∈ row -> exists x, p = Fin x /\ (exp (-20) / INR 3 <= x)%R.
Proof.
  destruct (dqn_action_proba_floor unit proba_example_forward
              dqn_example_agent [[]] 0 [Fin 1; PosInf; Fin (-30)]%Q)
    as (probabilities & row & H1 & H2 & _ & H4).
  - intros row Hrow. cbn in Hrow. apply list_elem_of_singleton in Hrow.
    subst row. discriminate.
  - reflexivity.
  - intros H. repeat (apply elem_of_cons in H as [H|H]; [discriminate|]).
    inversion H.
  - exists probabilities, row. auto.
Defined.

Lemma dqn_action_proba_order_witness :
  exists probabilities row p p',
    DeepQLearningAgent.get_action_proba unit proba_example_forward
      dqn_example_agent [[]] = Ok probabilities
    /\ probabilities !! 0%nat = Some row
    /\ row !! 2%nat = Some (Fin p) /\ row !! 1%nat = Some (Fin p')
    /\ (p <= p')%R.
Proof.
  destruct (dqn_action_proba_order unit proba_example_forward
              dqn_example_agent [[]] 0 [Fin 1; PosInf; Fin (-30)]%Q)
    as (probabilities & row & H1 & H2 & H3).
  - intros row Hrow. cbn in Hrow. apply list_elem_of_singleton in Hrow.
    subst row. discriminate.
  - reflexivity.
  - intros H. repeat (apply elem_of_cons in H as [H|H]; [discriminate|]).
    inversion H.
  - destruct (H3 2%nat 1%nat (Fin (-30)%Q) PosInf eq_refl eq_refl)
      as (p & p' & Hp & Hp' & Hle & _).
    exists probabilities, row, p, p'. repeat split; try assumption.
    apply Hle. reflexivity.
Defined.

(** ** The entropy term and shifted logits *)

Lemma Rsum_nonpos (l : list R) :
  (forall x, x ∈ l -> (x <= 0)%R) -> (Rsum l <= 0)%R.
Proof.
  induction l as [|x l IH]; intros H; simpl; [lra|].
  pose proof (H x ltac:(left)).
  pose proof (IH (fun y Hy => H y ltac:(right; exact Hy))). lra.
Qed.

Lemma Rmean_nonpos (l : list R) :
  (forall x, x ∈ l -> (x <= 0)%R) -> (Rmean l <= 0)%R.
Proof.
  intros H. unfold Rmean. pose proof (Rsum_nonpos l H) as Hs.
  destruct l as [|x l].
  - simpl. unfold Rdiv. rewrite Rmult_0_l. lra.
  - assert (0 < INR (length (x :: l)))%R by (apply lt_0_INR; simpl; lia).
    unfold Rdiv. assert (0 < / INR (length (x :: l)))%R
      by (apply Rinv_0_lt_compat; assumption).
    nra.
Qed.

(** The sum of [p * ln p] over a row of probabilities is not positive. *)
Lemma row_entropy_nonpos (logits : list R) :
  (Rsum (zip_with Rmult (softmax logits) (log_softmax logits)) <= 0)%R.
Proof.
  unfold softmax, log_softmax. rewrite zip_with_fmap_same.
  apply Rsum_nonpos. intros y Hy.
  apply list_elem_of_fmap in Hy as (x & -> & Hx).
  set (S := Rsum (exp <$> logits)).
  assert (Hle : (exp x <= S)%R).
  { apply Rsum_ge_elem.
    - intros z Hz. apply list_elem_of_fmap in Hz as (w & -> & _).
      left. apply exp_pos.
    - apply list_elem_of_fmap. eauto. }
  pose proof (exp_pos x) as Hpos.
  assert (Hln : (x <= ln S)%R).
  { rewrite <- (ln_exp x) at 1. destruct Hle as [Hlt | <-]; [|lra].
    left. apply ln_increasing; assumption. }
  assert (0 < exp x / S)%R.
  { unfold Rdiv. apply Rmult_lt_0_compat; [lra|].
    apply Rinv_0_lt_compat. lra. }
  nra.
Qed.

Lemma Rsum_exp_shift (c : R) (l : list R) :
  Rsum (exp <$> ((fun x => (x + c)%R) <$> l)) = (exp c * Rsum (exp <$> l))%R.
Proof.
  induction l as [|x l IH]; cbn; [ring|].
  rewrite IH, exp_plus. ring.
Qed.

Lemma log_softmax_shift (c : R) (l : list R) :
  log_softmax ((fun x => (x + c)%R) <$> l) = log_softmax l.
Proof.
  destruct l as [|x0 l0] eqn:E; [reflexivity|]. rewrite <- E.
  assert (Hpos : (0 < Rsum (exp <$> l))%R)
    by (apply Rsum_exp_pos; subst l; discriminate).
  unfold log_softmax. rewrite Rsum_exp_shift, <- list_fmap_compose.
  apply list_fmap_ext. intros _ x _. cbn.
  rewrite ln_mult, ln_exp by (assumption || apply exp_pos). ring.
Qed.

Lemma softmax_shift (c : R) (l : list R) :
  softmax ((fun x => (x + c)%R) <$> l) = softmax l.
Proof.
  destruct l as [|x0 l0] eqn:E; [reflexivity|]. rewrite <- E.
  assert (Hpos : (0 < Rsum (exp <$> l))%R)
    by (apply Rsum_exp_pos; subst l; discriminate).
  unfold softmax. rewrite Rsum_exp_shift, <- list_fmap_compose.
  apply list_fmap_ext. intros _ x _. cbn.
  rewrite exp_plus. pose proof (exp_pos c). field. split; lra.
Qed.

Section PolicyGradientFurther.

Import PolicyGradientAgent.

Variable network : Type.

Variable logits_of : network -> board3 -> list R.

Variable buffer : Type.

Variable sample : buffer -> Z -> list board3 * list Z * list R.

Variable get_current_size : buffer -> Z.

Variable optimizer_step : (network -> outcome R) -> network -> network.

Lemma loss_of_entropy (beta : R) (normalize_rewards : bool)
    (states : list board3) (actions : list Z) (rewards : list R)
    (model : network) (loss : R) :
  (0 < beta)%R ->
  loss_of network logits_of beta normalize_rewards states actions rewards
    model = Ok loss ->
  exists loss0,
    loss_of network logits_of 0 normalize_rewards states actions rewards
      model = Ok loss0
    /\ (loss <= loss0)%R.
Proof.
  intros Hbeta. unfold loss_of. cbv zeta.
  destruct (negb _); [discriminate|].
  destruct (selected_log_probs_of _ actions) as [taken| |]; cbn [obind];
    try discriminate.
  destruct (Rlt_dec 0 beta) as [_|]; [|contradiction].
  destruct (Rlt_dec 0 0) as [H|_]; [lra|].
  intros [= <-]. eexists. split; [reflexivity|].
  assert (Hent : (Rmean
            (zip_with (fun p lp => Rsum (zip_with Rmult p lp))
               (softmax <$> (logits_of model <$> states))
               (log_softmax <$> (logits_of model <$> states)))
          <= 0)%R).
  { apply Rmean_nonpos. intros x Hx. rewrite zip_with_fmap_same in Hx.
    apply list_elem_of_fmap in Hx as (row & -> & _).
    apply row_entropy_nonpos. }
  nra.
Qed.


(** X9: the loss of [train_agent] does not change when a number, which
    may depend on the model and the state, is added to all the logits of a
    state. *)
Theorem pg_loss_shift_invariant (shift : network -> board3 -> R) (beta : R)
    (normalize_rewards : bool) (states : list board3) (actions : list Z)
    (rewards : list R) (model : network) :
  loss_of network
    (fun model state =>
       (fun x => (x + shift model state)%R) <$> logits_of model state)
    beta normalize_rewards states actions rewards model
  = loss_of network logits_of beta normalize_rewards states actions rewards
      model.
Proof.
  unfold loss_of. cbv zeta.
  assert (Hls : log_softmax <$>
                  ((fun state =>
                      (fun x => (x + shift model state)%R)
                        <$> logits_of model state) <$> states)
                = log_softmax <$> (logits_of model <$> states)).
  { rewrite <- !list_fmap_compose. apply list_fmap_ext. intros _ s _.
    cbn. apply log_softmax_shift. }
  assert (Hsm : softmax <$>
                  ((fun state =>
                      (fun x => (x + shift model state)%R)
                        <$> logits_of model state) <$> states)
                = softmax <$> (logits_of model <$> states)).
  { rewrite <- !list_fmap_compose. apply list_fmap_ext. intros _ s _.
    cbn. apply softmax_shift. }
  rewrite Hls, Hsm. reflexivity.
Qed.

End PolicyGradientFurther.


(** ** The neighbours of a cell off the border *)

Lemma hamiltonian_neighbors_loop (bs row col : Z) (deltas : list (Z * Z)) :
  forall acc q,
  q ∈ HamiltonianCycleAgent.neighbors_loop bs row col deltas acc
  <-> q ∈ acc
      \/ exists dr dc, (dr, dc) ∈ deltas
           /\ 1 <= row + dr <= bs - 2 /\ 1 <= col + dc <= bs - 2
           /\ q = (row + dr) * bs + (col + dc).
Proof.
  induction deltas as [|[dr dc] deltas IH]; intros acc q;
    cbn [HamiltonianCycleAgent.neighbors_loop].
  { split; [auto|]. intros [H|(dr & dc & H & _)]; [exact H|].
    apply elem_of_nil in H. destruct H. }
  set (keep := (1 <=? row + dr) && (row + dr <=? bs - 2)
               && (1 <=? col + dc) && (col + dc <=? bs - 2)).
  assert (Hkeep : keep = true
                  <-> 1 <= row + dr <= bs - 2 /\ 1 <= col + dc <= bs - 2).
  { unfold keep. rewrite !andb_true_iff, !Z.leb_le. lia. }
  destruct keep; rewrite IH; clear IH.
  - rewrite elem_of_app, list_elem_of_singleton. split.
    + intros [[H| ->]|(dr' & dc' & Hd & H)].
      * left. exact H.
      * right. exists dr, dc. split; [left|]. split; [|split]; tauto.
      * right. exists dr', dc'. split; [right; exact Hd|exact H].
    + intros [H|(dr' & dc' & Hd & H)]; [left; left; exact H|].
      apply elem_of_cons in Hd as [[= -> ->]|Hd].
      * left. right. tauto.
      * right. exists dr', dc'. tauto.
  - split.
    + intros [H|(dr' & dc' & Hd & H)]; [left; exact H|].
      right. exists dr', dc'. split; [right; exact Hd|exact H].
    + intros [H|(dr' & dc' & Hd & H)]; [left; exact H|].
      apply elem_of_cons in Hd as [[= -> ->]|Hd].
      * assert (false = true) by (apply Hkeep; tauto). discriminate.
      * right. exists dr', dc'. tauto.
Qed.

Lemma hamiltonian_neighbors_spec (bs p q : Z) :
  0 < bs ->
  q ∈ HamiltonianCycleAgent._get_neighbors bs p
  <-> interior bs q /\ manhattan bs p q = 1.
Proof.
  intros Hbs. unfold HamiltonianCycleAgent._get_neighbors.
  rewrite hamiltonian_neighbors_loop.
  unfold interior, manhattan, row_of, col_of.
  pose proof (Z.mod_pos_bound p bs Hbs) as Hp.
  split.
  - intros [H|(dr & dc & Hd & Hr & Hc & ->)].
    { apply elem_of_nil in H. destruct H. }
    assert (Hdiv : ((p / bs + dr) * bs + (p mod bs + dc)) / bs = p / bs + dr).
    { rewrite Z.div_add_l, (Z.div_small (p mod bs + dc)) by lia. lia. }
    assert (Hmod : ((p / bs + dr) * bs + (p mod bs + dc)) mod bs
                   = p mod bs + dc).
    { rewrite (Z.add_comm ((p / bs + dr) * bs)), Z.mod_add, Z.mod_small by lia.
      reflexivity. }
    rewrite Hdiv, Hmod.
    repeat (apply elem_of_cons in Hd as [[= -> ->]|Hd]); [lia..|].
    apply elem_of_nil in Hd. destruct Hd.
  - intros [[Hr Hc] Hm]. right.
    pose proof (Z.div_mod q bs ltac:(lia)) as Hq.
    exists (q / bs - p / bs), (q mod bs - p mod bs).
    split; [|split; [lia|split; [lia|]]].
    + assert (Hcases :
        (q / bs - p / bs = -1 /\ q mod bs - p mod bs = 0)
        \/ (q / bs - p / bs = 1 /\ q mod bs - p mod bs = 0)
        \/ (q / bs - p / bs = 0 /\ q mod bs - p mod bs = 1)
        \/ (q / bs - p / bs = 0 /\ q mod bs - p mod bs = -1)) by lia.
      destruct Hcases as [[-> ->]|[[-> ->]|[[-> ->]|[-> ->]]]];
        repeat first [left | right; left | right].
      all: try (apply elem_of_cons; auto; fail).
      all: repeat (apply elem_of_cons; right); try (apply elem_of_cons; left; reflexivity).
    + lia.
Qed.

(** The neighbours are among the four cells around the point, in the
    order of the steps. *)
Lemma hamiltonian_neighbors_sublist (bs row col : Z)
    (deltas : list (Z * Z)) :
  forall acc,
  HamiltonianCycleAgent.neighbors_loop bs row col deltas acc
  `sublist_of`
  acc ++ ((fun d : Z * Z => (row + d.1) * bs + (col + d.2)) <$> deltas).
Proof.
  induction deltas as [|[dr dc] deltas IH]; intros acc;
    cbn [HamiltonianCycleAgent.neighbors_loop].
  - rewrite app_nil_r. reflexivity.
  - destruct (_ && _).
    + etransitivity; [apply IH|]. rewrite <- app_assoc. reflexivity.
    + etransitivity; [apply IH|]. apply sublist_app; [reflexivity|].
      cbn. apply sublist_cons. reflexivity.
Qed.

(** ** The search for a cycle by backtracking *)

Section Backtracking.

Import HamiltonianCycleAgent.

Variable bs : Z.

Lemma hamil_post_weaken (enough enough' dead dead' : Prop) sp pre s out :
  (enough' -> enough) -> (dead -> dead') ->
  hamil_post bs enough dead sp pre s out ->
  hamil_post bs enough' dead' sp pre s out.
Proof.
  intros He Hd. destruct out as [[|] st'| | |]; cbn; tauto.
Qed.

Lemma chain_snoc (pre : list Z) (k : nat) (point i : Z) :
  length pre = S k -> pre !! k = Some point ->
  chain bs pre -> i ∈ _get_neighbors bs point ->
  chain bs (pre ++ [i]).
Proof.
  intros Hlen Hpoint Hchain Hi j a b Ha Hb.
  destruct (decide (S j < length pre)%nat) as [Hlt|Hge].
  - rewrite lookup_app_l in Ha, Hb by lia. eapply Hchain; eauto.
  - assert (j = k) as ->.
    { apply lookup_lt_Some in Hb. rewrite length_app in Hb. simpl in Hb. lia. }
    rewrite lookup_app_l in Ha by lia.
    rewrite lookup_app_r in Hb by lia.
    replace (S k - length pre)%nat with 0%nat in Hb by lia.
    simpl in Hb. congruence.
Qed.

Lemma take_snoc_prefix (l pre : list Z) (i : Z) (k : nat) :
  length pre = k ->
  take (length (pre ++ [i])) l = pre ++ [i] -> take k l = pre.
Proof.
  intros Hlen H. rewrite length_app in H. simpl in H.
  apply (f_equal (take k)) in H. rewrite take_take in H.
  replace (k `min` (length pre + 1))%nat with k in H by lia.
  rewrite H. apply take_app_length'. lia.
Qed.

Lemma completion_snoc sp (pre : list Z) (i : Z) (l : list Z) :
  completion bs sp pre (i :: l) <-> completion bs sp (pre ++ [i]) l.
Proof.
  unfold completion. rewrite <- !(assoc_L (++)). reflexivity.
Qed.

Lemma hamil_loop_post (rec : cycle_search -> hamil_outcome) (enough : Prop)
    (sp : Z) (pre : list Z) (s : gset Z) (k : nat) (point : Z) :
  length pre = S k -> (S k < cycle_cells bs)%nat -> pre !! k = Some point ->
  NoDup pre -> chain bs pre -> (forall x, x ∈ s <-> x ∈ pre) ->
  (forall st1,
     partial_cycle bs st1 (S k) ->
     cs_start_point st1 = sp ->
     hamil_post bs enough
       (~ exists l, completion bs sp (take (S (S k)) (cs_cycle st1)) l)
       sp (take (S (S k)) (cs_cycle st1)) (cs_cycle_set st1) (rec st1)) ->
  forall nbrs st,
    (forall i, i ∈ nbrs -> i ∈ _get_neighbors bs point) ->
    cs_index st = Z.of_nat k ->
    length (cs_cycle st) = cycle_cells bs ->
    take (S k) (cs_cycle st) = pre ->
    cs_cycle_set st = s ->
    cs_start_point st = sp ->
    hamil_post bs enough
      (~ exists i l, i ∈ nbrs /\ completion bs sp pre (i :: l))
      sp pre s (hamil_loop rec nbrs st).
Proof.
  intros Hlen Hk Hpoint Hnodup Hchain Hset Hrec.
  induction nbrs as [|i nbrs IH]; intros st Hnbrs Hindex Hcyc Hpre Hs Hsp.
  { cbn. rewrite Hlen. repeat split; try assumption; try lia.
    intros (i & l & Hi & _). apply elem_of_nil in Hi. exact Hi. }
  cbn [hamil_loop].
  assert (Hnbrs' : forall i0, i0 ∈ nbrs -> i0 ∈ _get_neighbors bs point).
  { intros i0 Hi0. apply Hnbrs. right. exact Hi0. }
  destruct (bool_decide_reflect (i ∈ cs_cycle_set st)) as [Hin|Hnin].
  { eapply hamil_post_weaken; [exact (fun H => H)| |apply IH; assumption].
    intros Hdead (i0 & l & Hi0 & Hcomp).
    apply elem_of_cons in Hi0 as [->|Hi0]; [|apply Hdead; eauto].
    destruct Hcomp as (_ & Hnd & _).
    apply NoDup_app in Hnd as (_ & Hdisj & _).
    apply (Hdisj i); [apply Hset; rewrite <- Hs; exact Hin|left]. }
  unfold py_set. rewrite Hindex.
  replace (Z.of_nat k + 1) with (Z.of_nat (S k)) by lia.
  rewrite py_index_nat by lia.
  set (st1 := {| cs_start_point := cs_start_point st;
                 cs_cycle := <[S k := i]> (cs_cycle st);
                 cs_index := Z.of_nat (S k);
                 cs_cycle_set := cs_cycle_set st ∪ {[ i ]} |}).
  assert (Htake1 : take (S (S k)) (cs_cycle st1) = pre ++ [i]).
  { cbn [st1 cs_cycle]. erewrite take_S_r.
    2: { apply list_lookup_insert_eq. lia. }
    rewrite take_insert_ge by lia. rewrite Hpre. reflexivity. }
  assert (Hni : i ∉ pre).
  { intros Hi. apply Hnin. rewrite Hs. apply Hset. exact Hi. }
  assert (Hpc1 : partial_cycle bs st1 (S k)).
  { unfold partial_cycle. rewrite Htake1. cbn [st1 cs_index cs_cycle cs_cycle_set].
    rewrite length_insert. repeat split; try assumption; try lia.
    - apply NoDup_app. split; [exact Hnodup|]. split; [|apply NoDup_singleton].
      intros x Hx Hx'. apply list_elem_of_singleton in Hx'. subst x. auto.
    - rewrite elem_of_union, elem_of_singleton, elem_of_app,
        list_elem_of_singleton, Hs. intros [H|H]; [left; apply Hset|right]; auto.
    - rewrite elem_of_union, elem_of_singleton, elem_of_app,
        list_elem_of_singleton, Hs. intros [H|H]; [left; apply Hset|right]; auto.
    - eapply chain_snoc; eauto. apply Hnbrs. left. }
  specialize (Hrec st1 Hpc1 Hsp). rewrite Htake1 in Hrec.
  destruct (rec st1) as [[|] st'| | |]; cbn in Hrec; try contradiction.
  - (* the recursive call returned True *)
    destruct Hrec as (Hpc' & Hsp' & Htake' & Hclose). cbn.
    split; [exact Hpc'|]. split; [exact Hsp'|]. split; [|exact Hclose].
    rewrite Hlen. eapply take_snoc_prefix; eauto.
  - (* the recursive call returned False *)
    destruct Hrec as (Hindex' & Hset' & Hsp' & Hlen' & Htake' & Hdead').
    pose proof (take_snoc_prefix _ _ _ _ Hlen Htake') as Htake.
    rewrite length_app in Hindex', Htake'. simpl in Hindex', Htake'.
    rewrite Hlen in Hindex', Htake'.
    assert (Hi' : cs_cycle st' !! S k = Some i).
    { apply (f_equal (fun l => l !! S k)) in Htake'.
      rewrite lookup_take_lt in Htake' by lia.
      rewrite Htake'. rewrite lookup_app_r by lia.
      replace (S k - length pre)%nat with 0%nat by lia. reflexivity. }
    replace (cs_index st') with (Z.of_nat (S k)) by lia.
    rewrite (py_get_nat _ _ _ Hi').
    rewrite bool_decide_eq_true_2.
    2: { rewrite Hset'. cbn [st1 cs_cycle_set].
         apply elem_of_union. right. apply elem_of_singleton. reflexivity. }
    eapply hamil_post_weaken; [exact (fun H => H)| |].
    2: { apply IH; cbn [cs_index cs_cycle cs_cycle_set cs_start_point];
         try assumption; try lia.
         rewrite Hset', <- Hs. apply set_eq. intros x.
         rewrite elem_of_difference, elem_of_union, elem_of_singleton.
         split; [intros [[H|H] H']; [exact H|contradiction]|].
         intros H. split; [left; exact H|]. intros ->. auto. }
    intros Hdead (i0 & l & Hi0 & Hcomp).
    apply elem_of_cons in Hi0 as [->|Hi0]; [|apply Hdead; eauto].
    apply Hdead'. exists l. apply completion_snoc. exact Hcomp.
  - exact Hrec.
Qed.

Lemma hamil_util_post (fuel : nat) : forall st k,
  partial_cycle bs st k ->
  hamil_post bs (cycle_cells bs <= fuel + k)%nat
    (~ exists l, completion bs (cs_start_point st)
                   (take (S k) (cs_cycle st)) l)
    (cs_start_point st) (take (S k) (cs_cycle st)) (cs_cycle_set st)
    (_hamil_util fuel bs st).
Proof.
  induction fuel as [|fuel IH]; intros st k Hpc.
  { cbn. destruct Hpc as (_ & _ & Hk & _). lia. }
  pose proof Hpc as (Hindex & Hlen & Hk & Hnodup & Hset & Hchain).
  cbn [_hamil_util].
  destruct (cs_cycle st !! k) as [point|] eqn:Hpoint.
  2: { apply lookup_ge_None in Hpoint. lia. }
  rewrite Hindex, (py_get_nat _ _ _ Hpoint).
  assert (Hpre : length (take (S k) (cs_cycle st)) = S k)
    by (rewrite length_take; lia).
  assert (Hprek : take (S k) (cs_cycle st) !! k = Some point)
    by (rewrite lookup_take_lt by lia; exact Hpoint).
  destruct (Z.eqb_spec (Z.of_nat k) ((bs - 2) ^ 2 - 1)) as [Hlast|Hnot].
  - assert (Hk' : k = (cycle_cells bs - 1)%nat) by (unfold cycle_cells in *; lia).
    destruct (bool_decide_reflect
                (cs_start_point st ∈ _get_neighbors bs point)) as [Hin|Hnin];
      cbn; rewrite Hpre.
    + split; [rewrite <- Hk'; exact Hpc|]. split; [reflexivity|].
      split; [reflexivity|]. exists point. rewrite <- Hk'. auto.
    + repeat split; try assumption; try lia.
      intros (l & Hlen' & _ & _ & (x & Hx & Hsp)).
      rewrite length_app, Hpre in Hlen'.
      rewrite lookup_app_l, <- Hk', Hprek in Hx by lia.
      congruence.
  - assert (Hk' : (S k < cycle_cells bs)%nat) by (unfold cycle_cells in *; lia).
    eapply hamil_post_weaken.
    3: { eapply (hamil_loop_post (_hamil_util fuel bs)
                   (cycle_cells bs <= fuel + S k)%nat
                   (cs_start_point st) (take (S k) (cs_cycle st))
                   (cs_cycle_set st) k point); eauto.
         intros st1 Hpc1 <-. apply IH. exact Hpc1. }
    + lia.
    + intros Hdead (l & Hcomp). destruct l as [|i l].
      * destruct Hcomp as (Hlen' & _). rewrite app_nil_r, Hpre in Hlen'. lia.
      * apply Hdead. exists i, l. split; [|exact Hcomp].
        destruct Hcomp as (_ & _ & Hch & _). apply (Hch k point i).
        -- rewrite lookup_app_l by lia. exact Hprek.
        -- rewrite lookup_app_r by lia.
           replace (S k - length (take (S k) (cs_cycle st)))%nat with 0%nat
             by lia.
           reflexivity.
Qed.

Lemma get_cycle_post (fuel : nat) :
  3 <= bs ->
  hamil_post bs (cycle_cells bs <= fuel)%nat
    (~ exists l, completion bs (1 * bs + 1) [1 * bs + 1] l)
    (1 * bs + 1) [1 * bs + 1] {[ 1 * bs + 1 ]} (_get_cycle fuel bs).
Proof.
  intros Hbs. unfold _get_cycle. fold (cycle_cells bs).
  assert (Hcells : (0 < cycle_cells bs)%nat).
  { unfold cycle_cells. rewrite Z.pow_2_r. nia. }
  unfold py_set.
  pose proof (py_index_nat (replicate (cycle_cells bs) 0) 0) as Hidx.
  change (Z.of_nat 0) with 0 in Hidx.
  rewrite Hidx by (rewrite length_replicate; exact Hcells). clear Hidx.
  set (st := {| cs_start_point := 1 * bs + 1;
                cs_cycle := <[0%nat := 1 * bs + 1]> (replicate (cycle_cells bs) 0);
                cs_index := 0;
                cs_cycle_set := {[ 1 * bs + 1 ]} |}).
  assert (Htake : take 1 (cs_cycle st) = [1 * bs + 1]).
  { cbn [st cs_cycle]. destruct (cycle_cells bs); [lia|]. reflexivity. }
  assert (Hpc : partial_cycle bs st 0).
  { unfold partial_cycle. rewrite Htake. cbn [st cs_cycle cs_index cs_cycle_set].
    rewrite length_insert, length_replicate.
    split; [reflexivity|]. split; [reflexivity|]. split; [exact Hcells|].
    split; [apply NoDup_singleton|]. split.
    - intros x. rewrite elem_of_singleton, list_elem_of_singleton. reflexivity.
    - intros j a b Ha Hb. destruct j; discriminate. }
  pose proof (hamil_util_post fuel st 0%nat Hpc) as Hpost.
  rewrite Htake in Hpost. cbn [st cs_start_point cs_cycle_set] in Hpost.
  eapply hamil_post_weaken; [| |exact Hpost]; [lia|auto].
Qed.

End Backtracking.

(** ** Cycles through the interior *)

Lemma cycle_cells_pos (bs : Z) : 3 <= bs -> (0 < cycle_cells bs)%nat.
Proof. intros H. unfold cycle_cells. rewrite Z.pow_2_r. nia. Qed.

Lemma start_interior (bs : Z) : 3 <= bs -> interior bs (1 * bs + 1).
Proof.
  intros H. unfold interior, row_of, col_of.
  rewrite Z.div_add_l, Z.div_small by lia.
  rewrite (Z.add_comm (1 * bs) 1), Z.mod_add, Z.mod_small by lia. lia.
Qed.

Lemma closed_chain_hamiltonian (bs : Z)
    (st : HamiltonianCycleAgent.cycle_search) :
  3 <= bs ->
  partial_cycle bs st (cycle_cells bs - 1) ->
  take 1 (HamiltonianCycleAgent.cs_cycle st) = [1 * bs + 1] ->
  closes bs (1 * bs + 1) (HamiltonianCycleAgent.cs_cycle st) ->
  hamiltonian_cycle bs (HamiltonianCycleAgent.cs_cycle st)
  /\ HamiltonianCycleAgent.cs_cycle st !! 0%nat = Some (1 * bs + 1).
Proof.
  intros Hbs (_ & Hlen & _ & Hnodup & _ & Hchain) Htake (x & Hx & Hclose).
  pose proof (cycle_cells_pos bs Hbs) as Hpos.
  set (cycle := HamiltonianCycleAgent.cs_cycle st) in *.
  replace (S (cycle_cells bs - 1)) with (length cycle) in Hnodup, Hchain by lia.
  rewrite firstn_all in Hnodup, Hchain.
  assert (H0 : cycle !! 0%nat = Some (1 * bs + 1)).
  { rewrite <- (lookup_take_lt cycle 1 0) by lia. rewrite Htake. reflexivity. }
  assert (Hint : forall j p, cycle !! j = Some p -> interior bs p).
  { induction j as [|j IH]; intros p Hp.
    - rewrite H0 in Hp. injection Hp as <-. apply start_interior. exact Hbs.
    - destruct (cycle !! j) as [a|] eqn:Ha.
      2: { apply lookup_ge_None in Ha. apply lookup_lt_Some in Hp. lia. }
      apply (hamiltonian_neighbors_spec bs a p); [lia|].
      eapply Hchain; eauto. }
  split; [|exact H0].
  split; [exact Hlen|]. split; [exact Hnodup|]. split.
  - intros p Hp. apply list_elem_of_lookup in Hp as [j Hj]. eauto.
  - intros k a b Ha Hb. pose proof (lookup_lt_Some _ _ _ Ha) as Hk.
    destruct (decide (S k < length cycle)%nat) as [Hlt|Hge].
    + rewrite Nat.mod_small in Hb by lia.
      replace (k + 1)%nat with (S k) in Hb by lia.
      apply (hamiltonian_neighbors_spec bs a b); [lia|]. eapply Hchain; eauto.
    + replace (k + 1)%nat with (length cycle) in Hb by lia.
      rewrite Nat.Div0.mod_same in Hb.
      assert (k = (cycle_cells bs - 1)%nat) as -> by lia.
      assert (a = x) as -> by congruence.
      assert (b = 1 * bs + 1) as -> by congruence.
      apply (hamiltonian_neighbors_spec bs x (1 * bs + 1)); [lia|exact Hclose].
Qed.

(** A cycle through the interior visits every interior cell. *)
Lemma hamiltonian_cycle_covers (bs : Z) (cycle : list Z) :
  4 <= bs -> hamiltonian_cycle bs cycle ->
  forall p, interior bs p -> p ∈ cycle.
Proof.
  intros Hbs (Hlen & Hnodup & Hint & _) p Hp.
  assert (Hperm : cycle ≡ₚ interior_cells bs).
  { apply submseteq_length_Permutation.
    - apply NoDup_submseteq; [exact Hnodup|].
      intros x Hx. apply elem_of_interior_cells; auto.
    - rewrite length_interior_cells, Hlen by exact Hbs. reflexivity. }
  rewrite Hperm. apply elem_of_interior_cells; assumption.
Qed.

(** Along a chain of steps the sum of row and column changes its parity
    at every step. *)
Lemma chain_parity (bs : Z) (cycle : list Z) (s : Z) :
  cycle !! 0%nat = Some s ->
  (forall j a b, cycle !! j = Some a -> cycle !! S j = Some b ->
                 manhattan bs a b = 1) ->
  forall j a, cycle !! j = Some a ->
    exists m, row_of bs a + col_of bs a
              = row_of bs s + col_of bs s + Z.of_nat j + 2 * m.
Proof.
  intros H0 Hstep. induction j as [|j IH]; intros a Ha.
  - exists 0. rewrite H0 in Ha. injection Ha as <-. lia.
  - destruct (cycle !! j) as [a0|] eqn:Ha0.
    2: { apply lookup_ge_None in Ha0. apply lookup_lt_Some in Ha. lia. }
    destruct (IH a0 eq_refl) as [m Hm].
    pose proof (Hstep j a0 a Ha0 Ha) as Hadj. unfold manhattan in Hadj.
    assert (Hcases : row_of bs a + col_of bs a = row_of bs a0 + col_of bs a0 + 1
                     \/ row_of bs a + col_of bs a
                        = row_of bs a0 + col_of bs a0 - 1) by lia.
    destruct Hcases as [H|H]; [exists m|exists (m - 1)]; lia.
Qed.

Lemma odd_board_no_cycle (bs : Z) (cycle : list Z) :
  3 <= bs -> bs mod 2 = 1 -> ~ hamiltonian_cycle bs cycle.
Proof.
  intros Hbs Hodd (Hlen & _ & _ & Hadj).
  pose proof (cycle_cells_pos bs Hbs) as Hpos.
  destruct (cycle !! 0%nat) as [s|] eqn:Hs.
  2: { apply lookup_ge_None in Hs. lia. }
  destruct (cycle !! (cycle_cells bs - 1)%nat) as [a|] eqn:Ha.
  2: { apply lookup_ge_None in Ha. lia. }
  assert (Hstep : forall j a b, cycle !! j = Some a -> cycle !! S j = Some b ->
                                manhattan bs a b = 1).
  { intros j x y Hx Hy. apply (Hadj j); [exact Hx|].
    pose proof (lookup_lt_Some _ _ _ Hy). rewrite Nat.mod_small by lia.
    replace (j + 1)%nat with (S j) by lia. exact Hy. }
  destruct (chain_parity bs cycle s Hs Hstep _ _ Ha) as [m Hm].
  assert (Hclose : manhattan bs a s = 1).
  { apply (Hadj (cycle_cells bs - 1)%nat); [exact Ha|].
    replace (cycle_cells bs - 1 + 1)%nat with (length cycle) by lia.
    rewrite Nat.Div0.mod_same. exact Hs. }
  unfold manhattan in Hclose.
  pose proof (Z.div_mod bs 2 ltac:(lia)) as Hdiv. rewrite Hodd in Hdiv.
  assert (Hcells : Z.of_nat (cycle_cells bs - 1)
                   = 2 * (2 * (bs / 2) * (bs / 2) - 2 * (bs / 2))).
  { unfold cycle_cells in *. rewrite Z.pow_2_r in *. nia. }
  lia.
Qed.

(** ** The result of the search for a cycle *)

Lemma square_cycle_completion (bs : Z) :
  4 <= bs -> bs mod 2 = 0 ->
  exists l, completion bs (1 * bs + 1) [1 * bs + 1] l.
Proof.
  intros Hbs Heven.
  destruct (cycle_unfold bs Hbs Heven) as (l & Hl & _).
  unfold start_point in Hl. exists l. unfold completion.
  change ([1 * bs + 1] ++ l) with (1 * bs + 1 :: l). rewrite <- Hl.
  set (cycle := HamiltonianCycleAgent._get_cycle_square bs) in *.
  assert (Hlen : length cycle = cycle_cells bs) by apply cycle_length.
  pose proof (cycle_cells_pos bs ltac:(lia)) as Hpos.
  split; [exact Hlen|]. split; [apply cycle_NoDup; assumption|]. split.
  - intros j a b Ha Hb. apply hamiltonian_neighbors_spec; [lia|]. split.
    + eapply cycle_lookup; eauto.
    + eapply cycle_consecutive; eauto.
  - destruct (cycle !! (cycle_cells bs - 1)%nat) as [x|] eqn:Hx.
    2: { apply lookup_ge_None in Hx. lia. }
    exists x. split; [exact Hx|].
    apply hamiltonian_neighbors_spec; [lia|]. split.
    + apply start_interior. lia.
    + apply (cycle_wraparound bs Hbs Heven).
      * fold cycle. rewrite Hlen. exact Hx.
      * fold cycle. rewrite Hl. reflexivity.
Qed.

(** X10: [_get_neighbors] of the Hamiltonian agent returns the cells off
    the border at Manhattan distance 1 from the point, each of them once,
    four at most; and a cell off the border is among the neighbours of
    each of its neighbours. *)
Theorem hamiltonian_neighbors_adjacent (bs p : Z) :
  0 < bs ->
  let neighbors := HamiltonianCycleAgent._get_neighbors bs p in
  (forall q, q ∈ neighbors <-> interior bs q /\ manhattan bs p q = 1)
  /\ NoDup neighbors
  /\ (length neighbors <= 4)%nat
  /\ (interior bs p ->
      forall q, q ∈ neighbors -> p ∈ HamiltonianCycleAgent._get_neighbors bs q).
Proof.
  intros Hbs neighbors. split; [|split; [|split]].
  - intros q. apply hamiltonian_neighbors_spec. exact Hbs.
  - destruct (decide (3 <= bs)) as [H3|H3].
    + eapply sublist_NoDup;
        [|apply (hamiltonian_neighbors_sublist bs (p / bs) (p mod bs)
                   [(-1, 0); (1, 0); (0, 1); (0, -1)] [])].
      cbn [app fmap list_fmap fst snd].
      repeat (apply NoDup_cons; split;
              [rewrite ?elem_of_cons, elem_of_nil; lia|]).
      apply NoDup_nil. exact I.
    + destruct neighbors as [|q l] eqn:E; [apply NoDup_nil; exact I|].
      assert (Hq : q ∈ HamiltonianCycleAgent._get_neighbors bs p)
        by (fold neighbors; rewrite E; left).
      apply hamiltonian_neighbors_spec in Hq as [[Hq _] _]; [lia|exact Hbs].
  - pose proof (sublist_length _ _
      (hamiltonian_neighbors_sublist bs (p / bs) (p mod bs)
         [(-1, 0); (1, 0); (0, 1); (0, -1)] [])) as Hlen.
    exact Hlen.
  - intros Hp q Hq. apply hamiltonian_neighbors_spec in Hq as [_ Hq];
      [|exact Hbs].
    apply hamiltonian_neighbors_spec; [exact Hbs|]. split; [exact Hp|].
    unfold manhattan in *. lia.
Qed.

Lemma hamiltonian_neighbors_adjacent_witness :
  12 ∈ HamiltonianCycleAgent._get_neighbors 10 11
  /\ NoDup (HamiltonianCycleAgent._get_neighbors 10 11)
  /\ 11 ∈ HamiltonianCycleAgent._get_neighbors 10 12.
Proof.
  destruct (hamiltonian_neighbors_adjacent 10 11 ltac:(lia))
    as (H1 & H2 & _ & H4).
  assert (H12 : 12 ∈ HamiltonianCycleAgent._get_neighbors 10 11).
  { apply H1. vm_compute. intuition congruence. }
  split; [exact H12|]. split; [exact H2|].
  apply H4; [|exact H12]. vm_compute. intuition congruence.
Defined.

(** X11: on a board of even side of at least 4, [_get_cycle] finds a
    cycle within a recursion depth of the number of interior cells:
    [_hamil_util] returns [True], and [_cycle] then holds every interior
    cell exactly once, the cell (1, 1) first, each cell at Manhattan
    distance 1 from the next one and the last cell from the first. *)
Theorem hamiltonian_get_cycle_even (bs : Z) (fuel : nat) :
  4 <= bs -> bs mod 2 = 0 -> (cycle_cells bs <= fuel)%nat ->
  exists st,
    HamiltonianCycleAgent._get_cycle fuel bs
    = HamiltonianCycleAgent.Returns true st
    /\ hamiltonian_cycle bs (HamiltonianCycleAgent.cs_cycle st)
    /\ HamiltonianCycleAgent.cs_cycle st !! 0%nat = Some (1 * bs + 1)
    /\ forall p, interior bs p -> p ∈ HamiltonianCycleAgent.cs_cycle st.
Proof.
  intros Hbs Heven Hfuel.
  pose proof (get_cycle_post bs fuel ltac:(lia)) as Hpost.
  destruct (HamiltonianCycleAgent._get_cycle fuel bs) as [[|] st| | |];
    cbn in Hpost; try contradiction.
  - destruct Hpost as (Hpc & _ & Htake & Hclose).
    destruct (closed_chain_hamiltonian bs st ltac:(lia) Hpc Htake Hclose)
      as [Hham H0].
    exists st. split; [reflexivity|]. split; [exact Hham|]. split; [exact H0|].
    apply hamiltonian_cycle_covers; assumption.
  - destruct Hpost as (_ & _ & _ & _ & _ & Hdead).
    destruct Hdead. apply square_cycle_completion; assumption.
Qed.

Lemma hamiltonian_get_cycle_even_witness :
  exists st,
    HamiltonianCycleAgent._get_cycle 16 6
    = HamiltonianCycleAgent.Returns true st
    /\ hamiltonian_cycle 6 (HamiltonianCycleAgent.cs_cycle st).
Proof.
  destruct (hamiltonian_get_cycle_even 6 16) as (st & H1 & H2 & _);
    [lia | reflexivity | vm_compute; lia |].
  exists st. split; [exact H1 | exact H2].
Defined.

(** X12: on a board of odd side of at least 3 no cycle through the
    interior cells exists, and [_get_cycle] ends with [_hamil_util]
    returning [False], [_index] back at 0 and [_cycle_set] back at the
    start point alone. *)
Theorem hamiltonian_get_cycle_odd (bs : Z) (fuel : nat) :
  3 <= bs -> bs mod 2 = 1 -> (cycle_cells bs <= fuel)%nat ->
  (forall cycle, ~ hamiltonian_cycle bs cycle)
  /\ exists st,
       HamiltonianCycleAgent._get_cycle fuel bs
       = HamiltonianCycleAgent.Returns false st
       /\ HamiltonianCycleAgent.cs_index st = 0
       /\ HamiltonianCycleAgent.cs_cycle_set st = {[ 1 * bs + 1 ]}.
Proof.
  intros Hbs Hodd Hfuel.
  split; [intros cycle; apply odd_board_no_cycle; assumption|].
  pose proof (get_cycle_post bs fuel Hbs) as Hpost.
  destruct (HamiltonianCycleAgent._get_cycle fuel bs) as [[|] st| | |];
    cbn in Hpost; try contradiction.
  - destruct Hpost as (Hpc & _ & Htake & Hclose).
    destruct (closed_chain_hamiltonian bs st Hbs Hpc Htake Hclose)
      as [Hham _].
    destruct (odd_board_no_cycle bs _ Hbs Hodd Hham).
  - destruct Hpost as (Hindex & Hset & _).
    exists st. split; [reflexivity|]. split; [exact Hindex|exact Hset].
Qed.

Lemma hamiltonian_get_cycle_odd_witness :
  exists st,
    HamiltonianCycleAgent._get_cycle 9 5
    = HamiltonianCycleAgent.Returns false st
    /\ HamiltonianCycleAgent.cs_index st = 0.
Proof.
  destruct (hamiltonian_get_cycle_odd 5 9) as (_ & st & H1 & H2 & _);
    [lia | reflexivity | vm_compute; lia |].
  exists st. split; [exact H1 | exact H2].
Defined.

(** X13: when a call of [_hamil_util] returns [False], it leaves
    [_index] and [_cycle_set] as they were at the call and the cells of
    [_cycle] up to [_index] unchanged; and the path up to [_index] cannot
    be completed to a cycle. *)
Theorem hamil_util_backtracks (bs : Z) (fuel k : nat)
    (st st' : HamiltonianCycleAgent.cycle_search) :
  partial_cycle bs st k ->
  HamiltonianCycleAgent._hamil_util fuel bs st
  = HamiltonianCycleAgent.Returns false st' ->
  HamiltonianCycleAgent.cs_index st' = HamiltonianCycleAgent.cs_index st
  /\ HamiltonianCycleAgent.cs_cycle_set st'
     = HamiltonianCycleAgent.cs_cycle_set st
  /\ take (S k) (HamiltonianCycleAgent.cs_cycle st')
     = take (S k) (HamiltonianCycleAgent.cs_cycle st)
  /\ ~ exists l, completion bs (HamiltonianCycleAgent.cs_start_point st)
                   (take (S k) (HamiltonianCycleAgent.cs_cycle st)) l.
Proof.
  intros Hpc Hret.
  pose proof (hamil_util_post bs fuel st k Hpc) as Hpost.
  rewrite Hret in Hpost. cbn in Hpost.
  destruct Hpc as (Hindex & Hlen & Hk & _).
  rewrite length_take in Hpost.
  replace (S k `min` length (HamiltonianCycleAgent.cs_cycle st))%nat
    with (S k) in Hpost by lia.
  destruct Hpost as (H1 & H2 & _ & _ & H5 & H6).
  split; [lia|]. split; [exact H2|]. split; [exact H5|exact H6].
Qed.

Lemma hamil_util_backtracks_witness :
  exists st',
    HamiltonianCycleAgent._hamil_util 9 5 backtracking_example
    = HamiltonianCycleAgent.Returns false st'
    /\ HamiltonianCycleAgent.cs_index st' = 0
    /\ HamiltonianCycleAgent.cs_cycle_set st' = {[ 6 ]}.
Proof.
  assert (Hpc : partial_cycle 5 backtracking_example 0).
  { unfold partial_cycle, backtracking_example.
    cbn [HamiltonianCycleAgent.cs_index HamiltonianCycleAgent.cs_cycle
         HamiltonianCycleAgent.cs_cycle_set take].
    split; [reflexivity|]. split; [reflexivity|].
    split; [vm_compute; lia|]. split; [apply NoDup_singleton|]. split.
    - intros x. rewrite elem_of_singleton, list_elem_of_singleton.
      reflexivity.
    - intros [|j] a b Ha Hb; discriminate. }
  destruct (HamiltonianCycleAgent._hamil_util 9 5 backtracking_example)
    as [ret st'| | |] eqn:Hret.
  2,3,4: vm_compute in Hret; discriminate.
  destruct ret; [vm_compute in Hret; discriminate|].
  destruct (hamil_util_backtracks 5 9 0 backtracking_example st' Hpc Hret)
    as (H1 & H2 & _).
  exists st'. split; [reflexivity|]. split; [exact H1|exact H2].
Defined.

(** ** The traversal decision off the cycle *)

Lemma find_index_absent (cycle : list Z) (cy_len curr : Z) :
  Z.of_nat (length cycle) = cy_len -> curr ∉ cycle ->
  forall fuel i, 0 <= i < cy_len ->
    HamiltonianCycleAgent.find_index fuel cycle cy_len curr i = OutOfFuel.
Proof.
  intros Hlen Habs. induction fuel as [|fuel IH]; intros i Hi; [reflexivity|].
  cbn [HamiltonianCycleAgent.find_index].
  destruct (cycle !! Z.to_nat i) as [c|] eqn:Hc.
  2: { apply lookup_ge_None in Hc. lia. }
  replace i with (Z.of_nat (Z.to_nat i)) at 1 by lia.
  rewrite (py_get_nat _ _ _ Hc). cbn [obind].
  destruct (Z.eqb_spec c curr) as [->|Hne].
  - destruct Habs. apply list_elem_of_lookup. eauto.
  - apply IH. apply Z.mod_pos_bound. lia.
Qed.

Lemma init_inv (board_size n_actions : Z) (self : HamiltonianCycleAgent.t) :
  HamiltonianCycleAgent.__init__ board_size n_actions = Ok self ->
  board_size mod 2 = 0
  /\ 0 < board_size
  /\ self = {| HamiltonianCycleAgent._board_size := board_size;
               HamiltonianCycleAgent._n_actions := n_actions;
               HamiltonianCycleAgent._cycle :=
                 HamiltonianCycleAgent._get_cycle_square board_size |}.
Proof.
  unfold HamiltonianCycleAgent.__init__. intros Hinit.
  destruct (Z.eqb_spec (board_size mod 2) 0) as [Heven|]; [|discriminate].
  destruct (Z.leb_spec board_size 0) as [|Hpos]; [discriminate|].
  cbn [negb] in Hinit. injection Hinit as <-. auto.
Qed.

(** X14: when the position computed for the head is not an interior
    cell (as is the position 0 of a board without a head cell), the loop
    of [move] that looks the head up in the cycle never ends: [move] does
    not return, whatever the fuel. *)
Theorem hamiltonian_move_off_cycle (board_size n_actions : Z)
    (self : HamiltonianCycleAgent.t) (board : board3) (b0 : list (list Z))
    (legal_moves : list Z) (vals : values) (curr_head : Z) :
  HamiltonianCycleAgent.__init__ board_size n_actions = Ok self ->
  4 <= board_size ->
  frame 0 board = Ok b0 ->
  Agent.grid_where board_size b0 (v_head vals) = Ok curr_head ->
  ~ interior board_size curr_head ->
  forall fuel,
    HamiltonianCycleAgent.move fuel self board legal_moves vals = OutOfFuel.
Proof.
  intros Hinit H4 Hframe Hhead Hoff fuel.
  apply init_inv in Hinit as (Heven & _ & ->).
  unfold HamiltonianCycleAgent.move.
  cbn [HamiltonianCycleAgent._board_size HamiltonianCycleAgent._cycle].
  rewrite Hframe. cbn [obind]. rewrite Hhead. cbn [obind].
  rewrite find_index_absent; [reflexivity| | |].
  - rewrite cycle_length, Z.pow_2_r. nia.
  - intros Hin. apply list_elem_of_lookup in Hin as [k Hk].
    apply Hoff. eapply cycle_lookup; eauto.
  - rewrite Z.pow_2_r. nia.
Qed.

Lemma hamiltonian_move_off_cycle_witness :
  HamiltonianCycleAgent.move 1000 hamiltonian_example_agent
    (two_frames headless_cells) [1; 1; 1; 1] bfs_values = OutOfFuel.
Proof.
  apply (hamiltonian_move_off_cycle 4 4 hamiltonian_example_agent
           (two_frames headless_cells) headless_cells [1; 1; 1; 1]
           bfs_values 0).
  - reflexivity.
  - lia.
  - reflexivity.
  - reflexivity.
  - vm_compute. intros [[H _] _]. apply H. reflexivity.
Defined.

(** X15: when the cell before the head on the cycle is 0 in the current
    frame, [move] returns 3 if the next cell of the cycle has the greater
    flat index and 1 otherwise: 3 for a step to the next row or the next
    column, 1 for a step to the row or the column before.  For a step
    along a row these are not the actions 0 and 2 of the table. *)
Theorem hamiltonian_move_predecessor_free
    (fuel : nat) (board_size n_actions : Z) (self : HamiltonianCycleAgent.t)
    (board : board3) (b0 : list (list Z)) (legal_moves : list Z)
    (vals : values) (row col k : nat) (prev : Z) :
  let cycle := HamiltonianCycleAgent._cycle self in
  let n := length cycle in
  HamiltonianCycleAgent.__init__ board_size n_actions = Ok self ->
  frame 0 board = Ok b0 ->
  has_shape b0 (Z.to_nat board_size) (Z.to_nat board_size) = true ->
  only_at b0 (v_head vals) row col ->
  cycle !! k = Some (Z.of_nat row * board_size + Z.of_nat col) ->
  cycle !! ((k + n - 1) mod n)%nat = Some prev ->
  py_get3 board (prev / board_size) (prev mod board_size) 0 = Ok 0 ->
  (n <= fuel)%nat ->
  exists next action,
    cycle !! ((k + 1) mod n)%nat = Some next
    /\ HamiltonianCycleAgent.move fuel self board legal_moves vals = Ok action
    /\ let dx := next mod board_size - Z.of_nat col in
       let dy := Z.of_nat row - next / board_size in
       (dx = 1 /\ dy = 0 /\ action = 3)
       \/ (dx = 0 /\ dy = 1 /\ action = 1)
       \/ (dx = -1 /\ dy = 0 /\ action = 1)
       \/ (dx = 0 /\ dy = -1 /\ action = 3).
Proof.
  intros cycle n Hinit Hframe Hshape Hhead Hk Hprev Hcell Hfuel.
  apply init_inv in Hinit as (Heven & Hpos & ->).
  cbn [HamiltonianCycleAgent._cycle] in cycle. subst cycle n.
  set (cycle := HamiltonianCycleAgent._get_cycle_square board_size) in *.
  pose proof (lookup_lt_Some _ _ _ Hk) as Hklt.
  assert (H4 : 4 <= board_size).
  { destruct (Z.lt_ge_cases board_size 4) as [Hlt|]; [|assumption].
    pose proof (Z.div_mod board_size 2 ltac:(lia)) as Hdiv.
    assert (board_size = 2) as -> by lia. simpl in Hklt. lia. }
  pose proof (cycle_length board_size) as Hlen. fold cycle in Hlen.
  rewrite Z.pow_2_r in Hlen.
  assert (HlenZ : Z.of_nat (length cycle) = (board_size - 2) ^ 2).
  { rewrite Hlen, Z.pow_2_r. nia. }
  destruct (cycle !! ((k + 1) mod length cycle)%nat) as [next|] eqn:Hnext.
  2: { apply lookup_ge_None in Hnext.
       pose proof (Nat.mod_upper_bound (k + 1) (length cycle)). lia. }
  pose proof (cycle_adjacent board_size H4 Heven k _ _ Hk Hnext) as Hadj.
  assert (Hcol : 0 <= Z.of_nat col < board_size).
  { split; [lia|]. apply has_shape_spec in Hshape as [_ Hcols].
    destruct Hhead as [Hc2 _]. unfold cell2 in Hc2.
    destruct (b0 !! row) as [brow|] eqn:Hbrow; [|done]. simpl in Hc2.
    apply lookup_lt_Some in Hc2. rewrite (Hcols _ _ Hbrow) in Hc2. lia. }
  unfold manhattan in Hadj. rewrite row_of_rc, col_of_rc in Hadj by lia.
  unfold row_of, col_of in Hadj.
  set (curr := Z.of_nat row * board_size + Z.of_nat col) in *.
  exists next, (if next >? curr then 3 else 1).
  split; [reflexivity|]. split.
  - unfold HamiltonianCycleAgent.move.
    cbn [HamiltonianCycleAgent._board_size HamiltonianCycleAgent._cycle].
    fold cycle. rewrite Hframe. cbn [obind].
    rewrite (grid_where_only_at _ _ _ _ _ Hshape Hhead). cbn [obind].
    fold curr.
    change 0 with (Z.of_nat 0) at 1.
    rewrite (find_index_first cycle _ _ k Hk); try lia; try assumption.
    2: { intros j Hj. apply (cycle_lookup board_size H4 Heven) in Hj, Hk. lia. }
    cbn [obind].
    replace ((Z.of_nat k - 1) mod (board_size - 2) ^ 2)
      with (Z.of_nat ((k + length cycle - 1) mod length cycle)).
    2: { rewrite <- HlenZ, Nat2Z.inj_mod.
         replace (Z.of_nat (k + length cycle - 1))
           with (Z.of_nat k - 1 + 1 * Z.of_nat (length cycle)) by lia.
         apply Z.mod_add. lia. }
    rewrite (py_get_nat _ _ _ Hprev). cbn [obind].
    replace ((Z.of_nat k + 1) mod (board_size - 2) ^ 2)
      with (Z.of_nat ((k + 1) mod length cycle)).
    2: { rewrite <- HlenZ, Nat2Z.inj_mod. f_equal. lia. }
    rewrite (py_get_nat _ _ _ Hnext). cbn [obind].
    rewrite Hcell. cbn [obind]. rewrite Z.eqb_refl.
    destruct (next >? curr); reflexivity.
  - cbv zeta. pose proof (Z.div_mod next board_size ltac:(lia)) as Hdm.
    pose proof (Z.mod_pos_bound next board_size ltac:(lia)) as Hmod.
    destruct (Z.gtb_spec next curr) as [Hgt|Hle]; subst curr; nia.
Qed.

Lemma hamiltonian_move_predecessor_free_witness :
  exists next,
    HamiltonianCycleAgent._cycle hamiltonian_example_agent !! 1%nat = Some next
    /\ HamiltonianCycleAgent.move 4 hamiltonian_example_agent
         (two_frames hamiltonian_free_cells) [1; 1; 1; 1] bfs_values
       = Ok 3
    /\ next mod 4 - 1 = 0 /\ 1 - next / 4 = -1.
Proof.
  destruct (hamiltonian_move_predecessor_free 4 4 4 hamiltonian_example_agent
              (two_frames hamiltonian_free_cells) hamiltonian_free_cells
              [1; 1; 1; 1] bfs_values 1 1 0 6)
    as (next & action & H1 & H2 & H3).
  - reflexivity.
  - reflexivity.
  - reflexivity.
  - apply only_atb_sound. reflexivity.
  - reflexivity.
  - reflexivity.
  - reflexivity.
  - vm_compute. lia.
  - exists next. split; [exact H1|].
    cbv zeta in H3. vm_compute in H1. injection H1 as <-.
    change (9 mod 4) with 1 in *. change (9 / 4) with 2 in *.
    change (Z.of_nat 1) with 1 in H3.
    assert (action = 3) as -> by lia. split; [exact H2|]. lia.
Defined.

(** ** The distances and the path of the breadth-first search *)

Lemma py_set2_cell2 {A} (n : nat) (a a' : list (list A)) (i j : Z) (x : A) :
  square n a -> py_set2 a i j x = Ok a' ->
  square n a'
  /\ exists r c,
       (forall r' c',
          cell2 a' r' c'
          = if bool_decide ((r', c') = (r, c)) then Some x else cell2 a r' c').
Proof.
  intros [Hlen Hrows] Hset.
  apply py_set2_inv in Hset as (r & c & row & Hr & Hrow & Hc & ->).
  pose proof (lookup_lt_Some _ _ _ Hrow) as Hrlt.
  assert (Hclt : (c < length row)%nat).
  { unfold py_index in Hc.
    destruct ((0 <=? j) && (j <? Z.of_nat (length row))) eqn:E1.
    - injection Hc as <-. lia.
    - destruct ((- Z.of_nat (length row) <=? j) && (j <? 0)) eqn:E2;
        [|discriminate]. injection Hc as <-. lia. }
  split.
  - split; [rewrite length_insert; exact Hlen|].
    intros r0 row0 H0. destruct (decide (r = r0)) as [<-|Hne].
    + rewrite list_lookup_insert_eq in H0 by lia.
      injection H0 as <-. rewrite length_insert. eauto.
    + rewrite list_lookup_insert_ne in H0 by assumption. eauto.
  - exists r, c. intros r' c'. unfold cell2. case_bool_decide as Heq.
    + injection Heq as -> ->. rewrite list_lookup_insert_eq by lia. cbn.
      apply list_lookup_insert_eq. exact Hclt.
    + destruct (decide (r = r')) as [<-|Hner].
      * rewrite list_lookup_insert_eq by lia. rewrite Hrow. cbn.
        apply list_lookup_insert_ne. congruence.
      * rewrite list_lookup_insert_ne by assumption. reflexivity.
Qed.

Lemma py_get2_cell2 {A} (a : list (list A)) (i j : Z) (x : A) :
  py_get2 a i j = Ok x ->
  exists r c row,
    py_index a i = Some r /\ a !! r = Some row /\ py_index row j = Some c
    /\ cell2 a r c = Some x.
Proof.
  intros H. apply py_get2_inv in H as (r & c & row & Hr & Hrow & Hc & Hx).
  exists r, c, row. unfold cell2. rewrite Hrow. auto.
Qed.

(** Two square arrays of one side are indexed alike. *)
Lemma py_get2_same_cell {A B} (n : nat) (a : list (list A))
    (b : list (list B)) (i j : Z) (x : A) (y : B) :
  square n a -> square n b ->
  py_get2 a i j = Ok x ->
  (forall r c, cell2 a r c = Some x -> cell2 b r c = Some y) ->
  py_get2 b i j = Ok y.
Proof.
  intros [Hla Hra] [Hlb Hrb] Hget Hcell.
  apply py_get2_cell2 in Hget as (r' & c' & row & Hr & Hrow & Hc & Hx).
  specialize (Hcell _ _ Hx). unfold cell2 in Hcell.
  destruct (b !! r') as [brow|] eqn:Hbrow; [|done]. cbn in Hcell.
  unfold py_get2, py_get.
  rewrite (py_index_length b a) by lia. rewrite Hr, Hbrow. cbn [obind].
  rewrite (py_index_length brow row)
    by (rewrite (Hra _ _ Hrow), (Hrb _ _ Hbrow); reflexivity).
  rewrite Hc, Hcell. reflexivity.
Qed.

Section SearchInvariant.

Import BreadthFirstSearchAgent.

Variable bs : Z.

Variable vals : values.

Variable board : list (list Z).

Variable n head_row head_col : nat.

Lemma set_distance_zero_at dist dist' (i j : Z) (y : Z) :
  zero_at_head head_row head_col n dist ->
  py_set2 dist i j (Steps (1 + y)) = Ok dist' ->
  0 <= y ->
  zero_at_head head_row head_col n dist'.
Proof.
  intros [Hsq Hz] Hset Hy.
  destruct (py_set2_cell2 n _ _ _ _ _ Hsq Hset) as (Hsq' & r & c & Hcell).
  split; [exact Hsq'|]. intros r' c' x. rewrite Hcell.
  case_bool_decide; [|apply Hz]. intros [= <-]. lia.
Qed.

Lemma visit_neighbors_zero_at (curr_row curr_col : Z) (nbrs : list Z) :
  forall st st',
  zero_at_head head_row head_col n (distances st) ->
  visit_neighbors bs vals board curr_row curr_col nbrs st = Ok st' ->
  zero_at_head head_row head_col n (distances st').
Proof.
  induction nbrs as [|p nbrs IH]; intros st st' Hinv Hvisit.
  - injection Hvisit as <-. exact Hinv.
  - cbn [visit_neighbors] in Hvisit.
    destruct (Agent._point_to_row_col bs p) as [row col].
    destruct (py_get2 (distances st) row col) as [d| |];
      cbn [obind] in Hvisit; try discriminate.
    destruct (py_get2 (distances st) curr_row curr_col) as [d_curr| |] eqn:Hcurr;
      cbn [obind] in Hvisit; try discriminate.
    assert (Hdist : exists dist,
      (if distance_gtb d (distance_succ d_curr)
       then py_set2 (distances st) row col (distance_succ d_curr)
       else Ok (distances st)) = Ok dist
      /\ zero_at_head head_row head_col n dist).
    { destruct (distance_gtb d (distance_succ d_curr)) eqn:Hgt.
      - destruct (py_set2 (distances st) row col (distance_succ d_curr))
          as [dist| |] eqn:Hset; cbn [obind] in Hvisit; try discriminate.
        exists dist. split; [reflexivity|].
        destruct d_curr as [|y]; [destruct d; discriminate|].
        eapply set_distance_zero_at; [exact Hinv|exact Hset|].
        apply py_get2_cell2 in Hcurr as (r & c & _ & _ & _ & _ & Hc).
        apply Hinv in Hc. lia.
      - eauto. }
    destruct Hdist as (dist & Hd & Hinv'). rewrite Hd in Hvisit.
    cbn [obind] in Hvisit.
    destruct (py_get2 board row col) as [cell| |];
      cbn [obind] in Hvisit; try discriminate.
    destruct (cell =? v_food vals).
    { injection Hvisit as <-. exact Hinv'. }
    destruct (py_get2 (visited st) row col) as [v| |];
      cbn [obind] in Hvisit; try discriminate.
    destruct (v =? 0).
    + destruct (py_set2 (visited st) curr_row curr_col 1) as [vis| |];
        cbn [obind] in Hvisit; try discriminate.
      eapply IH; [|exact Hvisit]. exact Hinv'.
    + eapply IH; [|exact Hvisit]. exact Hinv'.
Qed.

Lemma search_zero_at (fuel : nat) : forall st flag dist,
  zero_at_head head_row head_col n (distances st) ->
  search fuel bs vals board st = Ok (flag, dist) ->
  zero_at_head head_row head_col n dist.
Proof.
  induction fuel as [|fuel IH]; intros st flag dist Hinv Hsearch;
    [discriminate|].
  cbn [search] in Hsearch.
  destruct (points_to_search st) as [|curr queue].
  { injection Hsearch as <- <-. exact Hinv. }
  destruct (Agent._point_to_row_col bs curr) as [curr_row curr_col].
  destruct (_get_neighbors bs curr vals board) as [nbrs| |];
    cbn [obind] in Hsearch; try discriminate.
  destruct nbrs as [|p nbrs].
  - eapply IH; [|exact Hsearch]. exact Hinv.
  - destruct (visit_neighbors bs vals board curr_row curr_col (p :: nbrs) _)
      as [st'| |] eqn:Hvisit; cbn [obind] in Hsearch; try discriminate.
    assert (Hinv' : zero_at_head head_row head_col n (distances st')).
    { eapply visit_neighbors_zero_at; [|exact Hvisit]. exact Hinv. }
    destruct (found st').
    + injection Hsearch as <- <-. exact Hinv'.
    + eapply IH; [|exact Hsearch]. exact Hinv'.
Qed.

(** A cell that [_get_neighbors] returns is one step away and can be
    entered. *)
Lemma bfs_neighbors_loop_elem (row col : Z) (deltas : list (Z * Z)) :
  forall acc l,
  neighbors_loop bs row col vals board deltas acc = Ok l ->
  forall q, q ∈ l ->
    q ∈ acc
    \/ exists dr dc cell,
         (dr, dc) ∈ deltas
         /\ q = (row + dr) * bs + (col + dc)
         /\ py_get2 board (row + dr) (col + dc) = Ok cell
         /\ can_enter vals cell.
Proof.
  induction deltas as [|[dr dc] deltas IH]; intros acc l Hloop q Hq;
    cbn [neighbors_loop] in Hloop.
  - injection Hloop as <-. left. exact Hq.
  - destruct (py_get2 board (row + dr) (col + dc)) as [cell| |] eqn:Hcell;
      cbn [obind] in Hloop; try discriminate.
    destruct ((cell =? v_board vals) || (cell =? v_food vals)
              || (cell =? v_head vals)) eqn:E.
    + destruct (IH _ _ Hloop q Hq) as [Hin|(dr' & dc' & cell' & Hd & Hrest)].
      * apply elem_of_app in Hin as [Hin|Hin]; [left; exact Hin|].
        apply list_elem_of_singleton in Hin. right.
        exists dr, dc, cell. split; [left|]. split; [exact Hin|].
        split; [exact Hcell|]. unfold can_enter.
        apply orb_prop in E as [E|E]; [apply orb_prop in E as [E|E]|];
          apply Z.eqb_eq in E; auto.
      * right. exists dr', dc', cell'. split; [right; exact Hd|exact Hrest].
    + destruct (IH _ _ Hloop q Hq) as [Hin|(dr' & dc' & cell' & Hd & Hrest)].
      * left. exact Hin.
      * right. exists dr', dc', cell'. split; [right; exact Hd|exact Hrest].
Qed.

Lemma bfs_neighbors_step (p q : Z) (nbrs : list Z) :
  _get_neighbors bs p vals board = Ok nbrs -> q ∈ nbrs ->
  bfs_step bs vals board p q.
Proof.
  unfold _get_neighbors, Agent._point_to_row_col. intros Hn Hq.
  destruct (bfs_neighbors_loop_elem _ _ _ _ _ Hn q Hq) as [Hin|H].
  - apply elem_of_nil in Hin. destruct Hin.
  - exact H.
Qed.

Lemma closer_neighbor_elem (dist : list (list distance)) (d_curr : Z)
    (nbrs : list Z) (p : Z) :
  closer_neighbor bs dist d_curr nbrs = Ok (Some p) ->
  p ∈ nbrs
  /\ py_get2 dist (p / bs) (p mod bs) = Ok (Steps (d_curr - 1)).
Proof.
  induction nbrs as [|q nbrs IH]; cbn [closer_neighbor]; [discriminate|].
  unfold Agent._point_to_row_col in *.
  destruct (py_get2 dist (q / bs) (q mod bs)) as [d| |] eqn:Hd;
    cbn [obind]; try discriminate.
  destruct d as [|x].
  - intros H. destruct (IH H). split; [right|]; assumption.
  - destruct (Z.eqb_spec x (d_curr - 1)) as [->|].
    + intros [= <-]. split; [left|exact Hd].
    + intros H. destruct (IH H). split; [right|]; assumption.
Qed.

(** The path that the reconstruction returns. *)
Lemma reconstruct_sound (dist : list (list distance)) (fuel : nat) :
  forall curr path0 path,
  last path0 = Some curr ->
  (forall k p q, path0 !! k = Some p -> path0 !! S k = Some q ->
                 bfs_step bs vals board p q) ->
  reconstruct fuel bs vals board dist curr path0 = Ok path ->
  path <> [] ->
  (exists ext, path = path0 ++ ext)
  /\ (forall k p q, path !! k = Some p -> path !! S k = Some q ->
                    bfs_step bs vals board p q)
  /\ exists end_point,
       last path = Some end_point
       /\ py_get2 dist (end_point / bs) (end_point mod bs) = Ok (Steps 0).
Proof.
  induction fuel as [|fuel IH]; intros curr path0 path Hlast Hsteps Hrec Hne;
    [discriminate|].
  cbn [reconstruct] in Hrec. unfold Agent._point_to_row_col in Hrec.
  destruct (py_get2 dist (curr / bs) (curr mod bs)) as [d| |] eqn:Hd;
    cbn [obind] in Hrec; try discriminate.
  destruct d as [|x]; [injection Hrec as <-; done|].
  destruct (Z.eqb_spec x 0) as [->|Hx].
  { injection Hrec as <-. split; [exists []; rewrite app_nil_r; reflexivity|].
    split; [exact Hsteps|]. eauto. }
  destruct (_get_neighbors bs curr vals board) as [nbrs| |] eqn:Hn;
    cbn [obind] in Hrec; try discriminate.
  destruct (closer_neighbor bs dist x nbrs) as [[p|]| |] eqn:Hclose;
    cbn [obind] in Hrec; try discriminate.
  - destruct (closer_neighbor_elem _ _ _ _ Hclose) as [Hp _].
    destruct (IH p (path0 ++ [p]) path) as ((ext & Hext) & Hsteps' & Hend);
      try assumption.
    + apply last_snoc.
    + intros k a b Ha Hb.
      destruct (decide (S k < length path0)%nat) as [Hlt|Hge].
      * rewrite lookup_app_l in Ha, Hb by lia. eapply Hsteps; eauto.
      * pose proof (lookup_lt_Some _ _ _ Hb) as Hk.
        rewrite length_app in Hk. simpl in Hk.
        rewrite lookup_app_l in Ha by lia.
        rewrite lookup_app_r in Hb by lia.
        replace (S k - length path0)%nat with 0%nat in Hb by lia.
        injection Hb as <-.
        rewrite last_lookup in Hlast.
        replace (Init.Nat.pred (length path0)) with k in Hlast by lia.
        assert (a = curr) as -> by congruence.
        eapply bfs_neighbors_step; eauto.
    + split; [|split; assumption].
      exists ([p] ++ ext). rewrite Hext, <- app_assoc. reflexivity.
  - eapply IH; eauto.
Qed.

End SearchInvariant.

(** ** The path from the food to the head *)

Lemma square_replicate {A} (n : nat) (x : A) :
  square n (replicate n (replicate n x)).
Proof.
  split; [apply length_replicate|].
  intros r row Hrow. apply lookup_replicate in Hrow as [-> _].
  apply length_replicate.
Qed.

Lemma cell2_replicate {A} (n : nat) (x y : A) (r c : nat) :
  cell2 (replicate n (replicate n x)) r c = Some y -> y = x.
Proof.
  unfold cell2. intros H.
  destruct (replicate n (replicate n x) !! r) as [row|] eqn:Hrow; [|done].
  apply lookup_replicate in Hrow as [-> _]. cbn in H.
  apply lookup_replicate in H as [-> _]. reflexivity.
Qed.

Lemma initial_state_zero_at (bs : Z) (head_row head_col : nat) st :
  (head_row < Z.to_nat bs)%nat -> (head_col < Z.to_nat bs)%nat ->
  BreadthFirstSearchAgent.initial_state bs
    (Z.of_nat head_row * bs + Z.of_nat head_col) = Ok st ->
  zero_at_head head_row head_col (Z.to_nat bs)
    (BreadthFirstSearchAgent.distances st).
Proof.
  intros Hr Hc Hinit.
  unfold BreadthFirstSearchAgent.initial_state in Hinit.
  rewrite point_div_mod in Hinit by lia.
  destruct (py_set2 (replicate (Z.to_nat bs) (replicate (Z.to_nat bs) Inf))
              (Z.of_nat head_row) (Z.of_nat head_col) (Steps 0))
    as [dist| |] eqn:Hset; cbn [obind] in Hinit; try discriminate.
  destruct (py_set2 (replicate (Z.to_nat bs) (replicate (Z.to_nat bs) 0))
              (Z.of_nat head_row) (Z.of_nat head_col) 1)
    as [vis| |]; cbn [obind] in Hinit; try discriminate.
  injection Hinit as <-. cbn [BreadthFirstSearchAgent.distances].
  pose proof (square_replicate (Z.to_nat bs) Inf) as Hsq.
  destruct (py_set2_cell2 _ _ _ _ _ _ Hsq Hset) as (Hsq' & r & c & Hcell).
  split; [exact Hsq'|]. intros r' c' x Hx.
  assert (Hrc : (r, c) = (head_row, head_col)).
  { pose proof (py_set2_inv _ _ _ _ _ Hset)
      as (r0 & c0 & row & Hi & Hrow & Hj & ->).
    rewrite py_index_nat in Hi by (rewrite length_replicate; exact Hr).
    injection Hi as <-.
    apply lookup_replicate in Hrow as [-> _].
    rewrite py_index_nat in Hj by (rewrite length_replicate; exact Hc).
    injection Hj as <-.
    specialize (Hcell head_row head_col). unfold cell2 in Hcell.
    rewrite list_lookup_insert_eq in Hcell by (rewrite length_replicate; lia).
    cbn in Hcell.
    rewrite list_lookup_insert_eq in Hcell by (rewrite length_replicate; lia).
    destruct (decide ((head_row, head_col) = (r, c))) as [Heq|Hneq];
      [symmetry; exact Heq|].
    rewrite bool_decide_false in Hcell by exact Hneq.
    rewrite lookup_replicate_2 in Hcell by lia. cbn in Hcell.
    rewrite lookup_replicate_2 in Hcell by lia. discriminate. }
  rewrite Hcell in Hx. case_bool_decide as Heq.
  - injection Hx as <-. split; [lia|]. intros _.
    rewrite Hrc in Heq. injection Heq as -> ->. auto.
  - apply cell2_replicate in Hx. discriminate.
Qed.

Section ShortestPath.

Import BreadthFirstSearchAgent.

Variable self : t.

Variable board : board3.

Variable b : list (list Z).

Variable vals : values.

Variable head_row head_col food_row food_col : nat.

Hypothesis board_frame : frame 0 board = Ok b.

Hypothesis board_shape :
  has_shape b (Z.to_nat (_board_size self)) (Z.to_nat (_board_size self))
  = true.

Hypothesis head_cell : only_at b (v_head vals) head_row head_col.

Hypothesis food_cell : only_at b (v_food vals) food_row food_col.

Hypothesis head_not_food : v_head vals <> v_food vals.

Lemma shortest_path_sound (fuel : nat) (path : list Z) :
  let bs := _board_size self in
  _get_shortest_path fuel self board vals = Ok path ->
  path <> [] ->
  (2 <= length path)%nat
  /\ path !! 0%nat = Some (Z.of_nat food_row * bs + Z.of_nat food_col)
  /\ (exists end_point,
        last path = Some end_point
        /\ py_get2 b (end_point / bs) (end_point mod bs) = Ok (v_head vals))
  /\ (forall k p q, path !! k = Some p -> path !! S k = Some q ->
                    bfs_step bs vals b p q).
Proof.
  intros bs Hpath Hne. subst bs.
  set (bs := _board_size self) in *.
  pose proof (only_at_range _ _ _ _ _ board_shape head_cell) as [Hhr Hhc].
  pose proof (only_at_range _ _ _ _ _ board_shape food_cell) as [Hfr Hfc].
  pose proof board_shape as Hsq. apply has_shape_spec in Hsq.
  unfold _get_shortest_path, search_food in Hpath. fold bs in Hpath.
  rewrite board_frame in Hpath. cbn [obind] in Hpath.
  rewrite (grid_where_only_at _ _ _ _ _ board_shape head_cell) in Hpath.
  cbn [obind] in Hpath.
  destruct (initial_state bs _) as [st| |] eqn:Hinit;
    cbn [obind] in Hpath; try discriminate.
  destruct (search fuel bs vals b st) as [[flag dist]| |] eqn:Hsearch;
    cbn [obind] in Hpath; try discriminate.
  rewrite (grid_where_only_at _ _ _ _ _ board_shape food_cell) in Hpath.
  cbn [obind snd] in Hpath.
  pose proof (initial_state_zero_at _ _ _ _ Hhr Hhc Hinit) as Hinv.
  pose proof (search_zero_at _ _ _ _ _ _ _ _ _ _ Hinv Hsearch) as [Hsqd Hzero].
  set (food := Z.of_nat food_row * bs + Z.of_nat food_col) in *.
  destruct (reconstruct_sound bs vals b dist fuel food [food] path)
    as ((ext & Hext) & Hsteps & end_point & Hend & Hdist);
    try assumption; try reflexivity.
  { intros [|k] p q Hp Hq; discriminate. }
  assert (Hhead : py_get2 b (end_point / bs) (end_point mod bs)
                  = Ok (v_head vals)).
  { eapply (py_get2_same_cell (Z.to_nat bs) dist b); eauto.
    intros r c Hc. destruct (Hzero r c 0 Hc) as [_ Hrc].
    destruct (Hrc eq_refl) as [-> ->]. apply head_cell. }
  split; [|split; [|split]].
  - destruct ext as [|p ext].
    + exfalso. rewrite app_nil_r in Hext. subst path.
      cbn in Hend. injection Hend as <-.
      pose proof (point_div_mod bs (Z.of_nat food_row) (Z.of_nat food_col)
                    ltac:(lia)) as Hdm.
      unfold Agent._point_to_row_col in Hdm. fold food in Hdm.
      injection Hdm as Hdiv Hmod. rewrite Hdiv, Hmod in Hhead.
      rewrite (cell2_py_get2 _ _ _ _ (proj1 food_cell)) in Hhead.
      congruence.
    + rewrite Hext. rewrite length_app. simpl. lia.
  - rewrite Hext. reflexivity.
  - eauto.
  - exact Hsteps.
Qed.

End ShortestPath.

(** ** The edge of the board *)

Lemma py_index_in {A} (a : list A) (i : Z) :
  - Z.of_nat (length a) <= i < Z.of_nat (length a) ->
  exists k, py_index a i = Some k /\ (k < length a)%nat.
Proof.
  intros H. unfold py_index.
  destruct (Z.leb_spec 0 i); cbn [andb].
  - destruct (Z.ltb_spec i (Z.of_nat (length a))); [|lia].
    eexists. split; [reflexivity|lia].
  - destruct (Z.leb_spec (- Z.of_nat (length a)) i); [|lia].
    destruct (Z.ltb_spec i 0); [|lia]. cbn.
    eexists. split; [reflexivity|lia].
Qed.

Lemma py_index_out {A} (a : list A) (i : Z) :
  Z.of_nat (length a) <= i -> py_index a i = None.
Proof.
  intros H. unfold py_index.
  destruct (Z.leb_spec 0 i); [|lia]. cbn [andb].
  destruct (Z.ltb_spec i (Z.of_nat (length a))); [lia|].
  destruct (Z.ltb_spec i 0); [lia|]. rewrite andb_false_r. reflexivity.
Qed.

Section SquareIndexing.

Variable n : nat.

Lemma py_get2_in {A} (a : list (list A)) (i j : Z) :
  square n a ->
  - Z.of_nat n <= i < Z.of_nat n -> - Z.of_nat n <= j < Z.of_nat n ->
  exists x, py_get2 a i j = Ok x.
Proof.
  intros [Hlen Hrows] Hi Hj. unfold py_get2, py_get.
  destruct (py_index_in a i) as (r & -> & Hr); [lia|].
  destruct (a !! r) as [row|] eqn:Hrow.
  2: { apply lookup_ge_None in Hrow. lia. }
  cbn [obind].
  destruct (py_index_in row j) as (c & -> & Hc);
    [rewrite (Hrows _ _ Hrow); lia|].
  destruct (row !! c) as [x|] eqn:Hx.
  2: { apply lookup_ge_None in Hx. lia. }
  eauto.
Qed.

Lemma py_get2_out_row {A} (a : list (list A)) (i j : Z) :
  square n a -> Z.of_nat n <= i -> py_get2 a i j = Raise IndexError.
Proof.
  intros [Hlen Hrows] Hi. unfold py_get2, py_get.
  rewrite py_index_out by lia. reflexivity.
Qed.

Lemma py_get2_out_col {A} (a : list (list A)) (i j : Z) :
  square n a -> - Z.of_nat n <= i < Z.of_nat n -> Z.of_nat n <= j ->
  py_get2 a i j = Raise IndexError.
Proof.
  intros [Hlen Hrows] Hi Hj. unfold py_get2, py_get.
  destruct (py_index_in a i) as (r & -> & Hr); [lia|].
  destruct (a !! r) as [row|] eqn:Hrow.
  2: { apply lookup_ge_None in Hrow. lia. }
  cbn [obind]. rewrite py_index_out; [reflexivity|].
  rewrite (Hrows _ _ Hrow). lia.
Qed.

End SquareIndexing.

Lemma bfs_neighbors_loop_length (bs row col : Z) (vals : values)
    (b : list (list Z)) (deltas : list (Z * Z)) :
  forall acc l,
  BreadthFirstSearchAgent.neighbors_loop bs row col vals b deltas acc = Ok l ->
  (length l <= length acc + length deltas)%nat.
Proof.
  induction deltas as [|[dr dc] deltas IH]; intros acc l H;
    cbn [BreadthFirstSearchAgent.neighbors_loop] in H.
  - injection H as <-. lia.
  - destruct (py_get2 b (row + dr) (col + dc)) as [cell| |];
      cbn [obind] in H; try discriminate.
    destruct ((cell =? v_board vals) || (cell =? v_food vals)
              || (cell =? v_head vals)).
    + apply IH in H. rewrite length_app in H. simpl in *. lia.
    + apply IH in H. simpl. lia.
Qed.

(** [_get_neighbors] on a square board: it raises at a cell of the last
    row or the last column, whose neighbour below or to the right is out
    of the array; at the other cells it returns, the row and the column
    before the first one being read as the last ones. *)
Lemma bfs_neighbors_edge (bs : Z) (vals : values) (b : list (list Z))
    (row col : nat) :
  let n := Z.to_nat bs in
  has_shape b n n = true ->
  (row < n)%nat -> (col < n)%nat ->
  (row = (n - 1)%nat \/ col = (n - 1)%nat ->
   BreadthFirstSearchAgent._get_neighbors bs
     (Z.of_nat row * bs + Z.of_nat col) vals b = Raise IndexError)
  /\ ((row < n - 1)%nat -> (col < n - 1)%nat ->
      exists neighbors,
        BreadthFirstSearchAgent._get_neighbors bs
          (Z.of_nat row * bs + Z.of_nat col) vals b = Ok neighbors
        /\ (length neighbors <= 4)%nat).
Proof.
  intros n Hshape Hrow Hcol. apply has_shape_spec in Hshape.
  fold (square n b) in Hshape.
  unfold BreadthFirstSearchAgent._get_neighbors.
  rewrite point_div_mod by lia.
  assert (Hin : forall dr dc acc deltas,
    - Z.of_nat n <= Z.of_nat row + dr < Z.of_nat n ->
    - Z.of_nat n <= Z.of_nat col + dc < Z.of_nat n ->
    exists acc',
      BreadthFirstSearchAgent.neighbors_loop bs (Z.of_nat row) (Z.of_nat col)
        vals b ((dr, dc) :: deltas) acc
      = BreadthFirstSearchAgent.neighbors_loop bs (Z.of_nat row)
          (Z.of_nat col) vals b deltas acc').
  { intros dr dc acc deltas Hi Hj.
    cbn [BreadthFirstSearchAgent.neighbors_loop].
    destruct (py_get2_in n b _ _ Hshape Hi Hj) as [x ->]. cbn [obind].
    destruct (_ || _); eauto. }
  split.
  - intros Hlast.
    destruct (Hin (-1) 0 [] [(1, 0); (0, 1); (0, -1)]) as [acc1 ->];
      [lia|lia|].
    destruct (decide (row = (n - 1)%nat)) as [Hr|Hr].
    + cbn [BreadthFirstSearchAgent.neighbors_loop].
      rewrite (py_get2_out_row n) by (assumption || lia). reflexivity.
    + destruct (Hin 1 0 acc1 [(0, 1); (0, -1)]) as [acc2 ->]; [lia|lia|].
      cbn [BreadthFirstSearchAgent.neighbors_loop].
      rewrite (py_get2_out_col n) by (assumption || lia). reflexivity.
  - intros Hr Hc.
    destruct (BreadthFirstSearchAgent.neighbors_loop bs (Z.of_nat row)
                (Z.of_nat col) vals b [(-1, 0); (1, 0); (0, 1); (0, -1)] [])
      as [neighbors| |] eqn:Hloop.
    + exists neighbors. split; [reflexivity|].
      apply bfs_neighbors_loop_length in Hloop. simpl in Hloop. lia.
    + exfalso. revert Hloop.
      destruct (Hin (-1) 0 [] [(1, 0); (0, 1); (0, -1)]) as [acc1 ->];
        [lia|lia|].
      destruct (Hin 1 0 acc1 [(0, 1); (0, -1)]) as [acc2 ->]; [lia|lia|].
      destruct (Hin 0 1 acc2 [(0, -1)]) as [acc3 ->]; [lia|lia|].
      destruct (Hin 0 (-1) acc3 []) as [acc4 ->]; [lia|lia|].
      discriminate.
    + exfalso. revert Hloop.
      destruct (Hin (-1) 0 [] [(1, 0); (0, 1); (0, -1)]) as [acc1 ->];
        [lia|lia|].
      destruct (Hin 1 0 acc1 [(0, 1); (0, -1)]) as [acc2 ->]; [lia|lia|].
      destruct (Hin 0 1 acc2 [(0, -1)]) as [acc3 ->]; [lia|lia|].
      destruct (Hin 0 (-1) acc3 []) as [acc4 ->]; [lia|lia|].
      discriminate.
Qed.

(** ** The actions of the breadth-first search *)

Lemma bfs_direction_action_range (dx dy : Z) :
  0 <= BreadthFirstSearchAgent.direction_action dx dy <= 3.
Proof.
  unfold BreadthFirstSearchAgent.direction_action.
  repeat match goal with
  | |- context [if ?c then _ else _] => destruct c
  end; lia.
Qed.

Lemma bfs_move_one_range (fuel : nat) (self : BreadthFirstSearchAgent.t)
    (board : board3) (vals : values) (a : Z) :
  BreadthFirstSearchAgent.move_one fuel self board vals = Ok a -> 0 <= a <= 3.
Proof.
  unfold BreadthFirstSearchAgent.move_one.
  destruct (BreadthFirstSearchAgent._get_shortest_path fuel self board vals)
    as [path| |]; cbn [obind]; try discriminate.
  destruct path as [|p path]; [intros [= <-]; lia|].
  destruct (BreadthFirstSearchAgent.second_to_last (p :: path)) as [next| |];
    cbn [obind]; try discriminate.
  destruct (frame 0 board) as [b0| |]; cbn [obind]; try discriminate.
  destruct (Agent.grid_where _ b0 (v_head vals)) as [curr| |];
    cbn [obind]; try discriminate.
  destruct (frame 1 board) as [b1| |]; cbn [obind]; try discriminate.
  unfold Agent._point_to_row_col. intros [= <-].
  apply bfs_direction_action_range.
Qed.

(** X19: when [move] returns, it returns one action for every board of
    the batch (one for a single board), each of them from 0 to 3. *)
Theorem bfs_move_actions (fuel : nat) (self : BreadthFirstSearchAgent.t)
    (board : board_arg) (legal_moves : list (list Z)) (vals : values)
    (actions : list Z) :
  BreadthFirstSearchAgent.move fuel self board legal_moves vals = Ok actions ->
  length actions
  = match board with Single _ => 1%nat | Batch boards => length boards end
  /\ forall a, a ∈ actions -> 0 <= a <= 3.
Proof.
  unfold BreadthFirstSearchAgent.move. intros Hmove.
  apply omapM_lookup in Hmove as [Hlen Hrows]. split.
  - rewrite Hlen. destruct board; reflexivity.
  - intros a Ha. apply list_elem_of_lookup in Ha as [i Hi].
    destruct (match board with Single b => [b] | Batch bs => bs end !! i)
      as [b|] eqn:Hb.
    2: { apply lookup_ge_None in Hb. apply lookup_lt_Some in Hi. lia. }
    destruct (Hrows i b Hb) as (a' & Ha' & Hone).
    assert (a' = a) as -> by congruence.
    eapply bfs_move_one_range; eauto.
Qed.

Lemma bfs_move_actions_witness :
  length [3; 1; 0] = 3%nat /\ forall a, a ∈ [3; 1; 0] -> 0 <= a <= 3.
Proof.
  apply (bfs_move_actions 30 (bfs_agent 6)
           (Batch [two_frames detour_cells; two_frames enclosed_cells;
                   open_board 6 true]) [] bfs_values [3; 1; 0]).
  vm_compute. reflexivity.
Defined.

(** X16: a non-empty path that [_get_shortest_path] returns on a board
    with one head cell and one food cell has at least two points; it
    starts at the food; its last point names a cell with the head code;
    and every point is followed by one that [_get_neighbors] gives for
    it: one step up, down, right or left, read as a cell that is free,
    the food or the head. *)
Theorem bfs_path_from_food_to_head (fuel : nat)
    (self : BreadthFirstSearchAgent.t) (board : board3) (b : list (list Z))
    (vals : values) (head_row head_col food_row food_col : nat)
    (path : list Z) :
  let bs := BreadthFirstSearchAgent._board_size self in
  frame 0 board = Ok b ->
  has_shape b (Z.to_nat bs) (Z.to_nat bs) = true ->
  only_at b (v_head vals) head_row head_col ->
  only_at b (v_food vals) food_row food_col ->
  v_head vals <> v_food vals ->
  BreadthFirstSearchAgent._get_shortest_path fuel self board vals = Ok path ->
  path <> [] ->
  (2 <= length path)%nat
  /\ path !! 0%nat = Some (Z.of_nat food_row * bs + Z.of_nat food_col)
  /\ (exists end_point,
        last path = Some end_point
        /\ py_get2 b (end_point / bs) (end_point mod bs) = Ok (v_head vals))
  /\ (forall k p q, path !! k = Some p -> path !! S k = Some q ->
                    bfs_step bs vals b p q).
Proof.
  intros bs Hframe Hshape Hhead Hfood Hne Hpath Hnil.
  eapply shortest_path_sound; eauto.
Qed.

Lemma bfs_path_from_food_to_head_witness :
  BreadthFirstSearchAgent._get_shortest_path 30 (bfs_agent 6)
    (two_frames detour_cells) bfs_values = Ok [9; 15; 14; 13; 7]
  /\ [9; 15; 14; 13; 7] !! 0%nat = Some (Z.of_nat 1 * 6 + Z.of_nat 3)
  /\ bfs_step 6 bfs_values detour_cells 9 15.
Proof.
  assert (Hpath : BreadthFirstSearchAgent._get_shortest_path 30 (bfs_agent 6)
                    (two_frames detour_cells) bfs_values
                  = Ok [9; 15; 14; 13; 7]) by (vm_compute; reflexivity).
  destruct (bfs_path_from_food_to_head 30 (bfs_agent 6)
              (two_frames detour_cells) detour_cells bfs_values 1 1 1 3
              [9; 15; 14; 13; 7])
    as (_ & H2 & _ & H4).
  - reflexivity.
  - reflexivity.
  - apply only_atb_sound. reflexivity.
  - apply only_atb_sound. reflexivity.
  - discriminate.
  - exact Hpath.
  - discriminate.
  - split; [exact Hpath|]. split; [exact H2|].
    apply (H4 0%nat); reflexivity.
Defined.

(** X17: on a board with one head cell, one food cell and a second
    frame, whenever the search returns, [move] returns an action from 0
    to 3: the action 1 for the empty path, and for a path the action of
    the table for the step from the head to the last point but one of the
    path, which exists. *)
Theorem bfs_move_returns_action (fuel : nat)
    (self : BreadthFirstSearchAgent.t) (board : board3)
    (b b1 : list (list Z)) (legal_moves : list (list Z)) (vals : values)
    (head_row head_col food_row food_col : nat) (path : list Z) :
  let bs := BreadthFirstSearchAgent._board_size self in
  frame 0 board = Ok b ->
  frame 1 board = Ok b1 ->
  has_shape b (Z.to_nat bs) (Z.to_nat bs) = true ->
  only_at b (v_head vals) head_row head_col ->
  only_at b (v_food vals) food_row food_col ->
  v_head vals <> v_food vals ->
  BreadthFirstSearchAgent._get_shortest_path fuel self board vals = Ok path ->
  exists action,
    BreadthFirstSearchAgent.move fuel self (Single board) legal_moves vals
    = Ok [action]
    /\ 0 <= action <= 3
    /\ (path = [] -> action = 1)
    /\ (path <> [] ->
        exists next_head,
          path !! (length path - 2)%nat = Some next_head
          /\ action
             = BreadthFirstSearchAgent.direction_action
                 (next_head mod bs - Z.of_nat head_col)
                 (- (next_head / bs) + Z.of_nat head_row)).
Proof.
  intros bs Hframe Hframe1 Hshape Hhead Hfood Hne Hpath.
  pose proof (only_at_range _ _ _ _ _ Hshape Hhead) as [Hhr Hhc].
  assert (Hone : exists action,
    BreadthFirstSearchAgent.move_one fuel self board vals = Ok action
    /\ (path = [] -> action = 1)
    /\ (path <> [] ->
        exists next_head,
          path !! (length path - 2)%nat = Some next_head
          /\ action
             = BreadthFirstSearchAgent.direction_action
                 (next_head mod bs - Z.of_nat head_col)
                 (- (next_head / bs) + Z.of_nat head_row))).
  { unfold BreadthFirstSearchAgent.move_one. rewrite Hpath. cbn [obind].
    destruct path as [|p0 path0] eqn:Epath.
    { exists 1. split; [reflexivity|]. split; [reflexivity|]. intros H. done. }
    rewrite <- Epath in *.
    destruct (shortest_path_sound self board b vals head_row head_col
                food_row food_col Hframe Hshape Hhead Hfood Hne fuel path
                Hpath) as (Hlen & _); [subst path; discriminate|].
    destruct (path !! (length path - 2)%nat) as [next_head|] eqn:Hnext.
    2: { apply lookup_ge_None in Hnext. lia. }
    assert (Hsecond : BreadthFirstSearchAgent.second_to_last path
                      = Ok next_head).
    { unfold BreadthFirstSearchAgent.second_to_last, py_get, py_index.
      destruct (Z.leb_spec 0 (-2)); [lia|]. cbn [andb].
      destruct (Z.leb_spec (- Z.of_nat (length path)) (-2)); [|lia].
      cbn.
      replace (Z.to_nat (-2 + Z.of_nat (length path)))
        with (length path - 2)%nat by lia.
      rewrite Hnext. reflexivity. }
    rewrite Hsecond. cbn [obind]. rewrite Hframe. cbn [obind].
    fold bs. rewrite (grid_where_only_at _ _ _ _ _ Hshape Hhead).
    cbn [obind]. rewrite Hframe1. cbn [obind].
    rewrite point_div_mod by lia. unfold Agent._point_to_row_col.
    eexists. split; [reflexivity|]. split; [intros H; subst path; done|].
    intros _. exists next_head. split; reflexivity. }
  destruct Hone as (action & Hmove & Hempty & Hnext).
  exists action. split; [|split; [|split; assumption]].
  - unfold BreadthFirstSearchAgent.move. cbn [omapM]. rewrite Hmove.
    reflexivity.
  - eapply bfs_move_one_range; eauto.
Qed.

Lemma bfs_move_returns_action_witness :
  BreadthFirstSearchAgent.move 30 (bfs_agent 6)
    (Single (two_frames detour_cells)) [] bfs_values = Ok [3].
Proof.
  destruct (bfs_move_returns_action 30 (bfs_agent 6)
              (two_frames detour_cells) detour_cells detour_cells []
              bfs_values 1 1 1 3 [9; 15; 14; 13; 7])
    as (action & Hmove & _ & _ & Hnext).
  - reflexivity.
  - reflexivity.
  - reflexivity.
  - apply only_atb_sound. reflexivity.
  - apply only_atb_sound. reflexivity.
  - discriminate.
  - vm_compute. reflexivity.
  - destruct Hnext as (next_head & Hn & Ha); [discriminate|].
    cbn in Hn. injection Hn as <-. rewrite Hmove, Ha. reflexivity.
Defined.

Lemma initial_state_ok (bs : Z) (head_row head_col : nat) :
  (head_row < Z.to_nat bs)%nat -> (head_col < Z.to_nat bs)%nat ->
  exists st,
    BreadthFirstSearchAgent.initial_state bs
      (Z.of_nat head_row * bs + Z.of_nat head_col) = Ok st
    /\ BreadthFirstSearchAgent.points_to_search st
       = [Z.of_nat head_row * bs + Z.of_nat head_col].
Proof.
  intros Hr Hc. unfold BreadthFirstSearchAgent.initial_state.
  rewrite point_div_mod by lia. unfold py_set2.
  rewrite !py_index_nat by (rewrite length_replicate; assumption).
  rewrite !lookup_replicate_2 by exact Hr.
  rewrite !py_index_nat by (rewrite length_replicate; assumption).
  cbn [obind]. eexists. split; reflexivity.
Qed.

(** X18: on a square board [_get_neighbors] raises [IndexError] at every
    cell of the last row or the last column, and returns at most four
    neighbours at every other cell; with the head on the last row or the
    last column, [_get_shortest_path] and [move] raise [IndexError]. *)
Theorem bfs_last_line_index_error (fuel : nat)
    (self : BreadthFirstSearchAgent.t) (board : board3) (b : list (list Z))
    (legal_moves : list (list Z)) (vals : values) :
  let bs := BreadthFirstSearchAgent._board_size self in
  let n := Z.to_nat bs in
  frame 0 board = Ok b ->
  has_shape b n n = true ->
  (forall row col,
     (row < n)%nat -> (col < n)%nat ->
     (row = (n - 1)%nat \/ col = (n - 1)%nat ->
      BreadthFirstSearchAgent._get_neighbors bs
        (Z.of_nat row * bs + Z.of_nat col) vals b = Raise IndexError)
     /\ ((row < n - 1)%nat -> (col < n - 1)%nat ->
         exists neighbors,
           BreadthFirstSearchAgent._get_neighbors bs
             (Z.of_nat row * bs + Z.of_nat col) vals b = Ok neighbors
           /\ (length neighbors <= 4)%nat))
  /\ (forall head_row head_col,
        only_at b (v_head vals) head_row head_col ->
        head_row = (n - 1)%nat \/ head_col = (n - 1)%nat ->
        BreadthFirstSearchAgent._get_shortest_path (S fuel) self board vals
        = Raise IndexError
        /\ BreadthFirstSearchAgent.move (S fuel) self (Single board)
             legal_moves vals
           = Raise IndexError).
Proof.
  intros bs n Hframe Hshape. split.
  { intros row col. apply bfs_neighbors_edge. exact Hshape. }
  intros head_row head_col Hhead Hlast.
  pose proof (only_at_range _ _ _ _ _ Hshape Hhead) as [Hhr Hhc].
  destruct (bfs_neighbors_edge bs vals b head_row head_col Hshape Hhr Hhc)
    as [Hraise _].
  specialize (Hraise Hlast).
  assert (Hpath : BreadthFirstSearchAgent._get_shortest_path (S fuel) self
                    board vals = Raise IndexError).
  { unfold BreadthFirstSearchAgent._get_shortest_path,
      BreadthFirstSearchAgent.search_food. fold bs.
    rewrite Hframe. cbn [obind].
    rewrite (grid_where_only_at _ _ _ _ _ Hshape Hhead). cbn [obind].
    destruct (initial_state_ok bs head_row head_col Hhr Hhc)
      as (st & -> & Hqueue).
    cbn [obind BreadthFirstSearchAgent.search]. rewrite Hqueue.
    rewrite point_div_mod by lia. rewrite Hraise. reflexivity. }
  split; [exact Hpath|].
  unfold BreadthFirstSearchAgent.move, BreadthFirstSearchAgent.move_one.
  cbn [omapM]. rewrite Hpath. reflexivity.
Qed.

Lemma bfs_last_line_index_error_witness :
  BreadthFirstSearchAgent._get_neighbors 4 (Z.of_nat 3 * 4 + Z.of_nat 1)
    bfs_values edge_cells = Raise IndexError
  /\ BreadthFirstSearchAgent.move 30 (bfs_agent 4)
       (Single (two_frames edge_cells)) [] bfs_values = Raise IndexError.
Proof.
  destruct (bfs_last_line_index_error 29 (bfs_agent 4) (two_frames edge_cells)
              edge_cells [] bfs_values eq_refl eq_refl) as [Hn Hhead].
  split.
  - apply (Hn 3%nat 1%nat); [vm_compute; lia | vm_compute; lia |].
    left. reflexivity.
  - apply (Hhead 3%nat 1%nat).
    + apply only_atb_sound. reflexivity.
    + left. reflexivity.
Defined.

(** ** The food next to the head *)

Section SquareCells.

Variable n : nat.

Lemma square_cell {A} (a : list (list A)) (r c : nat) :
  square n a -> (r < n)%nat -> (c < n)%nat -> is_Some (cell2 a r c).
Proof.
  intros [Hlen Hrows] Hr Hc. unfold cell2.
  destruct (a !! r) as [row|] eqn:Hrow.
  2: { apply lookup_ge_None in Hrow. lia. }
  cbn. apply lookup_lt_is_Some. rewrite (Hrows _ _ Hrow). exact Hc.
Qed.

Lemma cell2_get {A} (a : list (list A)) (r c : nat) (x : A) :
  cell2 a r c = Some x -> py_get2 a (Z.of_nat r) (Z.of_nat c) = Ok x.
Proof.
  unfold cell2. intros H. destruct (a !! r) as [row|] eqn:Hrow; [|done].
  cbn in H. eapply py_get2_nat; eauto.
Qed.

Lemma py_set2_nat {A} (a : list (list A)) (r c : nat) (x : A) :
  square n a -> (r < n)%nat -> (c < n)%nat ->
  exists a',
    py_set2 a (Z.of_nat r) (Z.of_nat c) x = Ok a'
    /\ square n a'
    /\ forall r' c',
         cell2 a' r' c'
         = if bool_decide ((r', c') = (r, c)) then Some x else cell2 a r' c'.
Proof.
  intros Hsq Hr Hc. pose proof Hsq as [Hlen Hrows].
  destruct (a !! r) as [row|] eqn:Hrow.
  2: { apply lookup_ge_None in Hrow. lia. }
  pose proof (Hrows _ _ Hrow) as Hlrow.
  assert (Hset : py_set2 a (Z.of_nat r) (Z.of_nat c) x
                 = Ok (<[r := <[c := x]> row]> a)).
  { unfold py_set2. rewrite py_index_nat by lia. rewrite Hrow.
    rewrite py_index_nat by lia. reflexivity. }
  exists (<[r := <[c := x]> row]> a). split; [exact Hset|].
  split; [exact (proj1 (py_set2_cell2 n _ _ _ _ _ Hsq Hset))|].
  intros r' c'. unfold cell2.
  destruct (decide (r' = r)) as [->|Hr'].
  - rewrite list_lookup_insert_eq by lia. rewrite Hrow. cbn.
    destruct (decide (c' = c)) as [->|Hc'].
    + rewrite list_lookup_insert_eq by lia.
      rewrite bool_decide_true by reflexivity. reflexivity.
    + rewrite list_lookup_insert_ne by congruence.
      rewrite bool_decide_false by congruence. reflexivity.
  - rewrite list_lookup_insert_ne by congruence.
    rewrite bool_decide_false by congruence. reflexivity.
Qed.

End SquareCells.

Lemma match_cons {A B} (l : list A) (x y : B) :
  l <> [] -> match l with [] => x | _ :: _ => y end = y.
Proof. destruct l; [congruence|reflexivity]. Qed.

(** The cells of [l] before [x], filtered, then [x], then the rest. *)
Lemma filter_split {A} `{EqDecision A} (f : A -> bool) (x : A)
    (l : list A) :
  x ∈ l -> f x = true ->
  exists pre post,
    List.filter f l = pre ++ x :: post
    /\ forall y, y ∈ pre -> y ∈ l /\ f y = true /\ y <> x.
Proof.
  induction l as [|y l IH]; intros Hin Hfx; [inversion Hin|].
  destruct (decide (y = x)) as [->|Hne].
  - exists [], (List.filter f l). cbn. rewrite Hfx. split; [reflexivity|].
    intros z Hz. inversion Hz.
  - apply elem_of_cons in Hin as [->|Hin]; [congruence|].
    destruct (IH Hin Hfx) as (pre & post & Heq & Hpre).
    cbn. destruct (f y) eqn:Hfy.
    + exists (y :: pre), post. rewrite Heq. split; [reflexivity|].
      intros z Hz. apply elem_of_cons in Hz as [->|Hz].
      * split; [left|auto].
      * destruct (Hpre z Hz) as (H1 & H2 & H3).
        split; [right; exact H1|auto].
    + exists pre, post. split; [exact Heq|].
      intros z Hz. destruct (Hpre z Hz) as (H1 & H2 & H3).
      split; [right; exact H1|auto].
Qed.

Section AdjacentFood.

Import BreadthFirstSearchAgent.

Variable bs : Z.

Variable vals : values.

Variable b : list (list Z).

Variable n : nat.

Hypothesis side : bs = Z.of_nat n.

Hypothesis board_square : square n b.

Lemma cell_point_row_col (rc : nat * nat) :
  (rc.2 < n)%nat ->
  Agent._point_to_row_col bs (cell_point bs rc)
  = (Z.of_nat rc.1, Z.of_nat rc.2).
Proof. intros H. unfold cell_point. apply point_div_mod. lia. Qed.

Lemma bfs_neighbors_loop_cell (r c : nat) (dr dc : Z) (rc : nat * nat)
    (deltas : list (Z * Z)) (acc : list Z) :
  Z.of_nat r + dr = Z.of_nat rc.1 -> Z.of_nat c + dc = Z.of_nat rc.2 ->
  (rc.1 < n)%nat -> (rc.2 < n)%nat ->
  neighbors_loop bs (Z.of_nat r) (Z.of_nat c) vals b ((dr, dc) :: deltas) acc
  = neighbors_loop bs (Z.of_nat r) (Z.of_nat c) vals b deltas
      (acc ++ (cell_point bs <$> List.filter (enterable vals b) [rc])).
Proof.
  intros Hr Hc Hrn Hcn. cbn [neighbors_loop]. rewrite Hr, Hc.
  destruct (square_cell n b rc.1 rc.2 board_square Hrn Hcn) as [x Hx].
  rewrite (cell2_get _ _ _ _ Hx). cbn [obind List.filter].
  unfold enterable. rewrite Hx.
  destruct ((x =? v_board vals) || (x =? v_food vals) || (x =? v_head vals)).
  - reflexivity.
  - cbn. rewrite app_nil_r. reflexivity.
Qed.

(** The neighbours of a cell off the border. *)
Lemma bfs_neighbors_around (rc : nat * nat) :
  (1 <= rc.1)%nat -> (S rc.1 < n)%nat -> (1 <= rc.2)%nat -> (S rc.2 < n)%nat ->
  _get_neighbors bs (cell_point bs rc) vals b
  = Ok (cell_point bs <$> List.filter (enterable vals b) (around rc)).
Proof.
  destruct rc as [r c]. cbn [fst snd]. intros Hr1 Hr2 Hc1 Hc2.
  unfold _get_neighbors. rewrite cell_point_row_col by (cbn; lia).
  cbn [fst snd].
  rewrite (bfs_neighbors_loop_cell r c (-1) 0 ((r - 1)%nat, c))
    by (cbn; lia).
  rewrite (bfs_neighbors_loop_cell r c 1 0 (S r, c)) by (cbn; lia).
  rewrite (bfs_neighbors_loop_cell r c 0 1 (r, S c)) by (cbn; lia).
  rewrite (bfs_neighbors_loop_cell r c 0 (-1) (r, (c - 1)%nat))
    by (cbn; lia).
  cbn [neighbors_loop around List.filter fst snd].
  destruct (enterable vals b ((r - 1)%nat, c)),
           (enterable vals b (S r, c)),
           (enterable vals b (r, S c)),
           (enterable vals b (r, (c - 1)%nat)); reflexivity.
Qed.

(** The loop over the neighbours stops at the food and has then given it
    a distance of at most one more than that of the current cell. *)
Lemma visit_neighbors_reaches_food (cr cc : nat) (food : nat * nat) (d : Z)
    (post : list Z) :
  (cr < n)%nat -> (cc < n)%nat -> (food.1 < n)%nat -> (food.2 < n)%nat ->
  cell2 b food.1 food.2 = Some (v_food vals) ->
  food <> (cr, cc) ->
  forall (pre : list (nat * nat)) (st : search_state),
  square n (distances st) -> square n (visited st) ->
  cell2 (distances st) cr cc = Some (Steps d) ->
  (forall rc, rc ∈ pre ->
     (rc.1 < n)%nat /\ (rc.2 < n)%nat /\ rc <> (cr, cc) /\ rc <> food) ->
  (forall r c, cell2 b r c = Some (v_food vals) -> (r, c) = food) ->
  exists st',
    visit_neighbors bs vals b (Z.of_nat cr) (Z.of_nat cc)
      ((cell_point bs <$> pre) ++ cell_point bs food :: post) st = Ok st'
    /\ found st' = true
    /\ cell2 (distances st') cr cc = Some (Steps d)
    /\ exists x, cell2 (distances st') food.1 food.2 = Some (Steps x)
                 /\ x <= 1 + d.
Proof.
  intros Hcr Hcc Hfr Hfc Hfood Hfc' pre.
  induction pre as [|rc pre IH]; intros st Hsqd Hsqv Hcurr Hpre Honly.
  - cbn [fmap list_fmap app visit_neighbors].
    rewrite cell_point_row_col by exact Hfc.
    destruct (square_cell n _ food.1 food.2 Hsqd Hfr Hfc) as [old Hold].
    rewrite (cell2_get _ _ _ _ Hold). cbn [obind].
    rewrite (cell2_get _ _ _ _ Hcurr). cbn [obind distance_succ].
    rewrite (cell2_get _ _ _ _ Hfood).
    destruct (distance_gtb old (Steps (1 + d))) eqn:Hgt.
    + destruct (py_set2_nat n (distances st) food.1 food.2 (Steps (1 + d))
                  Hsqd Hfr Hfc) as (dist & -> & Hsq' & Hcell).
      cbn [obind]. rewrite Z.eqb_refl. eexists. split; [reflexivity|].
      split; [reflexivity|]. cbn [distances]. split.
      { rewrite Hcell, bool_decide_false; [exact Hcurr|].
        intros Heq. apply Hfc'. rewrite (surjective_pairing food).
        symmetry. exact Heq. }
      exists (1 + d).
      rewrite Hcell, bool_decide_true by reflexivity. split; [reflexivity|lia].
    + cbn [obind]. rewrite Z.eqb_refl. eexists. split; [reflexivity|].
      split; [reflexivity|]. cbn [distances]. split; [exact Hcurr|].
      destruct old as [|y]; [discriminate|]. exists y.
      split; [exact Hold|]. cbn in Hgt.
      destruct (Z.gtb_spec y (1 + d)); [discriminate|lia].
  - destruct (Hpre rc ltac:(left)) as (Hr & Hc & Hnc & Hnf).
    cbn [fmap list_fmap app visit_neighbors].
    change (list_fmap _ _ (cell_point bs) pre) with (cell_point bs <$> pre).
    rewrite cell_point_row_col by exact Hc.
    destruct (square_cell n _ rc.1 rc.2 Hsqd Hr Hc) as [old Hold].
    rewrite (cell2_get _ _ _ _ Hold). cbn [obind].
    rewrite (cell2_get _ _ _ _ Hcurr). cbn [obind distance_succ].
    destruct (square_cell n b rc.1 rc.2 board_square Hr Hc) as [cell Hcell].
    assert (Hdist : exists dist,
      (if distance_gtb old (Steps (1 + d))
       then py_set2 (distances st) (Z.of_nat rc.1) (Z.of_nat rc.2)
              (Steps (1 + d))
       else Ok (distances st)) = Ok dist
      /\ square n dist /\ cell2 dist cr cc = Some (Steps d)).
    { destruct (distance_gtb old (Steps (1 + d))).
      - destruct (py_set2_nat n (distances st) rc.1 rc.2 (Steps (1 + d))
                    Hsqd Hr Hc) as (dist & -> & Hsq' & Hc').
        exists dist. split; [reflexivity|]. split; [exact Hsq'|].
        rewrite Hc'. rewrite bool_decide_false; [exact Hcurr|].
        intros Heq. apply Hnc. rewrite (surjective_pairing rc).
        symmetry. exact Heq.
      - eauto. }
    destruct Hdist as (dist & -> & Hsq' & Hcurr'). cbn [obind].
    rewrite (cell2_get _ _ _ _ Hcell). cbn [obind].
    assert (Hnot : (cell =? v_food vals) = false).
    { apply Z.eqb_neq. intros ->. apply Hnf.
      rewrite (surjective_pairing rc). apply Honly. exact Hcell. }
    rewrite Hnot.
    destruct (square_cell n _ rc.1 rc.2 Hsqv Hr Hc) as [v Hv].
    rewrite (cell2_get _ _ _ _ Hv). cbn [obind].
    assert (Hrest : forall rc', rc' ∈ pre ->
      (rc'.1 < n)%nat /\ (rc'.2 < n)%nat /\ rc' <> (cr, cc) /\ rc' <> food).
    { intros rc' Hin. apply Hpre. right. exact Hin. }
    destruct (v =? 0).
    + destruct (py_set2_nat n (visited st) cr cc 1 Hsqv Hcr Hcc)
        as (vis & -> & Hsqv' & _).
      cbn [obind]. apply IH; assumption.
    + apply IH; assumption.
Qed.

(** The scan of the neighbours of the food finds the head: no other cell
    is at the distance 0. *)
Lemma closer_neighbor_head (dist : list (list distance))
    (head : nat * nat) (post : list Z) :
  zero_at_head head.1 head.2 n dist ->
  (head.1 < n)%nat -> (head.2 < n)%nat ->
  cell2 dist head.1 head.2 = Some (Steps 0) ->
  forall pre : list (nat * nat),
  (forall rc, rc ∈ pre -> (rc.1 < n)%nat /\ (rc.2 < n)%nat /\ rc <> head) ->
  closer_neighbor bs dist 1
    ((cell_point bs <$> pre) ++ cell_point bs head :: post)
  = Ok (Some (cell_point bs head)).
Proof.
  intros [Hsq Hzero] Hr Hc Hhead pre.
  induction pre as [|rc pre IH]; intros Hpre.
  - cbn [fmap list_fmap app closer_neighbor].
    rewrite cell_point_row_col by exact Hc.
    rewrite (cell2_get _ _ _ _ Hhead). reflexivity.
  - destruct (Hpre rc ltac:(left)) as (Hrr & Hrc & Hne).
    cbn [fmap list_fmap app closer_neighbor].
    change (list_fmap _ _ (cell_point bs) pre) with (cell_point bs <$> pre).
    rewrite cell_point_row_col by exact Hrc.
    destruct (square_cell n _ rc.1 rc.2 Hsq Hrr Hrc) as [old Hold].
    rewrite (cell2_get _ _ _ _ Hold). cbn [obind].
    assert (Hrest : closer_neighbor bs dist 1
                      ((cell_point bs <$> pre) ++ cell_point bs head :: post)
                    = Ok (Some (cell_point bs head))).
    { apply IH. intros rc' Hin. apply Hpre. right. exact Hin. }
    destruct old as [|x]; [exact Hrest|].
    destruct (Z.eqb_spec x (1 - 1)) as [Hx|_]; [|exact Hrest].
    exfalso. apply Hne. destruct (Hzero _ _ _ Hold) as [_ Hat].
    destruct rc, head. cbn in *. destruct Hat as [-> ->]; [lia|reflexivity].
Qed.

Lemma around_range (rc rc' : nat * nat) :
  (1 <= rc.1)%nat -> (S rc.1 < n)%nat -> (1 <= rc.2)%nat -> (S rc.2 < n)%nat ->
  rc' ∈ around rc ->
  (rc'.1 < n)%nat /\ (rc'.2 < n)%nat /\ rc' <> rc.
Proof.
  destruct rc as [r c], rc' as [r' c']. cbn [fst snd]. intros ? ? ? ? Hin.
  unfold around in Hin. cbn [fst snd] in Hin.
  rewrite !elem_of_cons, elem_of_nil in Hin.
  destruct Hin as [Hin|[Hin|[Hin|[Hin|Hin]]]]; [| | | |destruct Hin];
    injection Hin as -> ->;
    (split; [lia|split; [lia|intros Heq; inversion Heq; lia]]).
Qed.

End AdjacentFood.

Lemma initial_state_arrays (bs : Z) (head_row head_col : nat) :
  (head_row < Z.to_nat bs)%nat -> (head_col < Z.to_nat bs)%nat ->
  exists st,
    BreadthFirstSearchAgent.initial_state bs
      (Z.of_nat head_row * bs + Z.of_nat head_col) = Ok st
    /\ BreadthFirstSearchAgent.points_to_search st
       = [Z.of_nat head_row * bs + Z.of_nat head_col]
    /\ square (Z.to_nat bs) (BreadthFirstSearchAgent.distances st)
    /\ square (Z.to_nat bs) (BreadthFirstSearchAgent.visited st)
    /\ cell2 (BreadthFirstSearchAgent.distances st) head_row head_col
       = Some (Steps 0).
Proof.
  intros Hr Hc. unfold BreadthFirstSearchAgent.initial_state.
  rewrite point_div_mod by lia.
  destruct (py_set2_nat (Z.to_nat bs)
              (replicate (Z.to_nat bs) (replicate (Z.to_nat bs) Inf))
              head_row head_col (Steps 0) (square_replicate _ _) Hr Hc)
    as (dist & -> & Hsqd & Hcell).
  destruct (py_set2_nat (Z.to_nat bs)
              (replicate (Z.to_nat bs) (replicate (Z.to_nat bs) 0))
              head_row head_col 1 (square_replicate _ _) Hr Hc)
    as (vis & -> & Hsqv & _).
  cbn [obind]. eexists. split; [reflexivity|].
  cbn [BreadthFirstSearchAgent.points_to_search
       BreadthFirstSearchAgent.distances BreadthFirstSearchAgent.visited].
  split; [reflexivity|]. split; [exact Hsqd|]. split; [exact Hsqv|].
  rewrite Hcell, bool_decide_true by reflexivity. reflexivity.
Qed.

Section FoodNextToHead.

Import BreadthFirstSearchAgent.

Variable self : t.

Variable board : board3.

Variable b b1 : list (list Z).

Variable vals : values.

Variable head food : nat * nat.

Hypothesis board_frame : frame 0 board = Ok b.

Hypothesis board_frame1 : frame 1 board = Ok b1.

Hypothesis board_shape :
  has_shape b (Z.to_nat (_board_size self)) (Z.to_nat (_board_size self))
  = true.

Hypothesis head_cell : only_at b (v_head vals) head.1 head.2.

Hypothesis food_cell : only_at b (v_food vals) food.1 food.2.

Hypothesis head_not_food : v_head vals <> v_food vals.

Hypothesis head_inside :
  (1 <= head.1)%nat /\ (S head.1 < Z.to_nat (_board_size self))%nat
  /\ (1 <= head.2)%nat /\ (S head.2 < Z.to_nat (_board_size self))%nat.

Hypothesis food_inside :
  (1 <= food.1)%nat /\ (S food.1 < Z.to_nat (_board_size self))%nat
  /\ (1 <= food.2)%nat /\ (S food.2 < Z.to_nat (_board_size self))%nat.

Hypothesis food_next : food ∈ around head.

Lemma adjacent_head_next : head ∈ around food.
Proof.
  destruct head as [hr hc], food as [fr fc]. cbn [fst snd] in *.
  unfold around in *. cbn [fst snd] in *.
  destruct head_inside as (? & ? & ? & ?).
  destruct food_inside as (? & ? & ? & ?).
  rewrite !elem_of_cons, elem_of_nil in food_next.
  rewrite !elem_of_cons.
  destruct food_next as [Heq|[Heq|[Heq|[Heq|Heq]]]]; [| | | |destruct Heq];
    injection Heq as -> ->.
  - right. left. f_equal. lia.
  - left. f_equal. lia.
  - right. right. right. left. f_equal. lia.
  - right. right. left. f_equal. lia.
Qed.

Lemma adjacent_shortest_path (fuel : nat) :
  (2 <= fuel)%nat ->
  _get_shortest_path fuel self board vals
  = Ok [cell_point (_board_size self) food;
        cell_point (_board_size self) head].
Proof.
  intros Hfuel.
  set (bs := _board_size self).
  set (n := Z.to_nat bs).
  destruct head_inside as (Hh1 & Hh2 & Hh3 & Hh4).
  destruct food_inside as (Hf1 & Hf2 & Hf3 & Hf4).
  fold bs in Hh2, Hh4, Hf2, Hf4. fold n in Hh2, Hh4, Hf2, Hf4.
  assert (Hside : bs = Z.of_nat n) by (unfold n; lia).
  pose proof board_shape as Hshape. fold bs in Hshape.
  pose proof Hshape as Hsq. apply has_shape_spec in Hsq.
  fold n in Hsq. fold (square n b) in Hsq.
  assert (Hne : food <> head).
  { intros Heq. destruct head_cell as [Hc _], food_cell as [Hc' _].
    rewrite Heq in Hc'. congruence. }
  assert (Hhe : enterable vals b head = true).
  { unfold enterable. rewrite (proj1 head_cell).
    rewrite Z.eqb_refl, orb_true_r. reflexivity. }
  assert (Hfe : enterable vals b food = true).
  { unfold enterable. rewrite (proj1 food_cell).
    rewrite Z.eqb_refl, orb_true_r. reflexivity. }
  unfold _get_shortest_path, search_food. fold bs.
  rewrite board_frame. cbn [obind].
  rewrite (grid_where_only_at _ _ _ _ _ Hshape head_cell).
  cbn [obind]. fold (cell_point bs head).
  destruct (initial_state_arrays bs head.1 head.2)
    as (st & Hinit & Hqueue & Hsqd & Hsqv & Hzero);
    [fold n; lia|fold n; lia|].
  pose proof (initial_state_zero_at bs head.1 head.2 st
                ltac:(fold n; lia) ltac:(fold n; lia) Hinit) as Hinv.
  fold (cell_point bs head) in Hinit, Hqueue.
  fold n in Hinv, Hsqd, Hsqv.
  rewrite Hinit. cbn [obind].
  rewrite (grid_where_only_at _ _ _ _ _ Hshape food_cell).
  cbn [obind snd]. fold (cell_point bs food).
  destruct fuel as [|[|fuel]]; [lia|lia|].
  (* the first round of the search reaches the food *)
  assert (Hsearch : exists dist,
    search (S (S fuel)) bs vals b st = Ok (true, dist)
    /\ zero_at_head head.1 head.2 n dist
    /\ cell2 dist food.1 food.2 = Some (Steps 1)
    /\ cell2 dist head.1 head.2 = Some (Steps 0)).
  { cbn [search]. rewrite Hqueue.
    rewrite (cell_point_row_col bs n Hside) by lia.
    rewrite (bfs_neighbors_around bs vals b n Hside Hsq) by lia.
    destruct (filter_split (enterable vals b) food (around head)
                food_next Hfe) as (pre & post & Hfilter & Hpre).
    rewrite Hfilter, fmap_app, fmap_cons. cbn [obind].
    rewrite match_cons by (destruct pre; discriminate).
    set (st0 := {| points_to_search := []; distances := distances st;
                   visited := visited st; found := false |}).
    destruct (visit_neighbors_reaches_food bs vals b n Hside Hsq
                head.1 head.2 food 0 (cell_point bs <$> post)
                ltac:(lia) ltac:(lia) ltac:(lia) ltac:(lia)
                (proj1 food_cell)
                ltac:(rewrite <- surjective_pairing; exact Hne)
                pre st0 Hsqd Hsqv Hzero)
      as (st' & Hvisit & Hfound & Hcurr & x & Hx & Hle).
    { intros rc Hin. destruct (Hpre rc Hin) as (Hrc & _ & Hnf).
      destruct (around_range n head rc) as (? & ? & ?);
        try assumption.
      rewrite <- surjective_pairing. auto. }
    { intros r c Hcell. rewrite (surjective_pairing food).
      destruct (proj2 food_cell r c Hcell) as [-> ->]. reflexivity. }
    rewrite Hvisit. cbn [obind]. rewrite Hfound.
    exists (distances st'). split; [reflexivity|].
    pose proof (visit_neighbors_zero_at _ _ _ _ _ _ _ _ _ st0 st' Hinv Hvisit)
      as Hinv'.
    split; [exact Hinv'|]. split; [|exact Hcurr].
    destruct (proj2 Hinv' _ _ _ Hx) as [Hx0 Hat].
    assert (x <> 0).
    { intros ->. destruct (Hat eq_refl) as [E1 E2]. apply Hne.
      rewrite (surjective_pairing food), (surjective_pairing head).
      congruence. }
    replace x with 1 in Hx by lia. exact Hx. }
  destruct Hsearch as (dist & -> & Hinv' & Hdf & Hdh). cbn [obind snd].
  (* the way back from the food *)
  cbn [reconstruct].
  rewrite (cell_point_row_col bs n Hside) by lia.
  rewrite (cell2_get _ _ _ _ Hdf). cbn [obind].
  change (1 =? 0) with false. cbn match.
  rewrite (bfs_neighbors_around bs vals b n Hside Hsq) by lia.
  cbn [obind].
  destruct (filter_split (enterable vals b) head (around food)
              adjacent_head_next Hhe) as (pre & post & Hfilter & Hpre).
  rewrite Hfilter, fmap_app, fmap_cons.
  rewrite (closer_neighbor_head bs n Hside dist head (cell_point bs <$> post)
             Hinv' ltac:(lia) ltac:(lia) Hdh pre).
  2: { intros rc Hin. destruct (Hpre rc Hin) as (Hrc & _ & Hnh).
       destruct (around_range n food rc) as (? & ? & ?); try assumption.
       auto. }
  cbn [obind].
  rewrite (cell_point_row_col bs n Hside) by lia.
  rewrite (cell2_get _ _ _ _ Hdh). cbn [obind].
  reflexivity.
Qed.

Lemma adjacent_move_one (fuel : nat) :
  (2 <= fuel)%nat ->
  move_one fuel self board vals
  = Ok (direction_action (Z.of_nat food.2 - Z.of_nat head.2)
          (- Z.of_nat food.1 + Z.of_nat head.1)).
Proof.
  intros Hfuel. unfold move_one.
  rewrite (adjacent_shortest_path fuel Hfuel). cbn [obind].
  set (bs := _board_size self).
  destruct head_inside as (Hh1 & Hh2 & Hh3 & Hh4).
  destruct food_inside as (Hf1 & Hf2 & Hf3 & Hf4).
  fold bs in Hh2, Hh4, Hf2, Hf4.
  assert (Hside : bs = Z.of_nat (Z.to_nat bs)) by lia.
  change (second_to_last [cell_point bs food; cell_point bs head])
    with (Ok (cell_point bs food)).
  cbn [obind]. rewrite board_frame. cbn [obind].
  pose proof board_shape as Hshape. fold bs in Hshape.
  rewrite (grid_where_only_at _ _ _ _ _ Hshape head_cell).
  cbn [obind]. rewrite board_frame1. cbn [obind].
  fold (cell_point bs head).
  rewrite !(cell_point_row_col bs _ Hside) by lia.
  reflexivity.
Qed.

End FoodNextToHead.



(** ** The rounds of the search *)

Lemma wrap_py_index {A} (a : list A) (i : Z) :
  py_index a i = wrap (length a) i.
Proof.
  unfold wrap. apply py_index_length. rewrite length_replicate. reflexivity.
Qed.

Lemma wrap_lt (n : nat) (i : Z) (r : nat) : wrap n i = Some r -> (r < n)%nat.
Proof.
  unfold wrap, py_index. rewrite length_replicate.
  destruct (Z.leb_spec 0 i), (Z.ltb_spec i (Z.of_nat n)); cbn [andb].
  all: try (intros [= <-]; lia).
  all: destruct (Z.leb_spec (- Z.of_nat n) i), (Z.ltb_spec i 0); cbn [andb];
    try discriminate; intros [= <-]; lia.
Qed.

Lemma wrap_nat (n r : nat) : (r < n)%nat -> wrap n (Z.of_nat r) = Some r.
Proof.
  intros H. unfold wrap. apply py_index_nat. rewrite length_replicate. exact H.
Qed.

Section SquareArrays.

Variable n : nat.

Lemma py_get2_wrap {A} (a : list (list A)) (i j : Z) (r c : nat) :
  square n a -> wrap n i = Some r -> wrap n j = Some c ->
  exists x, cell2 a r c = Some x /\ py_get2 a i j = Ok x.
Proof.
  intros [Hlen Hrows] Hi Hj.
  pose proof (wrap_lt _ _ _ Hi) as Hr. pose proof (wrap_lt _ _ _ Hj) as Hc.
  destruct (a !! r) as [row|] eqn:Hrow.
  2: { apply lookup_ge_None in Hrow. lia. }
  pose proof (Hrows _ _ Hrow) as Hlrow.
  destruct (row !! c) as [x|] eqn:Hx.
  2: { apply lookup_ge_None in Hx. lia. }
  exists x. unfold cell2, py_get2, py_get. rewrite Hrow. cbn.
  split; [exact Hx|].
  rewrite wrap_py_index, Hlen, Hi, Hrow. cbn [obind].
  rewrite wrap_py_index, Hlrow, Hj, Hx. reflexivity.
Qed.

Lemma py_get2_wrap_inv {A} (a : list (list A)) (i j : Z) (x : A) :
  square n a -> py_get2 a i j = Ok x ->
  exists r c, wrap n i = Some r /\ wrap n j = Some c /\ cell2 a r c = Some x.
Proof.
  intros [Hlen Hrows] Hget.
  apply py_get2_cell2 in Hget as (r & c & row & Hr & Hrow & Hc & Hx).
  exists r, c. rewrite wrap_py_index, Hlen in Hr.
  rewrite wrap_py_index, (Hrows _ _ Hrow) in Hc. auto.
Qed.

Lemma py_set2_wrap {A} (a : list (list A)) (i j : Z) (r c : nat) (x : A) :
  square n a -> wrap n i = Some r -> wrap n j = Some c ->
  exists a',
    py_set2 a i j x = Ok a'
    /\ square n a'
    /\ forall r' c',
         cell2 a' r' c'
         = if bool_decide ((r', c') = (r, c)) then Some x else cell2 a r' c'.
Proof.
  intros Hsq Hi Hj. pose proof Hsq as [Hlen Hrows].
  pose proof (wrap_lt _ _ _ Hi) as Hr. pose proof (wrap_lt _ _ _ Hj) as Hc.
  destruct (py_set2_nat n a r c x Hsq Hr Hc) as (a' & Hset & Hsq' & Hcell).
  exists a'. split; [|split; assumption].
  rewrite <- Hset. unfold py_set2.
  rewrite !wrap_py_index, Hlen, Hi, (wrap_nat _ _ Hr).
  destruct (a !! r) as [row|] eqn:Hrow; [|reflexivity].
  rewrite !wrap_py_index, (Hrows _ _ Hrow), Hj, (wrap_nat _ _ Hc).
  reflexivity.
Qed.

End SquareArrays.

Ltac conjs := repeat match goal with |- _ /\ _ => split end.

Section VisitRound.

Import BreadthFirstSearchAgent.

Variable bs : Z.
Variable vals : values.
Variable b : list (list Z).
Variable n : nat.

Hypothesis side : bs = Z.of_nat n.
Hypothesis board_square : square n b.

Variable curr_row curr_col : Z.
Variable curr : nat * nat.

Hypothesis curr_cell :
  wrap n curr_row = Some curr.1 /\ wrap n curr_col = Some curr.2.

(** The loop over the neighbours, one round at a time. *)
Lemma visit_neighbors_cons (p : Z) (nbrs : list Z) (st : search_state) :
  visit_neighbors bs vals b curr_row curr_col (p :: nbrs) st
  = (st1 <~ visit_one bs vals b curr_row curr_col p st;
     if found st1 then Ok st1
     else visit_neighbors bs vals b curr_row curr_col nbrs st1).
Proof.
  unfold visit_one. cbn [visit_neighbors].
  destruct (Agent._point_to_row_col bs p) as [row col].
  destruct (py_get2 (distances st) row col) as [d| |]; cbn [obind];
    try reflexivity.
  destruct (py_get2 (distances st) curr_row curr_col) as [d_curr| |];
    cbn [obind]; try reflexivity.
  destruct (if distance_gtb d (distance_succ d_curr)
            then py_set2 (distances st) row col (distance_succ d_curr)
            else Ok (distances st)) as [dist| |]; cbn [obind];
    try reflexivity.
  destruct (py_get2 b row col) as [cell| |]; cbn [obind]; try reflexivity.
  destruct (cell =? v_food vals); [reflexivity|].
  destruct (py_get2 (visited st) row col) as [v| |]; cbn [obind];
    try reflexivity.
  destruct (v =? 0); [|reflexivity].
  destruct (py_set2 (visited st) curr_row curr_col 1) as [vis| |];
    cbn [obind]; reflexivity.
Qed.

(** What one round does, cell by cell. *)
Lemma visit_one_spec (p : Z) (rc : nat * nat) (st : search_state) :
  square n (distances st) -> square n (visited st) ->
  cell_of n bs p = Some rc ->
  exists st1 old d_curr cell v,
    visit_one bs vals b curr_row curr_col p st = Ok st1
    /\ at_cell (distances st) rc = Some old
    /\ at_cell (distances st) curr = Some d_curr
    /\ at_cell b rc = Some cell
    /\ at_cell (visited st) rc = Some v
    /\ square n (distances st1) /\ square n (visited st1)
    /\ (forall rc',
          at_cell (distances st1) rc'
          = if bool_decide (rc' = rc)
               && distance_gtb old (distance_succ d_curr)
            then Some (distance_succ d_curr)
            else at_cell (distances st) rc')
    /\ found st1 = (cell =? v_food vals)
    /\ points_to_search st1
       = points_to_search st
         ++ (if negb (cell =? v_food vals) && (v =? 0) then [p] else [])
    /\ (forall rc',
          at_cell (visited st1) rc'
          = if negb (cell =? v_food vals) && (v =? 0)
               && bool_decide (rc' = curr)
            then Some 1
            else at_cell (visited st) rc').
Proof.
  intros Hsqd Hsqv Hp. destruct curr_cell as [Hcr Hcc].
  unfold cell_of in Hp.
  destruct (wrap n (p / bs)) as [r|] eqn:Hr; [|discriminate].
  destruct (wrap n (p mod bs)) as [c|] eqn:Hc; [|discriminate].
  injection Hp as <-.
  destruct (py_get2_wrap n _ _ _ _ _ Hsqd Hr Hc) as (old & Hold & Hgo).
  destruct (py_get2_wrap n _ _ _ _ _ Hsqd Hcr Hcc) as (d_curr & Hdc & Hgc).
  destruct (py_get2_wrap n _ _ _ _ _ board_square Hr Hc)
    as (cell & Hcell & Hgb).
  destruct (py_get2_wrap n _ _ _ _ _ Hsqv Hr Hc) as (v & Hv & Hgv).
  assert (Hdist : exists dist,
    (if distance_gtb old (distance_succ d_curr)
     then py_set2 (distances st) (p / bs) (p mod bs) (distance_succ d_curr)
     else Ok (distances st)) = Ok dist
    /\ square n dist
    /\ forall rc',
         at_cell dist rc'
         = if bool_decide (rc' = (r, c))
              && distance_gtb old (distance_succ d_curr)
           then Some (distance_succ d_curr)
           else at_cell (distances st) rc').
  { destruct (distance_gtb old (distance_succ d_curr)).
    - destruct (py_set2_wrap n (distances st) _ _ _ _ (distance_succ d_curr)
                  Hsqd Hr Hc) as (dist & -> & Hsq' & Hcells).
      exists dist. split; [reflexivity|]. split; [exact Hsq'|].
      intros [r' c']. unfold at_cell. cbn [fst snd]. rewrite Hcells.
      rewrite andb_true_r. reflexivity.
    - exists (distances st). split; [reflexivity|]. split; [exact Hsqd|].
      intros rc'. rewrite andb_false_r. reflexivity. }
  destruct Hdist as (dist & Hdist & Hsqd' & Hcells).
  unfold visit_one. cbn [visit_neighbors]. unfold Agent._point_to_row_col.
  rewrite Hgo. cbn [obind]. rewrite Hgc. cbn [obind]. rewrite Hdist.
  cbn [obind]. rewrite Hgb. cbn [obind].
  destruct (cell =? v_food vals) eqn:Efood.
  - eexists _, old, d_curr, cell, v. split; [reflexivity|].
    rewrite Efood.
    cbn [distances visited found points_to_search negb andb].
    rewrite app_nil_r. conjs; try assumption; intros; reflexivity.
  - rewrite Hgv. cbn [obind].
    destruct (v =? 0) eqn:Ev.
    + destruct (py_set2_wrap n (visited st) _ _ _ _ 1 Hsqv Hcr Hcc)
        as (vis & -> & Hsqv' & Hvis).
      cbn [obind]. eexists _, old, d_curr, cell, v. split; [reflexivity|].
      rewrite Efood, Ev.
      cbn [distances visited found points_to_search negb andb].
      conjs; try assumption; try reflexivity.
      intros [r' c']. unfold at_cell. cbn [fst snd]. rewrite Hvis.
      destruct curr as [r0 c0]. reflexivity.
    + eexists _, old, d_curr, cell, v. split; [reflexivity|].
      rewrite Efood, Ev.
      cbn [distances visited found points_to_search negb andb].
      rewrite app_nil_r. conjs; try assumption; intros; reflexivity.
Qed.

End VisitRound.

Lemma relaxed_nil n bs curr dist : relaxed n bs curr [] dist dist.
Proof.
  split; [eauto with lia|]. split; [reflexivity|]. split; [|auto].
  intros rc d (p & Hp & _). inversion Hp.
Qed.

Lemma names_cons n bs p nbrs rc :
  names n bs (p :: nbrs) rc
  <-> cell_of n bs p = Some rc \/ names n bs nbrs rc.
Proof.
  unfold names. split.
  - intros (q & Hq & Hc). apply elem_of_cons in Hq as [->|Hq]; eauto.
  - intros [Hc|(q & Hq & Hc)].
    + exists p. split; [left|exact Hc].
    + exists q. split; [right; exact Hq|exact Hc].
Qed.

Lemma relaxed_cons n bs curr p nbrs dist dist1 dist' :
  relaxed n bs curr [p] dist dist1 ->
  relaxed n bs curr nbrs dist1 dist' ->
  relaxed n bs curr (p :: nbrs) dist dist'.
Proof.
  intros (A1 & A2 & A3 & A4) (B1 & B2 & B3 & B4).
  split; [|split; [|split]].
  - intros rc x Hx. destruct (A1 rc x Hx) as (x1 & Hx1 & Hle1).
    destruct (B1 rc x1 Hx1) as (x2 & Hx2 & Hle2). exists x2.
    split; [exact Hx2|lia].
  - rewrite B2. exact A2.
  - intros rc d Hn Hd. apply names_cons in Hn as [Hc|Hn].
    + destruct (A3 rc d) as (y & Hy & Hle); [|exact Hd|].
      { exists p. split; [left|exact Hc]. }
      destruct (B1 rc y Hy) as (y' & Hy' & Hle'). exists y'.
      split; [exact Hy'|lia].
    + apply (B3 rc d Hn). rewrite A2. exact Hd.
  - intros rc x Hx. destruct (B4 rc x Hx) as [Hx1|(d & Hd & -> & Hn)].
    + destruct (A4 rc x Hx1) as [Hx0|(d & Hd & -> & Hn)]; [left; exact Hx0|].
      right. exists d. split; [exact Hd|]. split; [reflexivity|].
      destruct Hn as (q & Hq & Hc). apply list_elem_of_singleton in Hq.
      subst q. apply names_cons. left. exact Hc.
    + right. exists d. rewrite A2 in Hd. split; [exact Hd|].
      split; [reflexivity|]. apply names_cons. right. exact Hn.
Qed.

Lemma relaxed_bounded_below low n bs curr nbrs dist dist' :
  bounded_below low n dist ->
  square n dist' ->
  (forall rc, names n bs nbrs rc -> low rc <= low curr + 1) ->
  relaxed n bs curr nbrs dist dist' ->
  bounded_below low n dist'.
Proof.
  intros [_ Hlow] Hsq Hstep (_ & _ & _ & H4). split; [exact Hsq|].
  intros rc x Hx. destruct (H4 rc x Hx) as [Hx0|(d & Hd & -> & Hn)].
  - apply Hlow. exact Hx0.
  - pose proof (Hlow _ _ Hd). pose proof (Hstep rc Hn). lia.
Qed.

(** The distances after one round. *)
Lemma relaxed_round n bs (curr : nat * nat) (p : Z) (rc : nat * nat)
    (dist dist1 : list (list distance)) (old d_curr : distance) :
  cell_of n bs p = Some rc -> rc <> curr ->
  at_cell dist rc = Some old -> at_cell dist curr = Some d_curr ->
  (forall rc',
     at_cell dist1 rc'
     = if bool_decide (rc' = rc) && distance_gtb old (distance_succ d_curr)
       then Some (distance_succ d_curr)
       else at_cell dist rc') ->
  relaxed n bs curr [p] dist dist1.
Proof.
  intros Hp Hne Hold Hdc Hdist.
  assert (Hnames : forall rc', names n bs [p] rc' -> rc' = rc).
  { intros rc' (q & Hq & Hc). apply list_elem_of_singleton in Hq. subst q.
    congruence. }
  split; [|split; [|split]].
  - intros rc' x Hx. rewrite Hdist.
    destruct (bool_decide (rc' = rc)
              && distance_gtb old (distance_succ d_curr)) eqn:E.
    + apply andb_prop in E as [E1 E2]. apply bool_decide_eq_true in E1.
      subst rc'. assert (old = Steps x) as -> by congruence.
      destruct d_curr as [|d]; [discriminate|]. cbn in E2 |- *.
      exists (1 + d). split; [reflexivity|lia].
    + exists x. split; [exact Hx|lia].
  - rewrite Hdist. rewrite bool_decide_false; [reflexivity|].
    intros E. apply Hne. symmetry. exact E.
  - intros rc' d Hn Hd. apply Hnames in Hn. subst rc'.
    assert (d_curr = Steps d) as -> by congruence.
    rewrite Hdist, bool_decide_true by reflexivity. cbn [andb distance_succ].
    destruct (distance_gtb old (Steps (1 + d))) eqn:E.
    + exists (1 + d). split; [reflexivity|lia].
    + destruct old as [|y]; [discriminate|]. exists y.
      split; [exact Hold|]. cbn in E. lia.
  - intros rc' x Hx. rewrite Hdist in Hx.
    destruct (bool_decide (rc' = rc)
              && distance_gtb old (distance_succ d_curr)) eqn:E.
    + apply andb_prop in E as [E1 E2]. apply bool_decide_eq_true in E1.
      subst rc'. right. destruct d_curr as [|d]; [discriminate|].
      cbn in Hx. injection Hx as <-. exists d. split; [exact Hdc|].
      split; [reflexivity|]. exists p. split; [left|exact Hp].
    + left. exact Hx.
Qed.

Section VisitRounds.

Import BreadthFirstSearchAgent.

Variable bs : Z.
Variable vals : values.
Variable b : list (list Z).
Variable n : nat.

Hypothesis side : bs = Z.of_nat n.
Hypothesis board_square : square n b.

Variable curr_row curr_col : Z.
Variable curr : nat * nat.

Hypothesis curr_cell :
  wrap n curr_row = Some curr.1 /\ wrap n curr_col = Some curr.2.

(** A round at a neighbour that is not the food. *)
Lemma visit_one_plain (p : Z) (rc : nat * nat) (cell : Z)
    (st : search_state) :
  square n (distances st) -> square n (visited st) ->
  cell_of n bs p = Some rc -> rc <> curr ->
  at_cell b rc = Some cell -> cell <> v_food vals ->
  exists st1,
    visit_one bs vals b curr_row curr_col p st = Ok st1
    /\ found st1 = false
    /\ square n (distances st1) /\ square n (visited st1)
    /\ points_to_search st1
       = points_to_search st
         ++ (if unvisitedb n bs (visited st) p then [p] else [])
    /\ (forall rc',
          at_cell (visited st1) rc'
          = if unvisitedb n bs (visited st) p && bool_decide (rc' = curr)
            then Some 1
            else at_cell (visited st) rc')
    /\ relaxed n bs curr [p] (distances st) (distances st1).
Proof.
  intros Hsqd Hsqv Hp Hne Hcell Hfood.
  destruct (visit_one_spec bs vals b n board_square curr_row curr_col curr
              curr_cell p rc st Hsqd Hsqv Hp)
    as (st1 & old & d_curr & cell' & v & Hone & Hold & Hdc & Hcell' & Hv
        & Hsqd' & Hsqv' & Hdist & Hfound & Hqueue & Hvis).
  assert (cell' = cell) as -> by congruence.
  assert (Efood : (cell =? v_food vals) = false)
    by (apply Z.eqb_neq; exact Hfood).
  rewrite Efood in Hfound, Hqueue, Hvis. cbn [negb andb] in Hqueue, Hvis.
  assert (Hunv : unvisitedb n bs (visited st) p = (v =? 0)).
  { unfold unvisitedb. rewrite Hp, Hv. reflexivity. }
  exists st1. rewrite Hunv.
  split; [exact Hone|]. split; [exact Hfound|]. split; [exact Hsqd'|].
  split; [exact Hsqv'|]. split; [exact Hqueue|]. split; [exact Hvis|].
  eapply relaxed_round; eassumption.
Qed.

Lemma unvisitedb_marked (vis vis' : list (list Z)) (flag : bool) (p : Z)
    (rc : nat * nat) :
  cell_of n bs p = Some rc -> rc <> curr ->
  (forall rc',
     at_cell vis' rc'
     = if flag && bool_decide (rc' = curr) then Some 1 else at_cell vis rc') ->
  unvisitedb n bs vis' p = unvisitedb n bs vis p.
Proof.
  intros Hp Hne Hvis. unfold unvisitedb. rewrite Hp, Hvis.
  rewrite bool_decide_false by exact Hne. rewrite andb_false_r. reflexivity.
Qed.

(** The rounds at neighbours none of which is the food. *)
Lemma visit_plain (nbrs : list Z) : forall st : search_state,
  square n (distances st) -> square n (visited st) ->
  found st = false ->
  (forall p, p ∈ nbrs ->
     exists rc cell, cell_of n bs p = Some rc /\ rc <> curr
                     /\ at_cell b rc = Some cell /\ cell <> v_food vals) ->
  exists st',
    visit_neighbors bs vals b curr_row curr_col nbrs st = Ok st'
    /\ found st' = false
    /\ square n (distances st') /\ square n (visited st')
    /\ points_to_search st'
       = points_to_search st
         ++ List.filter (unvisitedb n bs (visited st)) nbrs
    /\ (forall rc',
          at_cell (visited st') rc'
          = match List.filter (unvisitedb n bs (visited st)) nbrs with
            | [] => at_cell (visited st) rc'
            | _ :: _ =>
                if bool_decide (rc' = curr) then Some 1
                else at_cell (visited st) rc'
            end)
    /\ relaxed n bs curr nbrs (distances st) (distances st').
Proof.
  induction nbrs as [|p nbrs IH]; intros st Hsqd Hsqv Hfound Hnbrs.
  - exists st. cbn [visit_neighbors List.filter]. rewrite app_nil_r.
    split; [reflexivity|]. split; [exact Hfound|]. split; [exact Hsqd|].
    split; [exact Hsqv|]. split; [reflexivity|]. split; [reflexivity|].
    apply relaxed_nil.
  - destruct (Hnbrs p ltac:(left)) as (rc & cell & Hp & Hne & Hcell & Hfood).
    destruct (visit_one_plain p rc cell st Hsqd Hsqv Hp Hne Hcell Hfood)
      as (st1 & Hone & Hf1 & Hsqd1 & Hsqv1 & Hq1 & Hv1 & Hr1).
    destruct (IH st1 Hsqd1 Hsqv1 Hf1) as
      (st' & Hvisit & Hf' & Hsqd' & Hsqv' & Hq' & Hv' & Hr').
    { intros q Hq. apply Hnbrs. right. exact Hq. }
    assert (Hfilter : List.filter (unvisitedb n bs (visited st1)) nbrs
                      = List.filter (unvisitedb n bs (visited st)) nbrs).
    { apply filter_ext_in. intros q Hq. apply list_elem_of_In in Hq.
      destruct (Hnbrs q ltac:(right; exact Hq)) as (rq & _ & Hcq & Hneq & _).
      eapply unvisitedb_marked; eauto. }
    rewrite Hfilter in Hq', Hv'.
    exists st'. rewrite visit_neighbors_cons, Hone. cbn [obind].
    rewrite Hf1. split; [exact Hvisit|]. split; [exact Hf'|].
    split; [exact Hsqd'|]. split; [exact Hsqv'|].
    cbn [List.filter].
    split; [|split].
    + rewrite Hq', Hq1, <- app_assoc.
      destruct (unvisitedb n bs (visited st) p); reflexivity.
    + intros rc'. rewrite Hv', !Hv1.
      destruct (unvisitedb n bs (visited st) p); cbn [andb];
        destruct (List.filter (unvisitedb n bs (visited st)) nbrs);
        try reflexivity.
      destruct (bool_decide (rc' = curr)); reflexivity.
    + eapply relaxed_cons; eassumption.
Qed.

End VisitRounds.

Lemma wrap_spec (n : nat) (i : Z) (r : nat) :
  wrap n i = Some r ->
  (0 <= i -> Z.of_nat r = i) /\ (i < 0 -> Z.of_nat r = i + Z.of_nat n).
Proof.
  unfold wrap, py_index. rewrite length_replicate.
  destruct (Z.leb_spec 0 i), (Z.ltb_spec i (Z.of_nat n)); cbn [andb].
  all: try (intros [= <-]; lia).
  all: destruct (Z.leb_spec (- Z.of_nat n) i), (Z.ltb_spec i 0); cbn [andb];
    try discriminate; intros [= <-]; lia.
Qed.

Lemma filter_all {A} (f : A -> bool) (l : list A) :
  (forall x, x ∈ l -> f x = true) -> List.filter f l = l.
Proof.
  induction l as [|x l IH]; intros H; [reflexivity|]. cbn.
  rewrite (H x) by left. f_equal. apply IH. intros y Hy. apply H. right.
  exact Hy.
Qed.

Lemma square_has_shape {A} (a : list (list A)) (n : nat) :
  square n a -> has_shape a n n = true.
Proof.
  intros [Hlen Hrows]. unfold has_shape. apply andb_true_intro. split.
  - apply Nat.eqb_eq. exact Hlen.
  - apply forallb_forall. intros row Hin. apply Nat.eqb_eq.
    apply list_elem_of_In, list_elem_of_lookup in Hin as [r Hr]. eauto.
Qed.

Lemma cell2_replicate_lookup {A} (n r c : nat) (x : A) :
  (r < n)%nat -> (c < n)%nat ->
  cell2 (replicate n (replicate n x)) r c = Some x.
Proof.
  intros Hr Hc. unfold cell2. rewrite lookup_replicate_2 by exact Hr. cbn.
  apply lookup_replicate_2. exact Hc.
Qed.

(** The arrays with which the search starts. *)
Lemma initial_state_cells (bs : Z) (head : nat * nat) :
  (head.1 < Z.to_nat bs)%nat -> (head.2 < Z.to_nat bs)%nat ->
  exists st,
    BreadthFirstSearchAgent.initial_state bs (cell_point bs head) = Ok st
    /\ BreadthFirstSearchAgent.points_to_search st = [cell_point bs head]
    /\ square (Z.to_nat bs) (BreadthFirstSearchAgent.distances st)
    /\ square (Z.to_nat bs) (BreadthFirstSearchAgent.visited st)
    /\ (forall rc, (rc.1 < Z.to_nat bs)%nat -> (rc.2 < Z.to_nat bs)%nat ->
          at_cell (BreadthFirstSearchAgent.distances st) rc
          = Some (if bool_decide (rc = head) then Steps 0 else Inf))
    /\ (forall rc, (rc.1 < Z.to_nat bs)%nat -> (rc.2 < Z.to_nat bs)%nat ->
          at_cell (BreadthFirstSearchAgent.visited st) rc
          = Some (if bool_decide (rc = head) then 1 else 0)).
Proof.
  intros Hr Hc. unfold BreadthFirstSearchAgent.initial_state, cell_point.
  rewrite point_div_mod by lia.
  destruct (py_set2_nat (Z.to_nat bs)
              (replicate (Z.to_nat bs) (replicate (Z.to_nat bs) Inf))
              head.1 head.2 (Steps 0) (square_replicate _ _) Hr Hc)
    as (dist & -> & Hsqd & Hcell).
  destruct (py_set2_nat (Z.to_nat bs)
              (replicate (Z.to_nat bs) (replicate (Z.to_nat bs) 0))
              head.1 head.2 1 (square_replicate _ _) Hr Hc)
    as (vis & -> & Hsqv & Hvis).
  cbn [obind]. eexists. split; [reflexivity|].
  cbn [BreadthFirstSearchAgent.points_to_search
       BreadthFirstSearchAgent.distances BreadthFirstSearchAgent.visited].
  split; [reflexivity|]. split; [exact Hsqd|]. split; [exact Hsqv|].
  split; intros [r c] Hrr Hcc; unfold at_cell; cbn [fst snd] in *.
  - rewrite Hcell, cell2_replicate_lookup by assumption.
    rewrite <- (surjective_pairing head).
    destruct (bool_decide ((r, c) = head)); reflexivity.
  - rewrite Hvis, cell2_replicate_lookup by assumption.
    rewrite <- (surjective_pairing head).
    destruct (bool_decide ((r, c) = head)); reflexivity.
Qed.

Section SearchRounds.

Import BreadthFirstSearchAgent.

Variable bs : Z.
Variable vals : values.
Variable b : list (list Z).
Variable n : nat.

Hypothesis side : bs = Z.of_nat n.
Hypothesis board_square : square n b.

Lemma cell_of_point (rc : nat * nat) :
  (rc.1 < n)%nat -> (rc.2 < n)%nat ->
  cell_of n bs (cell_point bs rc) = Some rc.
Proof.
  intros Hr Hc. unfold cell_of.
  pose proof (cell_point_row_col bs n side rc Hc) as H.
  unfold Agent._point_to_row_col in H. injection H as -> ->.
  rewrite !wrap_nat by assumption. destruct rc. reflexivity.
Qed.

(** The loop over the neighbours when it reaches the food. *)
Lemma visit_found (curr : nat * nat) (p : Z) (post : list Z)
    (food : nat * nat) (pre : list Z) : forall st : search_state,
  (curr.1 < n)%nat -> (curr.2 < n)%nat ->
  square n (distances st) -> square n (visited st) ->
  (forall e, e ∈ pre ->
     exists rc cell, cell_of n bs e = Some rc /\ rc <> curr
                     /\ at_cell b rc = Some cell /\ cell <> v_food vals) ->
  cell_of n bs p = Some food -> food <> curr ->
  at_cell b food = Some (v_food vals) ->
  exists st',
    visit_neighbors bs vals b (Z.of_nat curr.1) (Z.of_nat curr.2)
      (pre ++ p :: post) st = Ok st'
    /\ found st' = true
    /\ square n (distances st')
    /\ relaxed n bs curr (pre ++ [p]) (distances st) (distances st').
Proof.
  intros st Hcr Hcc. revert st.
  assert (Hcurr : wrap n (Z.of_nat curr.1) = Some curr.1
                  /\ wrap n (Z.of_nat curr.2) = Some curr.2).
  { split; apply wrap_nat; assumption. }
  induction pre as [|e pre IH]; intros st Hsqd Hsqv Hpre Hp Hne Hfood.
  - cbn [app]. rewrite visit_neighbors_cons.
    destruct (visit_one_spec bs vals b n board_square _ _ curr Hcurr p food st
                Hsqd Hsqv Hp)
      as (st1 & old & d_curr & cell' & v & Hone & Hold & Hdc & Hcell' & Hv
          & Hsqd' & Hsqv' & Hdist & Hfound & Hqueue & Hvis).
    assert (cell' = v_food vals) as -> by congruence.
    rewrite Z.eqb_refl in Hfound.
    rewrite Hone. cbn [obind]. rewrite Hfound. exists st1.
    split; [reflexivity|]. split; [exact Hfound|]. split; [exact Hsqd'|].
    eapply relaxed_round; eassumption.
  - destruct (Hpre e ltac:(left)) as (rc & cell & He & Hnc & Hcell & Hnf).
    destruct (visit_one_plain bs vals b n board_square _ _ curr Hcurr e rc
                cell st Hsqd Hsqv He Hnc Hcell Hnf)
      as (st1 & Hone & Hf1 & Hsqd1 & Hsqv1 & Hq1 & Hv1 & Hr1).
    destruct (IH st1 Hsqd1 Hsqv1) as (st' & Hvisit & Hf' & Hsqd' & Hr');
      try assumption.
    { intros e' He'. apply Hpre. right. exact He'. }
    exists st'. cbn [app]. rewrite visit_neighbors_cons, Hone. cbn [obind].
    rewrite Hf1. split; [exact Hvisit|]. split; [exact Hf'|].
    split; [exact Hsqd'|]. eapply relaxed_cons; eassumption.
Qed.

(** A round of the [while] loop that does not reach the food. *)
Lemma search_plain_pop (fuel : nat) (st : search_state) (c : nat * nat)
    (q nbrs : list Z) :
  (c.1 < n)%nat -> (c.2 < n)%nat ->
  points_to_search st = cell_point bs c :: q ->
  square n (distances st) -> square n (visited st) ->
  _get_neighbors bs (cell_point bs c) vals b = Ok nbrs ->
  (forall e, e ∈ nbrs ->
     exists rc cell, cell_of n bs e = Some rc /\ rc <> c
                     /\ at_cell b rc = Some cell /\ cell <> v_food vals) ->
  exists st',
    search (S fuel) bs vals b st = search fuel bs vals b st'
    /\ square n (distances st') /\ square n (visited st')
    /\ points_to_search st'
       = q ++ List.filter (unvisitedb n bs (visited st)) nbrs
    /\ (forall rc',
          at_cell (visited st') rc'
          = match List.filter (unvisitedb n bs (visited st)) nbrs with
            | [] => at_cell (visited st) rc'
            | _ :: _ =>
                if bool_decide (rc' = c) then Some 1
                else at_cell (visited st) rc'
            end)
    /\ relaxed n bs c nbrs (distances st) (distances st').
Proof.
  intros Hcr Hcc Hqueue Hsqd Hsqv Hnbrs Hplain.
  assert (Hcurr : wrap n (Z.of_nat c.1) = Some c.1
                  /\ wrap n (Z.of_nat c.2) = Some c.2).
  { split; apply wrap_nat; assumption. }
  set (st0 := {| points_to_search := q; distances := distances st;
                 visited := visited st; found := false |}).
  destruct (visit_plain bs vals b n board_square _ _ c Hcurr nbrs st0
              Hsqd Hsqv eq_refl Hplain)
    as (st' & Hvisit & Hf' & Hsqd' & Hsqv' & Hq' & Hv' & Hr').
  cbn [search]. rewrite Hqueue.
  rewrite (cell_point_row_col bs n side) by exact Hcc.
  rewrite Hnbrs. cbn [obind]. fold st0.
  destruct nbrs as [|e nbrs].
  - exists st0. split; [reflexivity|]. cbn [List.filter].
    rewrite app_nil_r. cbn [distances visited points_to_search st0].
    split; [exact Hsqd|]. split; [exact Hsqv|]. split; [reflexivity|].
    split; [reflexivity|]. apply relaxed_nil.
  - rewrite Hvisit. cbn [obind]. rewrite Hf'. exists st'.
    split; [reflexivity|]. split; [exact Hsqd'|]. split; [exact Hsqv'|].
    split; [exact Hq'|]. split; [exact Hv'|exact Hr'].
Qed.

(** The points that [_get_neighbors] returns at a cell that is not on the
    last row nor on the first or the last column, and the cells that they
    name: the row before the first one is the last one. *)
Lemma neighbors_cells (rc : nat * nat) :
  (S rc.1 < n)%nat -> (1 <= rc.2)%nat -> (S rc.2 < n)%nat ->
  exists nbrs,
    _get_neighbors bs (cell_point bs rc) vals b = Ok nbrs
    /\ forall e, e ∈ nbrs ->
         exists rc' cell dr dc,
           (dr, dc) ∈ [(-1, 0); (1, 0); (0, 1); (0, -1)]
           /\ cell_of n bs e = Some rc'
           /\ wrap n (Z.of_nat rc.1 + dr) = Some rc'.1
           /\ Z.of_nat rc'.2 = Z.of_nat rc.2 + dc
           /\ at_cell b rc' = Some cell
           /\ can_enter vals cell.
Proof.
  intros Hr Hc1 Hc2.
  assert (Hshape : has_shape b (Z.to_nat bs) (Z.to_nat bs) = true).
  { apply square_has_shape. rewrite side, Nat2Z.id. exact board_square. }
  destruct (bfs_neighbors_edge bs vals b rc.1 rc.2 Hshape) as [_ Hok];
    [lia|lia|].
  destruct Hok as (nbrs & Hnbrs & _); [lia|lia|].
  exists nbrs. split; [exact Hnbrs|]. intros e He.
  destruct (bfs_neighbors_step bs vals b _ e nbrs Hnbrs He)
    as (dr & dc & cell & Hd & -> & Hget & Hcan).
  pose proof (cell_point_row_col bs n side rc ltac:(lia)) as Hdm.
  unfold Agent._point_to_row_col in Hdm. injection Hdm as Hdiv Hmod.
  fold (cell_point bs rc) in Hget |- *. rewrite Hdiv, Hmod in Hget |- *.
  destruct (py_get2_wrap_inv n b _ _ _ board_square Hget)
    as (r' & c' & Hr' & Hc' & Hcell).
  assert (Hdc : -1 <= dc <= 1).
  { rewrite !elem_of_cons, elem_of_nil in Hd.
    destruct Hd as [Hd|[Hd|[Hd|[Hd|[]]]]]; injection Hd as -> ->; lia. }
  exists (r', c'), cell, dr, dc. cbn [fst snd]. split; [exact Hd|].
  split.
  { unfold cell_of.
    pose proof (point_div_mod bs (Z.of_nat rc.1 + dr) (Z.of_nat rc.2 + dc)
                  ltac:(lia)) as Hdm.
    unfold Agent._point_to_row_col in Hdm. injection Hdm as -> ->.
    rewrite Hr', Hc'. reflexivity. }
  split; [exact Hr'|]. split; [|split; [exact Hcell|exact Hcan]].
  apply wrap_spec in Hc' as [Hc' _]. lia.
Qed.

(** The scan of the neighbours stops at the first one that is one step
    closer to the head. *)
Lemma closer_neighbor_first (dist : list (list distance)) (d : Z)
    (target : nat * nat) (post : list Z) :
  square n dist ->
  (target.1 < n)%nat -> (target.2 < n)%nat ->
  cell2 dist target.1 target.2 = Some (Steps (d - 1)) ->
  forall pre : list (nat * nat),
  (forall rc, rc ∈ pre ->
     (rc.1 < n)%nat /\ (rc.2 < n)%nat
     /\ cell2 dist rc.1 rc.2 <> Some (Steps (d - 1))) ->
  closer_neighbor bs dist d
    ((cell_point bs <$> pre) ++ cell_point bs target :: post)
  = Ok (Some (cell_point bs target)).
Proof.
  intros Hsq Hr Hc Htarget pre.
  induction pre as [|rc pre IH]; intros Hpre.
  - cbn [fmap list_fmap app closer_neighbor].
    rewrite (cell_point_row_col bs n side) by exact Hc.
    rewrite (cell2_get _ _ _ _ Htarget). cbn [obind].
    rewrite Z.eqb_refl. reflexivity.
  - destruct (Hpre rc ltac:(left)) as (Hrr & Hrc & Hne).
    cbn [fmap list_fmap app closer_neighbor].
    change (list_fmap _ _ (cell_point bs) pre) with (cell_point bs <$> pre).
    rewrite (cell_point_row_col bs n side) by exact Hrc.
    destruct (square_cell n _ rc.1 rc.2 Hsq Hrr Hrc) as [old Hold].
    rewrite (cell2_get _ _ _ _ Hold). cbn [obind].
    assert (Hrest : closer_neighbor bs dist d
                      ((cell_point bs <$> pre) ++ cell_point bs target :: post)
                    = Ok (Some (cell_point bs target))).
    { apply IH. intros rc' Hin. apply Hpre. right. exact Hin. }
    destruct old as [|x]; [exact Hrest|].
    destruct (Z.eqb_spec x (d - 1)) as [Hx|_]; [|exact Hrest].
    exfalso. apply Hne. rewrite Hold, Hx. reflexivity.
Qed.

End SearchRounds.

(** ** The search on a board with the food two cells from the head *)

Lemma at_cell_range {A} (n : nat) (a : list (list A)) (rc : nat * nat)
    (x : A) :
  square n a -> at_cell a rc = Some x -> (rc.1 < n)%nat /\ (rc.2 < n)%nat.
Proof.
  intros [Hlen Hrows]. unfold at_cell, cell2.
  destruct (a !! rc.1) as [row|] eqn:Hrow; [|discriminate].
  cbn. intros Hx. apply lookup_lt_Some in Hx. rewrite (Hrows _ _ Hrow) in Hx.
  apply lookup_lt_Some in Hrow. lia.
Qed.

Lemma near_range (head rc : nat * nat) : 0 <= near head rc <= 2.
Proof. unfold near. repeat case_bool_decide; lia. Qed.

Section OpenRow.

Import BreadthFirstSearchAgent.

Variable bs : Z.
Variable vals : values.
Variable b : list (list Z).
Variable n : nat.

Hypothesis side : bs = Z.of_nat n.
Hypothesis board_square : square n b.
Hypothesis side_five : (5 <= n)%nat.
Hypothesis head_cell : only_at b (v_head vals) 1 1.
Hypothesis food_cell : only_at b (v_food vals) 1 3.
Hypothesis free_cell : cell2 b 1 2 = Some (v_board vals).

Lemma open_row_food (rc : nat * nat) (cell : Z) :
  at_cell b rc = Some cell -> rc <> (1%nat, 3%nat) -> cell <> v_food vals.
Proof.
  intros Hcell Hne ->. apply Hne. destruct rc as [r c].
  destruct (proj2 food_cell r c Hcell) as [-> ->]. reflexivity.
Qed.

Lemma open_row_enterable :
  enterable vals b (1%nat, 1%nat) = true
  /\ enterable vals b (1%nat, 2%nat) = true
  /\ enterable vals b (1%nat, 3%nat) = true.
Proof.
  unfold enterable. cbn [fst snd].
  rewrite (proj1 head_cell), (proj1 food_cell), free_cell.
  rewrite !Z.eqb_refl, !orb_true_r. auto.
Qed.

(** The state is kept by a round that relaxes the distances around a cell
    other than the head. *)
Lemma open_row_relaxed (c : nat * nat) (nbrs : list Z)
    (st st' : search_state) :
  c <> (1%nat, 1%nat) ->
  open_row_state n st ->
  square n (distances st') -> square n (visited st') ->
  relaxed n bs c nbrs (distances st) (distances st') ->
  open_row_state n st'.
Proof.
  intros Hc (Hsqd & Hsqv & Hlow & (x & Hx & Hx0) & (y & Hy & Hy1))
    Hsqd' Hsqv' Hrel.
  split; [exact Hsqd'|]. split; [exact Hsqv'|]. split.
  { eapply relaxed_bounded_below; [exact Hlow|exact Hsqd'| |exact Hrel].
    intros rc _. pose proof (near_range (1%nat, 1%nat) rc).
    assert (1 <= near (1%nat, 1%nat) c); [|lia].
    unfold near. rewrite bool_decide_false by exact Hc.
    case_bool_decide; lia. }
  destruct Hrel as (H1 & _).
  destruct (H1 _ _ Hx) as (x' & Hx' & Hle).
  destruct (H1 _ _ Hy) as (y' & Hy' & Hle').
  split; [exists x'|exists y']; split; (assumption || lia).
Qed.

(** The rounds at the cells above and below the head. *)
Lemma open_row_skips (pre : list (nat * nat)) :
  (forall rc, rc ∈ pre -> rc ∈ [(0%nat, 1%nat); (2%nat, 1%nat)]) ->
  forall (fuel : nat) (st : search_state) (rest : list Z),
  points_to_search st = (cell_point bs <$> pre) ++ rest ->
  open_row_state n st ->
  exists st',
    search (length pre + fuel) bs vals b st = search fuel bs vals b st'
    /\ (exists extra, points_to_search st' = rest ++ extra)
    /\ open_row_state n st'.
Proof.
  induction pre as [|c pre IH]; intros Hpre fuel st rest Hqueue Hinv.
  - exists st. split; [reflexivity|]. split; [|exact Hinv].
    exists []. rewrite app_nil_r. exact Hqueue.
  - assert (Hc : c ∈ [(0%nat, 1%nat); (2%nat, 1%nat)]) by (apply Hpre; left).
    assert (Hc2 : c.2 = 1%nat /\ (c.1 = 0%nat \/ c.1 = 2%nat)).
    { rewrite !elem_of_cons, elem_of_nil in Hc.
      destruct Hc as [->|[->|[]]]; cbn; lia. }
    destruct Hc2 as [Hc2 Hc1].
    destruct (neighbors_cells bs vals b n side board_square c)
      as (nbrs & Hnbrs & Hcells); [lia|lia|lia|].
    pose proof Hinv as (Hsqd & Hsqv & _).
    destruct (search_plain_pop bs vals b n side board_square
                (length pre + fuel) st c
                ((cell_point bs <$> pre) ++ rest) nbrs)
      as (st1 & Hsearch & Hsqd1 & Hsqv1 & Hq1 & _ & Hrel);
      try assumption; try lia.
    { intros e He.
      destruct (Hcells e He)
        as (rc' & cell & dr & dc & Hd & Hof & Hwr & Hcol & Hcell & _).
      exists rc', cell. split; [exact Hof|].
      apply wrap_spec in Hwr as [Hw1 Hw2].
      rewrite !elem_of_cons, elem_of_nil in Hd.
      split; [|split; [exact Hcell|]].
      - intros ->.
        destruct Hd as [Hd|[Hd|[Hd|[Hd|[]]]]]; injection Hd as -> ->; lia.
      - apply (open_row_food rc' cell Hcell). intros ->. cbn [fst snd] in *.
        destruct Hd as [Hd|[Hd|[Hd|[Hd|[]]]]]; injection Hd as -> ->; lia. }
    assert (Hinv1 : open_row_state n st1).
    { eapply (open_row_relaxed c nbrs st st1); try eassumption.
      intros ->. cbn in Hc1. lia. }
    destruct (IH ltac:(intros rc Hrc; apply Hpre; right; exact Hrc)
                fuel st1 (rest ++ List.filter (unvisitedb n bs (visited st))
                                    nbrs))
      as (st' & Hsearch' & (extra & Hextra) & Hinv'); [|exact Hinv1|].
    { rewrite Hq1, <- app_assoc. reflexivity. }
    exists st'. cbn [length Nat.add]. rewrite Hsearch, Hsearch'.
    split; [reflexivity|]. split; [|exact Hinv'].
    eexists. rewrite Hextra, <- app_assoc. reflexivity.
Qed.

(** The search on the board: it reaches the food in its round at the cell
    (1, 2), after the round at the head and those at the cells above and
    below the head. *)
Lemma open_row_search (fuel : nat) (st : search_state) :
  (4 <= fuel)%nat ->
  initial_state bs (cell_point bs (1%nat, 1%nat)) = Ok st ->
  exists dist,
    search fuel bs vals b st = Ok (true, dist)
    /\ bounded_below (near (1%nat, 1%nat)) n dist
    /\ at_cell dist (1%nat, 1%nat) = Some (Steps 0)
    /\ at_cell dist (1%nat, 2%nat) = Some (Steps 1)
    /\ at_cell dist (1%nat, 3%nat) = Some (Steps 2).
Proof.
  intros Hfuel Hinit.
  set (head := (1%nat, 1%nat)). set (mid := (1%nat, 2%nat)).
  set (food := (1%nat, 3%nat)).
  destruct open_row_enterable as (Hhe & Hme & Hfe).
  assert (Hn : Z.to_nat bs = n) by lia.
  destruct (initial_state_cells bs head)
    as (st0 & Hinit0 & Hqueue & Hsqd & Hsqv & Hdist & Hvis);
    [cbn; lia|cbn; lia|].
  fold head in Hinit. rewrite Hinit in Hinit0. injection Hinit0 as <-.
  rewrite Hn in Hsqd, Hsqv, Hdist, Hvis.
  (* the round at the head *)
  set (above := List.filter (enterable vals b)
                  [(0%nat, 1%nat); (2%nat, 1%nat)]).
  set (left := List.filter (enterable vals b) [(1%nat, 0%nat)]).
  assert (Haround : List.filter (enterable vals b) (around head)
                    = above ++ mid :: left).
  { change (around head)
      with ([(0%nat, 1%nat); (2%nat, 1%nat)] ++ mid :: [(1%nat, 0%nat)]).
    rewrite List.filter_app. cbn [List.filter]. fold mid in Hme.
    rewrite Hme. reflexivity. }
  assert (Habove : forall rc, rc ∈ above ->
                     rc ∈ [(0%nat, 1%nat); (2%nat, 1%nat)]).
  { intros rc Hrc. apply list_elem_of_In, filter_In in Hrc as [Hrc _].
    apply list_elem_of_In. exact Hrc. }
  assert (Hlen : (length above <= 2)%nat).
  { unfold above. cbn [List.filter].
    destruct (enterable vals b (0%nat, 1%nat)),
             (enterable vals b (2%nat, 1%nat)); cbn; lia. }
  assert (Hnbrs0 : _get_neighbors bs (cell_point bs head) vals b
                   = Ok (cell_point bs <$> above ++ mid :: left)).
  { rewrite (bfs_neighbors_around bs vals b n side board_square)
      by (cbn; lia).
    rewrite Haround. reflexivity. }
  assert (Hcells0 : forall e, e ∈ cell_point bs <$> above ++ mid :: left ->
            exists rc, e = cell_point bs rc /\ rc ∈ around head
                       /\ (rc.1 < n)%nat /\ (rc.2 < n)%nat /\ rc <> head
                       /\ cell_of n bs e = Some rc).
  { intros e He. apply list_elem_of_fmap in He as (rc & -> & Hrc).
    rewrite <- Haround in Hrc.
    apply list_elem_of_In, filter_In in Hrc as [Hrc _].
    apply list_elem_of_In in Hrc.
    destruct (around_range n head rc) as (Hr & Hc & Hne);
      try (cbn; lia); [exact Hrc|].
    exists rc. repeat split; try assumption.
    apply (cell_of_point bs n side); assumption. }
  assert (Hfuel' : exists f, fuel = S (length above + S f)).
  { exists (fuel - 2 - length above)%nat. lia. }
  destruct Hfuel' as (f & ->).
  destruct (search_plain_pop bs vals b n side board_square
              (length above + S f) st head []
              (cell_point bs <$> above ++ mid :: left))
    as (st1 & Hsearch1 & Hsqd1 & Hsqv1 & Hq1 & _ & Hrel1);
    try assumption; try (cbn; lia).
  { intros e He.
    destruct (Hcells0 e He) as (rc & -> & Hrc & Hr & Hc & Hne & Hof).
    destruct (square_cell n b rc.1 rc.2 board_square Hr Hc) as [cell Hcell].
    exists rc, cell. split; [exact Hof|]. split; [exact Hne|].
    split; [exact Hcell|]. apply (open_row_food rc cell Hcell).
    intros ->. unfold around, head in Hrc. cbn [fst snd] in Hrc.
    rewrite !elem_of_cons, elem_of_nil in Hrc.
    destruct Hrc as [Hrc|[Hrc|[Hrc|[Hrc|[]]]]]; discriminate. }
  rewrite filter_all in Hq1.
  2: { intros e He.
       destruct (Hcells0 e He) as (rc & -> & Hrc & Hr & Hc & Hne & Hof).
       unfold unvisitedb. rewrite Hof, (Hvis rc Hr Hc).
       rewrite bool_decide_false by exact Hne. reflexivity. }
  cbn [app] in Hq1. rewrite fmap_app, fmap_cons in Hq1.
  assert (Hinv1 : open_row_state n st1).
  { destruct Hrel1 as (R1 & R2 & R3 & R4).
    split; [exact Hsqd1|]. split; [exact Hsqv1|]. split; [|split].
    - split; [exact Hsqd1|]. intros rc x Hx.
      destruct (R4 rc x Hx) as [Hx0|(d & Hd & -> & e & He & Hof)].
      + destruct (at_cell_range n _ rc _ Hsqd Hx0) as [Hr Hc].
        rewrite (Hdist rc Hr Hc) in Hx0.
        destruct (decide (rc = head)) as [->|Hne].
        * rewrite bool_decide_true in Hx0 by reflexivity.
          injection Hx0 as <-. change (near (1%nat, 1%nat) head) with 0. lia.
        * rewrite bool_decide_false in Hx0 by exact Hne. discriminate.
      + rewrite (Hdist head) in Hd by (cbn; lia).
        rewrite bool_decide_true in Hd by reflexivity. injection Hd as <-.
        destruct (Hcells0 e He) as (rc' & _ & Hrc & _ & _ & Hne & Hof').
        assert (rc' = rc) as -> by congruence.
        unfold near. fold head. rewrite bool_decide_false by exact Hne.
        rewrite bool_decide_true by exact Hrc. lia.
    - exists 0. split; [|lia]. fold head. rewrite R2, Hdist by (cbn; lia).
      rewrite bool_decide_true by reflexivity. reflexivity.
    - destruct (R3 mid 0) as (y & Hy & Hle).
      + exists (cell_point bs mid). split.
        * apply list_elem_of_fmap. exists mid. split; [reflexivity|].
          apply elem_of_app. right. left.
        * apply (cell_of_point bs n side); cbn; lia.
      + rewrite Hdist by (cbn; lia).
        rewrite bool_decide_true by reflexivity. reflexivity.
      + exists y. split; [exact Hy|lia]. }
  (* the rounds at the cells above and below the head *)
  destruct (open_row_skips above Habove (S f) st1
              (cell_point bs mid :: (cell_point bs <$> left)) Hq1 Hinv1)
    as (st2 & Hsearch2 & (extra & Hq2) & Hinv2).
  rewrite Hsearch1, Hsearch2.
  (* the round at the cell (1, 2) *)
  destruct Hinv2 as (Hsqd2 & Hsqv2 & Hlow2 & (x & Hx & Hx0) & (y & Hy & Hy1)).
  assert (y = 1) as ->.
  { pose proof (proj2 Hlow2 _ _ Hy) as H. change (near _ _) with 1 in H.
    lia. }
  assert (Hfin : food ∈ around mid) by (right; right; left).
  destruct (filter_split (enterable vals b) food (around mid) Hfin Hfe)
    as (pre & post & Hfilter & Hpre).
  cbn [search]. rewrite Hq2. cbn [app].
  rewrite (cell_point_row_col bs n side) by (cbn; lia).
  rewrite (bfs_neighbors_around bs vals b n side board_square)
    by (cbn; lia).
  rewrite Hfilter, fmap_app, fmap_cons. cbn [obind].
  rewrite match_cons by (destruct pre; discriminate).
  set (st3 := {| points_to_search := _; distances := distances st2;
                 visited := visited st2; found := false |}).
  destruct (visit_found bs vals b n board_square mid
              (cell_point bs food) (cell_point bs <$> post) food
              (cell_point bs <$> pre) st3)
    as (st' & Hvisit & Hfound & Hsqd' & Hrel');
    try assumption; try (cbn; lia).
  { intros e He. apply list_elem_of_fmap in He as (rc & -> & Hrc).
    destruct (Hpre rc Hrc) as (Hin & _ & Hnf).
    destruct (around_range n mid rc) as (Hr & Hc & Hne);
      try (cbn; lia); [exact Hin|].
    destruct (square_cell n b rc.1 rc.2 board_square Hr Hc) as [cell Hcell].
    exists rc, cell. split; [apply (cell_of_point bs n side); assumption|].
    split; [exact Hne|]. split; [exact Hcell|].
    apply (open_row_food rc cell Hcell). exact Hnf. }
  { apply (cell_of_point bs n side); cbn; lia. }
  { discriminate. }
  { exact (proj1 food_cell). }
  rewrite Hvisit. cbn [obind]. rewrite Hfound.
  exists (distances st'). split; [reflexivity|].
  assert (Hlow' : bounded_below (near head) n (distances st')).
  { eapply relaxed_bounded_below; [exact Hlow2|exact Hsqd'| |exact Hrel'].
    intros rc _. pose proof (near_range head rc).
    change (near head mid) with 1. lia. }
  split; [exact Hlow'|].
  destruct Hrel' as (R1 & R2 & R3 & _).
  split; [|split].
  - destruct (R1 _ _ Hx) as (x' & Hx' & Hle).
    pose proof (proj2 Hlow' _ _ Hx') as H. change (near _ _) with 0 in H.
    replace x' with 0 in Hx' by lia. exact Hx'.
  - rewrite R2. exact Hy.
  - destruct (R3 food 1) as (z & Hz & Hle).
    + exists (cell_point bs food). split.
      * apply elem_of_app. right. left.
      * apply (cell_of_point bs n side); cbn; lia.
    + exact Hy.
    + pose proof (proj2 Hlow' _ _ Hz) as H.
      change (near _ _) with 2 in H.
      replace z with 2 in Hz by lia. exact Hz.
Qed.

End OpenRow.

Lemma near_zero (head rc : nat * nat) : near head rc <= 0 -> rc = head.
Proof.
  unfold near. destruct (decide (rc = head)) as [Heq|Hne]; [auto|].
  rewrite bool_decide_false by exact Hne. case_bool_decide; lia.
Qed.

Section OpenBoard.

Import BreadthFirstSearchAgent.

Variable self : t.
Variable board : board3.
Variable b b1 : list (list Z).
Variable vals : values.

Hypothesis board_frame : frame 0 board = Ok b.
Hypothesis board_frame1 : frame 1 board = Ok b1.
Hypothesis board_shape :
  has_shape b (Z.to_nat (_board_size self)) (Z.to_nat (_board_size self))
  = true.
Hypothesis side_five : (5 <= Z.to_nat (_board_size self))%nat.
Hypothesis head_cell : only_at b (v_head vals) 1 1.
Hypothesis food_cell : only_at b (v_food vals) 1 3.
Hypothesis free_cell : cell2 b 1 2 = Some (v_board vals).

Lemma open_row_shortest_path (fuel : nat) :
  (4 <= fuel)%nat ->
  _get_shortest_path fuel self board vals
  = Ok [cell_point (_board_size self) (1%nat, 3%nat);
        cell_point (_board_size self) (1%nat, 2%nat);
        cell_point (_board_size self) (1%nat, 1%nat)].
Proof.
  intros Hfuel.
  set (bs := _board_size self). set (n := Z.to_nat bs).
  set (head := (1%nat, 1%nat)). set (mid := (1%nat, 2%nat)).
  set (food := (1%nat, 3%nat)).
  fold bs in side_five, board_shape. fold n in side_five, board_shape.
  assert (Hside : bs = Z.of_nat n) by (unfold n; lia).
  pose proof (has_shape_spec _ _ _ board_shape) as Hsq.
  fold (square n b) in Hsq.
  destruct (open_row_enterable vals b head_cell food_cell free_cell)
    as (Hhe & Hme & Hfe).
  unfold _get_shortest_path, search_food. fold bs.
  rewrite board_frame. cbn [obind].
  rewrite (grid_where_only_at _ _ _ _ _ board_shape head_cell).
  cbn [obind].
  change (Z.of_nat 1 * bs + Z.of_nat 1) with (cell_point bs head).
  destruct (initial_state_cells bs head) as (st & Hinit & _);
    [cbn; fold n; lia|cbn; fold n; lia|].
  rewrite Hinit. cbn [obind].
  destruct (open_row_search bs vals b n Hside Hsq side_five head_cell
              food_cell free_cell fuel st Hfuel Hinit)
    as (dist & -> & Hlow & Hdh & Hdm & Hdf).
  cbn [obind snd].
  rewrite (grid_where_only_at _ _ _ _ _ board_shape food_cell).
  cbn [obind].
  change (Z.of_nat 1 * bs + Z.of_nat 3) with (cell_point bs food).
  pose proof Hlow as [Hsqd Hbound].
  change (cell2 dist head.1 head.2 = Some (Steps 0)) in Hdh.
  change (cell2 dist mid.1 mid.2 = Some (Steps 1)) in Hdm.
  change (cell2 dist food.1 food.2 = Some (Steps 2)) in Hdf.
  destruct fuel as [|[|[|fuel]]]; try lia.
  (* from the food to the cell (1, 2) *)
  cbn [reconstruct].
  rewrite (cell_point_row_col bs n Hside) by (cbn; lia).
  rewrite (cell2_get _ _ _ _ Hdf). cbn [obind].
  change (2 =? 0) with false. cbn match.
  rewrite (bfs_neighbors_around bs vals b n Hside Hsq) by (cbn; lia).
  cbn [obind].
  assert (Hmf : mid ∈ around food) by (right; right; right; left).
  destruct (filter_split (enterable vals b) mid (around food) Hmf Hme)
    as (pre & post & Hfilter & Hpre).
  rewrite Hfilter, fmap_app, fmap_cons.
  rewrite (closer_neighbor_first bs n Hside dist 2 mid
             (cell_point bs <$> post) Hsqd ltac:(cbn; lia) ltac:(cbn; lia)
             Hdm pre).
  2: { intros rc Hin. destruct (Hpre rc Hin) as (Hrc & _ & Hnm).
       destruct (around_range n food rc) as (Hr & Hc & _);
         try (cbn; lia); [exact Hrc|].
       split; [exact Hr|]. split; [exact Hc|]. intros Hone.
       pose proof (Hbound rc 1 Hone) as Hle.
       unfold around, food in Hrc. cbn [fst snd] in Hrc.
       rewrite !elem_of_cons, elem_of_nil in Hrc.
       destruct Hrc as [->|[->|[->|[->|[]]]]];
         try (change (near _ _) with 2 in Hle; lia).
       apply Hnm. reflexivity. }
  cbn [obind].
  (* from the cell (1, 2) to the head *)
  cbn [reconstruct].
  rewrite (cell_point_row_col bs n Hside) by (cbn; lia).
  rewrite (cell2_get _ _ _ _ Hdm). cbn [obind].
  change (1 =? 0) with false. cbn match.
  rewrite (bfs_neighbors_around bs vals b n Hside Hsq) by (cbn; lia).
  cbn [obind].
  assert (Hhm : head ∈ around mid) by (right; right; right; left).
  destruct (filter_split (enterable vals b) head (around mid) Hhm Hhe)
    as (pre' & post' & Hfilter' & Hpre').
  rewrite Hfilter', fmap_app, fmap_cons.
  rewrite (closer_neighbor_first bs n Hside dist 1 head
             (cell_point bs <$> post') Hsqd ltac:(cbn; lia) ltac:(cbn; lia)
             Hdh pre').
  2: { intros rc Hin. destruct (Hpre' rc Hin) as (Hrc & _ & Hnh).
       destruct (around_range n mid rc) as (Hr & Hc & _);
         try (cbn; lia); [exact Hrc|].
       split; [exact Hr|]. split; [exact Hc|]. intros Hzero.
       pose proof (Hbound rc 0 Hzero) as Hle.
       apply Hnh. apply near_zero. exact Hle. }
  cbn [obind].
  (* at the head *)
  cbn [reconstruct].
  rewrite (cell_point_row_col bs n Hside) by (cbn; lia).
  rewrite (cell2_get _ _ _ _ Hdh). cbn [obind].
  reflexivity.
Qed.

Lemma open_row_move_one (fuel : nat) :
  (4 <= fuel)%nat ->
  move_one fuel self board vals = Ok 0.
Proof.
  intros Hfuel. unfold move_one.
  rewrite (open_row_shortest_path fuel Hfuel). cbn [obind].
  set (bs := _board_size self).
  fold bs in side_five, board_shape.
  assert (Hside : bs = Z.of_nat (Z.to_nat bs)) by lia.
  change (second_to_last _) with (Ok (cell_point bs (1%nat, 2%nat))).
  cbn [obind]. rewrite board_frame. cbn [obind].
  rewrite (grid_where_only_at _ _ _ _ _ board_shape head_cell).
  cbn [obind]. rewrite board_frame1. cbn [obind].
  change (Z.of_nat 1 * bs + Z.of_nat 1) with (cell_point bs (1%nat, 1%nat)).
  rewrite !(cell_point_row_col bs _ Hside) by (cbn; lia).
  reflexivity.
Qed.

End OpenBoard.





(** ** The search that ends with an empty queue *)

Lemma cells_elem (n : nat) (rc : nat * nat) :
  (rc.1 < n)%nat -> (rc.2 < n)%nat -> In rc (cells n).
Proof.
  intros Hr Hc. destruct rc as [r c]. unfold cells.
  apply in_prod; apply in_seq; cbn in *; lia.
Qed.

Lemma filter_length_mono {A} (f g : A -> bool) (l : list A) :
  (forall x, In x l -> f x = true -> g x = true) ->
  (length (List.filter f l) <= length (List.filter g l))%nat.
Proof.
  induction l as [|x l IH]; intros H; [cbn; lia|].
  assert (IH' := IH ltac:(intros y Hy; apply H; right; exact Hy)).
  cbn. destruct (f x) eqn:Hf.
  - rewrite (H x ltac:(left; reflexivity) Hf). cbn. lia.
  - destruct (g x); cbn; lia.
Qed.

Lemma filter_length_lt {A} (f g : A -> bool) (l : list A) (c : A) :
  (forall x, In x l -> f x = true -> g x = true) ->
  In c l -> f c = false -> g c = true ->
  (length (List.filter f l) < length (List.filter g l))%nat.
Proof.
  induction l as [|x l IH]; intros H Hin Hf Hg; [destruct Hin|].
  assert (Hrest : forall y, In y l -> f y = true -> g y = true).
  { intros y Hy. apply H. right. exact Hy. }
  cbn. destruct Hin as [->|Hin].
  - rewrite Hf, Hg. cbn. pose proof (filter_length_mono f g l Hrest). lia.
  - specialize (IH Hrest Hin Hf Hg). destruct (f x) eqn:Hfx.
    + rewrite (H x ltac:(left; reflexivity) Hfx). cbn. lia.
    + destruct (g x); cbn; lia.
Qed.

Lemma filter_length_pos {A} (f : A -> bool) (l : list A) (c : A) :
  In c l -> f c = true -> (1 <= length (List.filter f l))%nat.
Proof.
  intros Hin Hf.
  assert (In c (List.filter f l)) as H by (apply filter_In; auto).
  destruct (List.filter f l); [destruct H|cbn; lia].
Qed.

Section Potential.

Variable n : nat.
Variable bs : Z.

Lemma unvisitedb_cell (vis : list (list Z)) (p : Z) (rc : nat * nat) :
  cell_of n bs p = Some rc -> unvisitedb n bs vis p = unvisited_cell vis rc.
Proof. intros H. unfold unvisitedb, unvisited_cell. rewrite H. reflexivity. Qed.

Lemma cell_of_range (p : Z) (rc : nat * nat) :
  cell_of n bs p = Some rc -> (rc.1 < n)%nat /\ (rc.2 < n)%nat.
Proof.
  unfold cell_of.
  destruct (wrap n (p / bs)) as [r|] eqn:Hr; [|discriminate].
  destruct (wrap n (p mod bs)) as [c|] eqn:Hc; [|discriminate].
  intros [= <-]. split; eapply wrap_lt; eassumption.
Qed.

Lemma weight_pos (vis : list (list Z)) (p : Z) : 0 < weight n bs vis p.
Proof. unfold weight. apply Z.pow_pos_nonneg; lia. Qed.

Lemma potential_nonneg (vis : list (list Z)) (queue : list Z) :
  0 <= potential n bs vis queue.
Proof.
  induction queue as [|p queue IH]; cbn; [lia|].
  pose proof (weight_pos vis p). unfold potential in IH. lia.
Qed.

Lemma potential_app (vis : list (list Z)) (q q' : list Z) :
  potential n bs vis (q ++ q')
  = potential n bs vis q + potential n bs vis q'.
Proof.
  unfold potential. induction q as [|p q IH]; cbn; [reflexivity|].
  rewrite IH. lia.
Qed.

Lemma potential_le (vis vis' : list (list Z)) (q : list Z) :
  (forall p, p ∈ q -> weight n bs vis' p <= weight n bs vis p) ->
  potential n bs vis' q <= potential n bs vis q.
Proof.
  unfold potential. induction q as [|p q IH]; intros H; cbn; [lia|].
  pose proof (H p ltac:(left)).
  specialize (IH ltac:(intros e He; apply H; right; exact He)). lia.
Qed.

Lemma potential_const (vis : list (list Z)) (q : list Z) (w : Z) :
  (forall p, p ∈ q -> weight n bs vis p = w) ->
  potential n bs vis q = Z.of_nat (length q) * w.
Proof.
  unfold potential. induction q as [|p q IH]; intros H; [cbn; lia|].
  cbn [map fold_right length]. rewrite (H p) by left.
  rewrite IH by (intros e He; apply H; right; exact He). lia.
Qed.

(** A round of the search decreases the measure: the entry that it takes
    from the queue weighs more than the four entries, at most, that it
    adds. *)
Lemma potential_pop (vis vis' : list (list Z)) (p : Z) (c : nat * nat)
    (q new : list Z) :
  cell_of n bs p = Some c ->
  (length new <= 4)%nat ->
  (forall e, e ∈ new ->
     exists c', cell_of n bs e = Some c' /\ c' <> c
                /\ unvisited_cell vis c' = true) ->
  (forall rc',
     at_cell vis' rc'
     = match new with
       | [] => at_cell vis rc'
       | _ :: _ =>
           if bool_decide (rc' = c) then Some 1 else at_cell vis rc'
       end) ->
  potential n bs vis' (q ++ new) < potential n bs vis (p :: q).
Proof.
  intros Hp Hlen Hnew Hvis.
  change (potential n bs vis (p :: q))
    with (weight n bs vis p + potential n bs vis q).
  rewrite potential_app.
  destruct new as [|e0 new0].
  - assert (Hcell : forall rc, unvisited_cell vis' rc = unvisited_cell vis rc).
    { intros rc. unfold unvisited_cell. rewrite Hvis. reflexivity. }
    assert (Hcount : unvisited_count n vis' = unvisited_count n vis).
    { unfold unvisited_count. f_equal. apply filter_ext. exact Hcell. }
    assert (potential n bs vis' q <= potential n bs vis q).
    { apply potential_le. intros e _. unfold weight, unvisitedb.
      rewrite Hcount. destruct (cell_of n bs e) as [rc|]; [|lia].
      fold (unvisited_cell vis' rc). fold (unvisited_cell vis rc).
      rewrite Hcell. lia. }
    pose proof (weight_pos vis p). cbn. lia.
  - assert (Hvis' : forall rc',
              at_cell vis' rc'
              = if bool_decide (rc' = c) then Some 1 else at_cell vis rc')
      by exact Hvis.
    clear Hvis.
    assert (He0 : e0 ∈ e0 :: new0) by left.
    remember (e0 :: new0) as new eqn:Enew. clear Enew.
    assert (Hc : unvisited_cell vis' c = false).
    { unfold unvisited_cell. rewrite Hvis'.
      rewrite bool_decide_true by reflexivity. reflexivity. }
    assert (Hother : forall rc, rc <> c ->
              unvisited_cell vis' rc = unvisited_cell vis rc).
    { intros rc Hne. unfold unvisited_cell. rewrite Hvis'.
      rewrite bool_decide_false by exact Hne. reflexivity. }
    assert (Hmono : forall rc, In rc (cells n) ->
              unvisited_cell vis' rc = true -> unvisited_cell vis rc = true).
    { intros rc _ H. destruct (decide (rc = c)) as [->|Hne]; [congruence|].
      rewrite <- (Hother rc Hne). exact H. }
    pose proof (cell_of_range p c Hp) as [Hcr Hcc].
    pose proof (filter_length_mono _ _ (cells n) Hmono) as Hle.
    fold (unvisited_count n vis') in Hle. fold (unvisited_count n vis) in Hle.
    assert (Hlt : unvisited_cell vis c = true ->
                  (unvisited_count n vis' < unvisited_count n vis)%nat).
    { intros H. apply (filter_length_lt _ _ (cells n) c Hmono); auto.
      apply cells_elem; assumption. }
    assert (Hpos : (1 <= unvisited_count n vis')%nat).
    { destruct (Hnew e0 He0) as (c0 & Hc0 & Hne0 & Hu0).
      pose proof (cell_of_range e0 c0 Hc0) as [Hr0 Hcc0].
      apply (filter_length_pos _ (cells n) c0).
      - apply cells_elem; assumption.
      - rewrite (Hother c0 Hne0). exact Hu0. }
    set (U' := unvisited_count n vis') in *.
    set (U := unvisited_count n vis) in *.
    set (X := 5 ^ Z.of_nat (U' - 1)).
    assert (HX : 0 < X) by (apply Z.pow_pos_nonneg; lia).
    assert (H5 : 5 ^ Z.of_nat U' = 5 * X).
    { unfold X. replace (Z.of_nat U') with (Z.succ (Z.of_nat (U' - 1))) by lia.
      rewrite Z.pow_succ_r by lia. reflexivity. }
    assert (Hq : potential n bs vis' q <= potential n bs vis q).
    { apply potential_le. intros e _. unfold weight. fold U U'.
      apply Z.pow_le_mono_r; [lia|].
      destruct (cell_of n bs e) as [ce|] eqn:Hce.
      - rewrite !(unvisitedb_cell _ e ce Hce).
        destruct (decide (ce = c)) as [->|Hne].
        + rewrite Hc. destruct (unvisited_cell vis c) eqn:Hu.
          * specialize (Hlt eq_refl). lia.
          * lia.
        + rewrite (Hother ce Hne). lia.
      - unfold unvisitedb. rewrite Hce. lia. }
    assert (Hn : potential n bs vis' new = Z.of_nat (length new) * X).
    { apply potential_const. intros e He.
      destruct (Hnew e He) as (c' & Hc' & Hne' & Hu').
      unfold weight. fold U'. rewrite (unvisitedb_cell _ e c' Hc').
      rewrite (Hother c' Hne'), Hu'. reflexivity. }
    assert (Hw : 5 * X <= weight n bs vis p).
    { rewrite <- H5. unfold weight. fold U.
      apply Z.pow_le_mono_r; [lia|].
      rewrite (unvisitedb_cell _ p c Hp).
      destruct (unvisited_cell vis c) eqn:Hu.
      - specialize (Hlt eq_refl). lia.
      - lia. }
    rewrite Hn. nia.
Qed.

End Potential.

Lemma closed_region_spec (vals : values) (b : list (list Z)) (n : nat)
    (head : nat * nat) (region : list (nat * nat)) :
  closed_region vals b n head region = true ->
  forall rc, reachable vals b head rc -> rc ∈ region /\ inside n rc.
Proof.
  unfold closed_region. intros H. apply andb_prop in H as [Hhead Hall].
  apply bool_decide_eq_true in Hhead. rewrite forallb_forall in Hall.
  assert (Hin : forall rc, rc ∈ region ->
            inside n rc
            /\ forall rc', rc' ∈ around rc -> enterable vals b rc' = true ->
                 rc' ∈ region).
  { intros rc Hrc. apply list_elem_of_In in Hrc.
    specialize (Hall rc Hrc).
    apply andb_prop in Hall as [Hall Hnext].
    apply andb_prop in Hall as [Hall H4].
    apply andb_prop in Hall as [Hall H3].
    apply andb_prop in Hall as [H1 H2].
    apply Nat.leb_le in H1, H3. apply Nat.ltb_lt in H2, H4.
    split; [repeat split; assumption|].
    intros rc' Hrc' He. rewrite forallb_forall in Hnext.
    apply list_elem_of_In in Hrc'. specialize (Hnext rc' Hrc').
    rewrite He in Hnext. cbn in Hnext.
    apply bool_decide_eq_true in Hnext. exact Hnext. }
  intros rc Hreach.
  assert (Hrc : rc ∈ region).
  { induction Hreach as [|rc rc' _ IH Hnext He]; [exact Hhead|].
    exact (proj2 (Hin rc IH) rc' Hnext He). }
  split; [exact Hrc|exact (proj1 (Hin rc Hrc))].
Qed.

Section Enclosed.

Import BreadthFirstSearchAgent.

Variable bs : Z.
Variable vals : values.
Variable b : list (list Z).
Variable n : nat.

Hypothesis side : bs = Z.of_nat n.
Hypothesis board_square : square n b.

Variable head food : nat * nat.

Hypothesis food_cell : only_at b (v_food vals) food.1 food.2.
Hypothesis reachable_inside :
  forall rc, reachable vals b head rc -> inside n rc.
Hypothesis food_unreachable : ~ reachable vals b head food.

(** The search ends, with an empty queue, by the time the fuel exceeds the
    measure. *)
Lemma search_exhausts (fuel : nat) : forall st : search_state,
  square n (distances st) -> square n (visited st) ->
  (forall p, p ∈ points_to_search st ->
     exists rc, p = cell_point bs rc /\ reachable vals b head rc) ->
  potential n bs (visited st) (points_to_search st) < Z.of_nat fuel ->
  exists dist, search fuel bs vals b st = Ok (false, dist).
Proof.
  induction fuel as [|fuel IH]; intros st Hsqd Hsqv Hqueue Hpot.
  { pose proof (potential_nonneg n bs (visited st) (points_to_search st)).
    lia. }
  destruct (points_to_search st) as [|p q] eqn:Hq.
  { exists (distances st). cbn [search]. rewrite Hq. reflexivity. }
  destruct (Hqueue p ltac:(left)) as (c & -> & Hc).
  destruct (reachable_inside c Hc) as (Hc1 & Hc2 & Hc3 & Hc4).
  pose proof (bfs_neighbors_around bs vals b n side board_square c
                Hc1 Hc2 Hc3 Hc4) as Hnbrs.
  set (nbrs := cell_point bs <$> List.filter (enterable vals b) (around c))
    in *.
  assert (Hcells : forall e, e ∈ nbrs ->
            exists rc, e = cell_point bs rc /\ reachable vals b head rc
                       /\ cell_of n bs e = Some rc /\ rc <> c).
  { intros e He. apply list_elem_of_fmap in He as (rc & -> & Hrc).
    apply list_elem_of_In, filter_In in Hrc as [Hrc He].
    apply list_elem_of_In in Hrc.
    destruct (around_range n c rc Hc1 Hc2 Hc3 Hc4 Hrc) as (Hr & Hcc & Hne).
    exists rc. split; [reflexivity|].
    split; [exact (reachable_step _ _ _ c rc Hc Hrc He)|].
    split; [apply (cell_of_point bs n side); assumption|exact Hne]. }
  destruct (search_plain_pop bs vals b n side board_square fuel st c q nbrs)
    as (st' & Hsearch & Hsqd' & Hsqv' & Hq' & Hv' & _);
    try assumption; try lia.
  { intros e He. destruct (Hcells e He) as (rc & -> & Hreach & Hof & Hne).
    pose proof (cell_of_range n bs _ rc Hof) as [Hr Hcc].
    destruct (square_cell n b rc.1 rc.2 board_square Hr Hcc) as [cell Hcell].
    exists rc, cell. split; [exact Hof|]. split; [exact Hne|].
    split; [exact Hcell|]. intros ->. apply food_unreachable.
    destruct (proj2 food_cell _ _ Hcell) as [E1 E2].
    replace food with rc; [exact Hreach|].
    destruct rc, food. cbn in *. congruence. }
  rewrite Hsearch. apply IH; try assumption.
  - intros e He. rewrite Hq' in He. apply elem_of_app in He as [He|He].
    + apply Hqueue. right. exact He.
    + apply list_elem_of_In, filter_In in He as [He _].
      apply list_elem_of_In in He.
      destruct (Hcells e He) as (rc & -> & Hreach & _). eauto.
  - assert (potential n bs (visited st') (points_to_search st')
            < potential n bs (visited st) (cell_point bs c :: q)); [|lia].
    rewrite Hq'.
    apply (potential_pop n bs (visited st) (visited st') _ c).
    + apply (cell_of_point bs n side); lia.
    + transitivity (length nbrs); [apply List.filter_length_le|].
      unfold nbrs. rewrite length_fmap.
      transitivity (length (around c)); [apply List.filter_length_le|].
      cbn. lia.
    + intros e He. apply list_elem_of_In, filter_In in He as [He Hu].
      apply list_elem_of_In in He.
      destruct (Hcells e He) as (rc & -> & _ & Hof & Hne).
      exists rc. split; [exact Hof|]. split; [exact Hne|].
      rewrite <- (unvisitedb_cell n bs _ _ rc Hof). exact Hu.
    + exact Hv'.
Qed.

End Enclosed.




